(** * tiny-AES-c: a shallow embedding of [aes.c] and its verification

    The C translation unit is parameterised at compile time by the key
    size ([AES128], [AES192], [AES256]); here the choice is a value of
    type [keysize] passed to the functions that depend on [Nk] or [Nr].

    Conventions of the embedding:
    - a [uint8_t] is a [Z] in [0, 2^8), a [uint32_t] a [Z] in [0, 2^32);
      every operation that can leave the range in C ([<<], [*], [+]) has
      its wrap-around written out with [u8] / [u32];
    - the unions [state_t] and [helper_t] overlay bytes and 32-bit words;
      the code reads [a[0]] as the low-order byte of [i], that is, it is
      written for a little-endian target, and so is this model;
    - array indices and loop counters are [nat];
    - a caller-supplied buffer is a [list Z] whose length is the size of
      the underlying object; every access through a buffer pointer is
      bounds-checked and an access outside yields [OutOfBounds]. *)

From Stdlib Require Import ZArith List Lia Bool Btauto.
Import ListNotations.
Local Open Scope Z_scope.

(** ** Results of fallible computations *)

Inductive result (A : Type) : Type :=
| Ok (a : A)
| OutOfBounds
| OutOfFuel.
Arguments Ok {A} a.
Arguments OutOfBounds {A}.
Arguments OutOfFuel {A}.

Definition bind {A B : Type} (m : result A) (k : A -> result B) : result B :=
  match m with
  | Ok a => k a
  | OutOfBounds => OutOfBounds
  | OutOfFuel => OutOfFuel
  end.

Notation "x <- m ;; k" := (bind m (fun x => k))
  (at level 61, m at next level, right associativity).
Notation "' p <- m ;; k" := (bind m (fun p => k))
  (at level 61, p pattern, m at next level, right associativity).

(** ** Machine integers *)

Definition u8 (x : Z) : Z := x mod 256.
Definition u32 (x : Z) : Z := x mod 4294967296.

(** [x << n] and [x * y] on [uint32_t]. *)
Definition shl32 (x n : Z) : Z := u32 (Z.shiftl x n).
Definition mul32 (x y : Z) : Z := u32 (x * y).

(** Counted loop [for (i = lo; i < lo + count; ++i) body]. *)
Fixpoint for_up {S : Type} (i count : nat) (body : nat -> S -> S) (s : S) : S :=
  match count with
  | O => s
  | Datatypes.S c => for_up (Datatypes.S i) c body (body i s)
  end.

(** Array write [l[i] = v]; the arrays written this way have a size fixed
    by their C type and are only indexed inside it. *)
Fixpoint upd (l : list Z) (i : nat) (v : Z) : list Z :=
  match l, i with
  | [], _ => []
  | _ :: t, O => v :: t
  | h :: t, Datatypes.S j => h :: upd t j v
  end.

(** ** Defines *)

Definition MASK32_BYTE0 : Z := 0x000000FF.
Definition MASK32_BYTE1 : Z := 0x0000FF00.
Definition MASK32_BYTE2 : Z := 0x00FF0000.
Definition MASK32_BYTE3 : Z := 0xFF000000.

Definition INVMASK32_BYTE0 : Z := 0xFFFFFF00.
Definition INVMASK32_BYTE1 : Z := 0xFFFF00FF.
Definition INVMASK32_BYTE2 : Z := 0xFF00FFFF.
Definition INVMASK32_BYTE3 : Z := 0x00FFFFFF.

Definition OFS32_BYTE0 : Z := 0.
Definition OFS32_BYTE1 : Z := 8.
Definition OFS32_BYTE2 : Z := 16.
Definition OFS32_BYTE3 : Z := 24.

Definition Nb : nat := 4.

Inductive keysize : Type := AES128 | AES192 | AES256.

Definition Nk (ks : keysize) : nat :=
  match ks with AES256 => 8 | AES192 => 6 | AES128 => 4 end.

Definition Nr (ks : keysize) : nat :=
  match ks with AES256 => 14 | AES192 => 12 | AES128 => 10 end.

(** Modelled from the spec: [AES_BLOCKLEN] is defined in [aes.h], which is
    not part of the sources at hand; the block is 16 bytes (spec, 1 and
    glossary). *)
Definition AES_BLOCKLEN : nat := 16.

(** ** Types *)

(** [state_t]: the four 32-bit words [i[0..3]] of the union. *)
Record state_t : Type := mkState { i0 : Z; i1 : Z; i2 : Z; i3 : Z }.

Definition state_i (s : state_t) (i : nat) : Z :=
  match i with
  | 0%nat => i0 s
  | 1%nat => i1 s
  | 2%nat => i2 s
  | _ => i3 s
  end.

Definition state_set_i (s : state_t) (i : nat) (v : Z) : state_t :=
  match i with
  | 0%nat => mkState v (i1 s) (i2 s) (i3 s)
  | 1%nat => mkState (i0 s) v (i2 s) (i3 s)
  | 2%nat => mkState (i0 s) (i1 s) v (i3 s)
  | 3%nat => mkState (i0 s) (i1 s) (i2 s) v
  | _ => s
  end.

(** [helper_t]: member [a[k]] of a word, read and written. *)
Definition helper_a (w : Z) (k : nat) : Z :=
  Z.land (Z.shiftr w (8 * Z.of_nat k)) 255.

Definition helper_set_a (w : Z) (k : nat) (v : Z) : Z :=
  Z.lor (Z.ldiff w (Z.shiftl 255 (8 * Z.of_nat k)))
        (Z.shiftl v (8 * Z.of_nat k)).

(** Modelled from the spec: [roundKey_t] and [struct AES_ctx] are declared
    in [aes.h], which is not part of the sources at hand.  The schedule is
    an array of [Nb * (Nr + 1)] 32-bit words read as [RoundKey->i[k]], and
    the context holds the schedule and the 16-byte chaining value [Iv]
    (spec, 3). *)
Record AES_ctx : Type := mkCtx { RoundKey : list Z; Iv : list Z }.

Definition RoundKey_i (rk : list Z) (k : nat) : Z := nth k rk 0.

(** ** Lookup tables *)

Definition sbox : list Z :=
  [0x63; 0x7c; 0x77; 0x7b; 0xf2; 0x6b; 0x6f; 0xc5; 0x30; 0x01; 0x67; 0x2b; 0xfe; 0xd7; 0xab; 0x76;
   0xca; 0x82; 0xc9; 0x7d; 0xfa; 0x59; 0x47; 0xf0; 0xad; 0xd4; 0xa2; 0xaf; 0x9c; 0xa4; 0x72; 0xc0;
   0xb7; 0xfd; 0x93; 0x26; 0x36; 0x3f; 0xf7; 0xcc; 0x34; 0xa5; 0xe5; 0xf1; 0x71; 0xd8; 0x31; 0x15;
   0x04; 0xc7; 0x23; 0xc3; 0x18; 0x96; 0x05; 0x9a; 0x07; 0x12; 0x80; 0xe2; 0xeb; 0x27; 0xb2; 0x75;
   0x09; 0x83; 0x2c; 0x1a; 0x1b; 0x6e; 0x5a; 0xa0; 0x52; 0x3b; 0xd6; 0xb3; 0x29; 0xe3; 0x2f; 0x84;
   0x53; 0xd1; 0x00; 0xed; 0x20; 0xfc; 0xb1; 0x5b; 0x6a; 0xcb; 0xbe; 0x39; 0x4a; 0x4c; 0x58; 0xcf;
   0xd0; 0xef; 0xaa; 0xfb; 0x43; 0x4d; 0x33; 0x85; 0x45; 0xf9; 0x02; 0x7f; 0x50; 0x3c; 0x9f; 0xa8;
   0x51; 0xa3; 0x40; 0x8f; 0x92; 0x9d; 0x38; 0xf5; 0xbc; 0xb6; 0xda; 0x21; 0x10; 0xff; 0xf3; 0xd2;
   0xcd; 0x0c; 0x13; 0xec; 0x5f; 0x97; 0x44; 0x17; 0xc4; 0xa7; 0x7e; 0x3d; 0x64; 0x5d; 0x19; 0x73;
   0x60; 0x81; 0x4f; 0xdc; 0x22; 0x2a; 0x90; 0x88; 0x46; 0xee; 0xb8; 0x14; 0xde; 0x5e; 0x0b; 0xdb;
   0xe0; 0x32; 0x3a; 0x0a; 0x49; 0x06; 0x24; 0x5c; 0xc2; 0xd3; 0xac; 0x62; 0x91; 0x95; 0xe4; 0x79;
   0xe7; 0xc8; 0x37; 0x6d; 0x8d; 0xd5; 0x4e; 0xa9; 0x6c; 0x56; 0xf4; 0xea; 0x65; 0x7a; 0xae; 0x08;
   0xba; 0x78; 0x25; 0x2e; 0x1c; 0xa6; 0xb4; 0xc6; 0xe8; 0xdd; 0x74; 0x1f; 0x4b; 0xbd; 0x8b; 0x8a;
   0x70; 0x3e; 0xb5; 0x66; 0x48; 0x03; 0xf6; 0x0e; 0x61; 0x35; 0x57; 0xb9; 0x86; 0xc1; 0x1d; 0x9e;
   0xe1; 0xf8; 0x98; 0x11; 0x69; 0xd9; 0x8e; 0x94; 0x9b; 0x1e; 0x87; 0xe9; 0xce; 0x55; 0x28; 0xdf;
   0x8c; 0xa1; 0x89; 0x0d; 0xbf; 0xe6; 0x42; 0x68; 0x41; 0x99; 0x2d; 0x0f; 0xb0; 0x54; 0xbb; 0x16].

Definition rsbox : list Z :=
  [0x52; 0x09; 0x6a; 0xd5; 0x30; 0x36; 0xa5; 0x38; 0xbf; 0x40; 0xa3; 0x9e; 0x81; 0xf3; 0xd7; 0xfb;
   0x7c; 0xe3; 0x39; 0x82; 0x9b; 0x2f; 0xff; 0x87; 0x34; 0x8e; 0x43; 0x44; 0xc4; 0xde; 0xe9; 0xcb;
   0x54; 0x7b; 0x94; 0x32; 0xa6; 0xc2; 0x23; 0x3d; 0xee; 0x4c; 0x95; 0x0b; 0x42; 0xfa; 0xc3; 0x4e;
   0x08; 0x2e; 0xa1; 0x66; 0x28; 0xd9; 0x24; 0xb2; 0x76; 0x5b; 0xa2; 0x49; 0x6d; 0x8b; 0xd1; 0x25;
   0x72; 0xf8; 0xf6; 0x64; 0x86; 0x68; 0x98; 0x16; 0xd4; 0xa4; 0x5c; 0xcc; 0x5d; 0x65; 0xb6; 0x92;
   0x6c; 0x70; 0x48; 0x50; 0xfd; 0xed; 0xb9; 0xda; 0x5e; 0x15; 0x46; 0x57; 0xa7; 0x8d; 0x9d; 0x84;
   0x90; 0xd8; 0xab; 0x00; 0x8c; 0xbc; 0xd3; 0x0a; 0xf7; 0xe4; 0x58; 0x05; 0xb8; 0xb3; 0x45; 0x06;
   0xd0; 0x2c; 0x1e; 0x8f; 0xca; 0x3f; 0x0f; 0x02; 0xc1; 0xaf; 0xbd; 0x03; 0x01; 0x13; 0x8a; 0x6b;
   0x3a; 0x91; 0x11; 0x41; 0x4f; 0x67; 0xdc; 0xea; 0x97; 0xf2; 0xcf; 0xce; 0xf0; 0xb4; 0xe6; 0x73;
   0x96; 0xac; 0x74; 0x22; 0xe7; 0xad; 0x35; 0x85; 0xe2; 0xf9; 0x37; 0xe8; 0x1c; 0x75; 0xdf; 0x6e;
   0x47; 0xf1; 0x1a; 0x71; 0x1d; 0x29; 0xc5; 0x89; 0x6f; 0xb7; 0x62; 0x0e; 0xaa; 0x18; 0xbe; 0x1b;
   0xfc; 0x56; 0x3e; 0x4b; 0xc6; 0xd2; 0x79; 0x20; 0x9a; 0xdb; 0xc0; 0xfe; 0x78; 0xcd; 0x5a; 0xf4;
   0x1f; 0xdd; 0xa8; 0x33; 0x88; 0x07; 0xc7; 0x31; 0xb1; 0x12; 0x10; 0x59; 0x27; 0x80; 0xec; 0x5f;
   0x60; 0x51; 0x7f; 0xa9; 0x19; 0xb5; 0x4a; 0x0d; 0x2d; 0xe5; 0x7a; 0x9f; 0x93; 0xc9; 0x9c; 0xef;
   0xa0; 0xe0; 0x3b; 0x4d; 0xae; 0x2a; 0xf5; 0xb0; 0xc8; 0xeb; 0xbb; 0x3c; 0x83; 0x53; 0x99; 0x61;
   0x17; 0x2b; 0x04; 0x7e; 0xba; 0x77; 0xd6; 0x26; 0xe1; 0x69; 0x14; 0x63; 0x55; 0x21; 0x0c; 0x7d].

Definition Rcon : list Z :=
  [0x8d; 0x01; 0x02; 0x04; 0x08; 0x10; 0x20; 0x40; 0x80; 0x1b; 0x36].

Definition getSBoxValue (num : Z) : Z := nth (Z.to_nat num) sbox 0.
Definition getSBoxInvert (num : Z) : Z := nth (Z.to_nat num) rsbox 0.
Definition getRconValue (num : nat) : Z := nth num Rcon 0.

(** The expression shared by [SubWord], [SubBytes] and [InvSubBytes]: the
    table is applied to each byte of the word.  The C expression is
    evaluated in [int] and wraps to 32 bits on assignment. *)
Definition sub_word (get : Z -> Z) (w : Z) : Z :=
  u32 (Z.lor (Z.lor (Z.lor
         (Z.shiftl (get (helper_a w 0)) OFS32_BYTE0)
         (Z.shiftl (get (helper_a w 1)) OFS32_BYTE1))
         (Z.shiftl (get (helper_a w 2)) OFS32_BYTE2))
         (Z.shiftl (get (helper_a w 3)) OFS32_BYTE3)).

(** ** Key schedule *)

(** [memcpy(RoundKey, Key, 4 * Nk)]: word [j] receives bytes [4j .. 4j+3]
    of the key, low byte first. *)
Definition le32 (b0 b1 b2 b3 : Z) : Z :=
  b0 + 256 * b1 + 65536 * b2 + 16777216 * b3.

Definition memcpy_key (ks : keysize) (rk Key : list Z) : list Z :=
  for_up 0 (Nk ks)
    (fun j rk => upd rk j (le32 (nth (4 * j) Key 0) (nth (4 * j + 1) Key 0)
                                (nth (4 * j + 2) Key 0) (nth (4 * j + 3) Key 0)))
    rk.

Definition RotWord (temp : Z) : Z :=
  let u8tmp := helper_a temp 0 in
  let temp := Z.shiftr temp 8 in
  helper_set_a temp 3 u8tmp.

Definition KeyExpansion_body (ks : keysize) (i : nat) (rk : list Z) : list Z :=
  let k := (i - 1)%nat in
  let temp := RoundKey_i rk k in
  let temp :=
    if (i mod Nk ks =? 0)%nat then
      let temp := RotWord temp in
      let temp := sub_word getSBoxValue temp in
      helper_set_a temp 0 (Z.lxor (helper_a temp 0) (getRconValue (i / Nk ks)))
    else temp in
  let temp :=
    match ks with
    | AES256 => if (i mod Nk ks =? 4)%nat then sub_word getSBoxValue temp else temp
    | _ => temp
    end in
  let j := i in
  let k := (i - Nk ks)%nat in
  upd rk j (Z.lxor (RoundKey_i rk k) temp).

(** [Key] is read through a caller pointer: fewer than [4 * Nk] bytes behind
    it is an access out of bounds. *)
Definition KeyExpansion (ks : keysize) (rk Key : list Z) : result (list Z) :=
  if (4 * Nk ks <=? length Key)%nat then
    let rk := memcpy_key ks rk Key in
    Ok (for_up (Nk ks) (Nb * (Nr ks + 1) - Nk ks) (KeyExpansion_body ks) rk)
  else OutOfBounds.

(** ** Round transform *)

Definition AddRoundKey (round : nat) (state : state_t) (rk : list Z) : state_t :=
  for_up 0 4
    (fun i st => state_set_i st i
       (Z.lxor (state_i st i) (RoundKey_i rk (round * Nb + i))))
    state.

Definition SubBytes (state : state_t) : state_t :=
  for_up 0 4
    (fun i st => let tmp := state_i st i in
                 state_set_i st i (sub_word getSBoxValue tmp))
    state.

Definition ShiftRows (state : state_t) : state_t :=
  let line0 := i0 state in
  let line1 := i1 state in
  let line2 := i2 state in
  let line3 := i3 state in

  let temp := Z.land line0 MASK32_BYTE1 in
  let line0 := Z.land line0 INVMASK32_BYTE1 in
  let line0 := Z.lor line0 (Z.land line1 MASK32_BYTE1) in
  let line1 := Z.land line1 INVMASK32_BYTE1 in
  let line1 := Z.lor line1 (Z.land line2 MASK32_BYTE1) in
  let line2 := Z.land line2 INVMASK32_BYTE1 in
  let line2 := Z.lor line2 (Z.land line3 MASK32_BYTE1) in
  let line3 := Z.land line3 INVMASK32_BYTE1 in
  let line3 := Z.lor line3 temp in

  let temp := Z.land line0 MASK32_BYTE2 in
  let line0 := Z.land line0 INVMASK32_BYTE2 in
  let line0 := Z.lor line0 (Z.land line2 MASK32_BYTE2) in
  let line2 := Z.land line2 INVMASK32_BYTE2 in
  let line2 := Z.lor line2 temp in

  let temp := Z.land line1 MASK32_BYTE2 in
  let line1 := Z.land line1 INVMASK32_BYTE2 in
  let line1 := Z.lor line1 (Z.land line3 MASK32_BYTE2) in
  let line3 := Z.land line3 INVMASK32_BYTE2 in
  let line3 := Z.lor line3 temp in

  let temp := Z.land line0 MASK32_BYTE3 in
  let line0 := Z.land line0 INVMASK32_BYTE3 in
  let line0 := Z.lor line0 (Z.land line3 MASK32_BYTE3) in
  let line3 := Z.land line3 INVMASK32_BYTE3 in
  let line3 := Z.lor line3 (Z.land line2 MASK32_BYTE3) in
  let line2 := Z.land line2 INVMASK32_BYTE3 in
  let line2 := Z.lor line2 (Z.land line1 MASK32_BYTE3) in
  let line1 := Z.land line1 INVMASK32_BYTE3 in
  let line1 := Z.lor line1 temp in

  mkState line0 line1 line2 line3.

Definition xtime (x : Z) : Z :=
  Z.lxor (shl32 (Z.land x 0x7f7f7f7f) 1)
         (mul32 (Z.shiftr (Z.land x 0x80808080) 7) 0x1b).

Definition MixColumns (state : state_t) : state_t :=
  for_up 0 4
    (fun i st =>
       let sp := state_i st i in
       state_set_i st i
         (Z.lxor (Z.lxor (Z.lxor
            (xtime (Z.lxor sp (Z.lor (Z.shiftr sp 8) (shl32 sp 24))))
            (Z.lor (shl32 sp 8) (Z.shiftr sp 24)))
            (Z.lor (shl32 sp 16) (Z.shiftr sp 16)))
            (Z.lor (shl32 sp 24) (Z.shiftr sp 8))))
    state.

Definition InvMixColumns (state : state_t) : state_t :=
  for_up 0 4
    (fun i st =>
       let spVal := state_i st i in
       let xtimeX := xtime spVal in
       let xtimeXX := xtime xtimeX in
       let xtimeXXX := xtime xtimeXX in

       let xtime_x9 := Z.lxor xtimeXXX spVal in
       let xtime_xb := Z.lxor (Z.lxor xtimeXXX xtimeX) spVal in
       let xtime_xd := Z.lxor (Z.lxor xtimeXXX xtimeXX) spVal in
       let xtime_xe := Z.lxor (Z.lxor xtimeXXX xtimeXX) xtimeX in

       let xtime_xb_r8 := Z.shiftr xtime_xb 8 in
       let xtime_xd_r16 := Z.shiftr xtime_xd 16 in
       let xtime_x9_l8 := shl32 xtime_x9 8 in
       let xtime_xd_l16 := shl32 xtime_xd 16 in

       state_set_i st i
         (Z.lor (Z.lor (Z.lor
            (Z.land (Z.lxor (Z.lxor (Z.lxor xtime_xe xtime_xb_r8) xtime_xd_r16)
                            (Z.shiftr xtime_x9 24)) 0x000000ff)
            (Z.land (Z.lxor (Z.lxor (Z.lxor xtime_x9_l8 xtime_xe) xtime_xb_r8)
                            xtime_xd_r16) 0x0000ff00))
            (Z.land (Z.lxor (Z.lxor (Z.lxor xtime_xd_l16 xtime_x9_l8) xtime_xe)
                            xtime_xb_r8) 0x00ff0000))
            (Z.land (Z.lxor (Z.lxor (Z.lxor (shl32 xtime_xb 24) xtime_xd_l16)
                            xtime_x9_l8) xtime_xe) 0xff000000)))
    state.

Definition InvSubBytes (state : state_t) : state_t :=
  for_up 0 4
    (fun i st => let tmp := state_i st i in
                 state_set_i st i (sub_word getSBoxInvert tmp))
    state.

Definition InvShiftRows (state : state_t) : state_t :=
  let line0 := i0 state in
  let line1 := i1 state in
  let line2 := i2 state in
  let line3 := i3 state in

  let temp := Z.land line3 MASK32_BYTE1 in
  let line3 := Z.land line3 INVMASK32_BYTE1 in
  let line3 := Z.lor line3 (Z.land line2 MASK32_BYTE1) in
  let line2 := Z.land line2 INVMASK32_BYTE1 in
  let line2 := Z.lor line2 (Z.land line1 MASK32_BYTE1) in
  let line1 := Z.land line1 INVMASK32_BYTE1 in
  let line1 := Z.lor line1 (Z.land line0 MASK32_BYTE1) in
  let line0 := Z.land line0 INVMASK32_BYTE1 in
  let line0 := Z.lor line0 temp in

  let temp := Z.land line0 MASK32_BYTE2 in
  let line0 := Z.land line0 INVMASK32_BYTE2 in
  let line0 := Z.lor line0 (Z.land line2 MASK32_BYTE2) in
  let line2 := Z.land line2 INVMASK32_BYTE2 in
  let line2 := Z.lor line2 temp in

  let temp := Z.land line1 MASK32_BYTE2 in
  let line1 := Z.land line1 INVMASK32_BYTE2 in
  let line1 := Z.lor line1 (Z.land line3 MASK32_BYTE2) in
  let line3 := Z.land line3 INVMASK32_BYTE2 in
  let line3 := Z.lor line3 temp in

  let temp := Z.land line0 MASK32_BYTE3 in
  let line0 := Z.land line0 INVMASK32_BYTE3 in
  let line0 := Z.lor line0 (Z.land line1 MASK32_BYTE3) in
  let line1 := Z.land line1 INVMASK32_BYTE3 in
  let line1 := Z.lor line1 (Z.land line2 MASK32_BYTE3) in
  let line2 := Z.land line2 INVMASK32_BYTE3 in
  let line2 := Z.lor line2 (Z.land line3 MASK32_BYTE3) in
  let line3 := Z.land line3 INVMASK32_BYTE3 in
  let line3 := Z.lor line3 temp in

  mkState line0 line1 line2 line3.

(** ** Block cipher *)

(** The loops of [Cipher] and [InvCipher] are [for (;;)] loops left by
    [break]; [round] is a [uint8_t], so 256 iterations visit every value it
    can take and the fuel given by [Cipher] and [InvCipher] is enough
    whenever the loop terminates at all. *)
Fixpoint Cipher_loop (ks : keysize) (fuel round : nat) (state : state_t)
    (rk : list Z) : result state_t :=
  match fuel with
  | O => OutOfFuel
  | S fuel' =>
      let state := SubBytes state in
      let state := ShiftRows state in
      if (round =? Nr ks)%nat then Ok state
      else
        let state := MixColumns state in
        let state := AddRoundKey round state rk in
        Cipher_loop ks fuel' ((round + 1) mod 256)%nat state rk
  end.

Definition Cipher (ks : keysize) (state : state_t) (rk : list Z) : result state_t :=
  let state := AddRoundKey 0 state rk in
  state <- Cipher_loop ks 256 1 state rk ;;
  Ok (AddRoundKey (Nr ks) state rk).

Fixpoint InvCipher_loop (fuel round : nat) (state : state_t)
    (rk : list Z) : result state_t :=
  match fuel with
  | O => OutOfFuel
  | S fuel' =>
      let state := InvShiftRows state in
      let state := InvSubBytes state in
      let state := AddRoundKey round state rk in
      if (round =? 0)%nat then Ok state
      else
        let state := InvMixColumns state in
        InvCipher_loop fuel' ((round + 255) mod 256)%nat state rk
  end.

Definition InvCipher (ks : keysize) (state : state_t) (rk : list Z) : result state_t :=
  let state := AddRoundKey (Nr ks) state rk in
  InvCipher_loop 256 (Nr ks - 1) state rk.

Definition AES_init_ctx (ks : keysize) (ctx : AES_ctx) (key : list Z) : result AES_ctx :=
  rk <- KeyExpansion ks (RoundKey ctx) key ;;
  Ok (mkCtx rk (Iv ctx)).

(** ** Buffers *)

Definition in_bounds (mem : list Z) (p n : nat) : bool :=
  (p + n <=? length mem)%nat.

Definition load (mem : list Z) (p n : nat) : list Z := firstn n (skipn p mem).

Definition store (mem : list Z) (p : nat) (bs : list Z) : list Z :=
  firstn p mem ++ bs ++ skipn (p + length bs) mem.

(** [memcpy(ctx->Iv, iv, AES_BLOCKLEN)] from a caller pointer. *)
Definition AES_ctx_set_iv (ctx : AES_ctx) (iv : list Z) : result AES_ctx :=
  if in_bounds iv 0 AES_BLOCKLEN then Ok (mkCtx (RoundKey ctx) (load iv 0 AES_BLOCKLEN))
  else OutOfBounds.

Definition AES_init_ctx_iv (ks : keysize) (ctx : AES_ctx) (key iv : list Z)
    : result AES_ctx :=
  rk <- KeyExpansion ks (RoundKey ctx) key ;;
  AES_ctx_set_iv (mkCtx rk (Iv ctx)) iv.

(** The cast [(state_t* )buf]: sixteen bytes seen as four words, and back. *)
Definition state_of_bytes (b : list Z) : state_t :=
  mkState (le32 (nth 0 b 0) (nth 1 b 0) (nth 2 b 0) (nth 3 b 0))
          (le32 (nth 4 b 0) (nth 5 b 0) (nth 6 b 0) (nth 7 b 0))
          (le32 (nth 8 b 0) (nth 9 b 0) (nth 10 b 0) (nth 11 b 0))
          (le32 (nth 12 b 0) (nth 13 b 0) (nth 14 b 0) (nth 15 b 0)).

Definition bytes_of_word (w : Z) : list Z :=
  [helper_a w 0; helper_a w 1; helper_a w 2; helper_a w 3].

Definition bytes_of_state (s : state_t) : list Z :=
  bytes_of_word (i0 s) ++ bytes_of_word (i1 s) ++
  bytes_of_word (i2 s) ++ bytes_of_word (i3 s).

(** [Cipher((state_t* )(buf + p), RoundKey)], in place. *)
Definition Cipher_at (ks : keysize) (mem : list Z) (p : nat) (rk : list Z)
    : result (list Z) :=
  if in_bounds mem p AES_BLOCKLEN then
    st <- Cipher ks (state_of_bytes (load mem p AES_BLOCKLEN)) rk ;;
    Ok (store mem p (bytes_of_state st))
  else OutOfBounds.

Definition InvCipher_at (ks : keysize) (mem : list Z) (p : nat) (rk : list Z)
    : result (list Z) :=
  if in_bounds mem p AES_BLOCKLEN then
    st <- InvCipher ks (state_of_bytes (load mem p AES_BLOCKLEN)) rk ;;
    Ok (store mem p (bytes_of_state st))
  else OutOfBounds.

(** ** ECB *)

Definition AES_ECB_encrypt (ks : keysize) (ctx : AES_ctx) (buf : list Z)
    : result (list Z) :=
  Cipher_at ks buf 0 (RoundKey ctx).

Definition AES_ECB_decrypt (ks : keysize) (ctx : AES_ctx) (buf : list Z)
    : result (list Z) :=
  InvCipher_at ks buf 0 (RoundKey ctx).

(** ** CBC *)

(** [XorWithIv] on the sixteen bytes of a block. *)
Definition XorWithIv (buf Iv : list Z) : list Z :=
  for_up 0 AES_BLOCKLEN
    (fun i buf => upd buf i (Z.lxor (nth i buf 0) (nth i Iv 0)))
    buf.

Definition XorWithIv_at (mem : list Z) (p : nat) (Iv : list Z) : result (list Z) :=
  if in_bounds mem p AES_BLOCKLEN then
    Ok (store mem p (XorWithIv (load mem p AES_BLOCKLEN) Iv))
  else OutOfBounds.

(** The local pointer [Iv] of [AES_CBC_encrypt_buffer] aliases either the
    context's [Iv] or the block of the buffer encrypted last. *)
Inductive iv_ptr : Type :=
| IvCtx
| IvBuf (p : nat).

Definition deref_iv (ctx : AES_ctx) (mem : list Z) (Ivp : iv_ptr) : list Z :=
  match Ivp with
  | IvCtx => Iv ctx
  | IvBuf p => load mem p AES_BLOCKLEN
  end.

(** [size_t] counters are [nat]: [i] stays below [length + AES_BLOCKLEN],
    and the loop condition is the one of the source.  The fuel handed over
    by the callers below is [length], which bounds the number of iterations
    of a loop that advances by 16.

    In [AES_CBC_encrypt_buffer] the block [Iv] points at lies before the
    block at [buf] (or in the context), so the sixteen bytes [XorWithIv]
    reads through [Iv] are the ones found there before it writes.  With
    [length = 0] the final [memcpy] copies [ctx->Iv] onto itself. *)
Fixpoint CBC_encrypt_loop (ks : keysize) (fuel : nat) (ctx : AES_ctx)
    (i length : nat) (mem : list Z) (buf : nat) (Ivp : iv_ptr)
    : result (list Z * iv_ptr) :=
  if (i <? length)%nat then
    match fuel with
    | O => OutOfFuel
    | S fuel' =>
        mem <- XorWithIv_at mem buf (deref_iv ctx mem Ivp) ;;
        mem <- Cipher_at ks mem buf (RoundKey ctx) ;;
        let Ivp := IvBuf buf in
        CBC_encrypt_loop ks fuel' ctx (i + AES_BLOCKLEN) length mem
                         (buf + AES_BLOCKLEN) Ivp
    end
  else Ok (mem, Ivp).

Definition AES_CBC_encrypt_buffer (ks : keysize) (ctx : AES_ctx) (buf : list Z)
    (length : nat) : result (AES_ctx * list Z) :=
  '(mem, Ivp) <- CBC_encrypt_loop ks length ctx 0 length buf 0 IvCtx ;;
  Ok (mkCtx (RoundKey ctx) (deref_iv ctx mem Ivp), mem).

Fixpoint CBC_decrypt_loop (ks : keysize) (fuel : nat) (ctx : AES_ctx)
    (i length : nat) (mem : list Z) (buf : nat) : result (AES_ctx * list Z) :=
  if (i <? length)%nat then
    match fuel with
    | O => OutOfFuel
    | S fuel' =>
        if in_bounds mem buf AES_BLOCKLEN then
          let storeNextIv := load mem buf AES_BLOCKLEN in
          mem <- InvCipher_at ks mem buf (RoundKey ctx) ;;
          mem <- XorWithIv_at mem buf (Iv ctx) ;;
          let ctx := mkCtx (RoundKey ctx) storeNextIv in
          CBC_decrypt_loop ks fuel' ctx (i + AES_BLOCKLEN) length mem
                           (buf + AES_BLOCKLEN)
        else OutOfBounds
    end
  else Ok (ctx, mem).

Definition AES_CBC_decrypt_buffer (ks : keysize) (ctx : AES_ctx) (buf : list Z)
    (length : nat) : result (AES_ctx * list Z) :=
  CBC_decrypt_loop ks length ctx 0 length buf 0.

(** ** CTR *)

(** The inner loop [for (bi = AES_BLOCKLEN - 1; bi >= 0; --bi)] that
    increments [ctx->Iv]; the argument [n] is [bi + 1]. *)
Fixpoint CTR_increment (n : nat) (Iv : list Z) : list Z :=
  match n with
  | O => Iv
  | S bi =>
      if nth bi Iv 0 =? 255 then CTR_increment bi (upd Iv bi 0)
      else upd Iv bi (u8 (nth bi Iv 0 + 1))
  end.

(** The loop [for (i = 0, bi = AES_BLOCKLEN; i < length; ++i, ++bi)] with
    [count = length - i] iterations left. *)
Fixpoint CTR_loop (ks : keysize) (count i bi : nat) (ctx : AES_ctx)
    (buffer mem : list Z) : result (AES_ctx * list Z) :=
  match count with
  | O => Ok (ctx, mem)
  | S count' =>
      '(ctx, buffer, bi) <-
        (if (bi =? AES_BLOCKLEN)%nat then
           let buffer := Iv ctx in
           st <- Cipher ks (state_of_bytes buffer) (RoundKey ctx) ;;
           let buffer := bytes_of_state st in
           let ctx := mkCtx (RoundKey ctx) (CTR_increment AES_BLOCKLEN (Iv ctx)) in
           Ok (ctx, buffer, 0%nat)
         else Ok (ctx, buffer, bi)) ;;
      if in_bounds mem i 1 then
        let mem := upd mem i (Z.lxor (nth i mem 0) (nth bi buffer 0)) in
        CTR_loop ks count' (i + 1) (bi + 1) ctx buffer mem
      else OutOfBounds
  end.

(** The local array [buffer] is not initialised; it is written before it is
    read, so the initial content chosen here is never observed. *)
Definition AES_CTR_xcrypt_buffer (ks : keysize) (ctx : AES_ctx) (buf : list Z)
    (length : nat) : result (AES_ctx * list Z) :=
  CTR_loop ks length 0 AES_BLOCKLEN ctx (repeat 0 AES_BLOCKLEN) buf.

(** ** Well-formedness of values *)

Definition byte (b : Z) : Prop := 0 <= b < 256.
Definition word (w : Z) : Prop := 0 <= w < 4294967296.

Definition bytes (l : list Z) : Prop := Forall byte l.
Definition words (l : list Z) : Prop := Forall word l.

Definition wf_state (s : state_t) : Prop :=
  word (i0 s) /\ word (i1 s) /\ word (i2 s) /\ word (i3 s).

Definition all_bytes : list Z := map Z.of_nat (seq 0 256).

(** ** Reference definitions on bytes *)

(** Multiplication by {02} in GF(2^8): shift the byte left by one bit and,
    when the bit shifted out was 1, reduce with 0x1b. *)
Definition gf_xtime (b : Z) : Z :=
  let shifted := u8 (Z.shiftl b 1) in
  if Z.testbit b 7 then Z.lxor shifted 0x1b else shifted.

(** Multiplication in GF(2^8) by the low [n] bits of [a]. *)
Fixpoint gf_mul_bits (n : nat) (a b : Z) : Z :=
  match n with
  | O => 0
  | S n' => Z.lxor (if Z.odd a then b else 0)
                   (gf_mul_bits n' (Z.shiftr a 1) (gf_xtime b))
  end.

Definition gf_mul (a b : Z) : Z := gf_mul_bits 8 a b.

Definition gf_dot (row col : list Z) : Z :=
  fold_right Z.lxor 0 (map (fun p => gf_mul (fst p) (snd p)) (combine row col)).

(** The circulant matrix of MixColumns, first row {02,03,01,01}. *)
Definition mix_matrix : list (list Z) :=
  [[2; 3; 1; 1]; [1; 2; 3; 1]; [1; 1; 2; 3]; [3; 1; 1; 2]].

Definition mix_column_ref (col : list Z) : list Z :=
  map (fun row => gf_dot row col) mix_matrix.

(** The reference MixColumns on the sixteen bytes of a state, column by
    column. *)
Definition MixColumns_ref (b : list Z) : list Z :=
  mix_column_ref (load b 0 4) ++ mix_column_ref (load b 4 4) ++
  mix_column_ref (load b 8 4) ++ mix_column_ref (load b 12 4).

(** The word expressions in the loop bodies of [MixColumns] and
    [InvMixColumns]. *)
Definition mix_word (sp : Z) : Z :=
  Z.lxor (Z.lxor (Z.lxor
    (xtime (Z.lxor sp (Z.lor (Z.shiftr sp 8) (shl32 sp 24))))
    (Z.lor (shl32 sp 8) (Z.shiftr sp 24)))
    (Z.lor (shl32 sp 16) (Z.shiftr sp 16)))
    (Z.lor (shl32 sp 24) (Z.shiftr sp 8)).

Definition inv_mix_word (spVal : Z) : Z :=
  let xtimeX := xtime spVal in
  let xtimeXX := xtime xtimeX in
  let xtimeXXX := xtime xtimeXX in
  let xtime_x9 := Z.lxor xtimeXXX spVal in
  let xtime_xb := Z.lxor (Z.lxor xtimeXXX xtimeX) spVal in
  let xtime_xd := Z.lxor (Z.lxor xtimeXXX xtimeXX) spVal in
  let xtime_xe := Z.lxor (Z.lxor xtimeXXX xtimeXX) xtimeX in
  let xtime_xb_r8 := Z.shiftr xtime_xb 8 in
  let xtime_xd_r16 := Z.shiftr xtime_xd 16 in
  let xtime_x9_l8 := shl32 xtime_x9 8 in
  let xtime_xd_l16 := shl32 xtime_xd 16 in
  Z.lor (Z.lor (Z.lor
    (Z.land (Z.lxor (Z.lxor (Z.lxor xtime_xe xtime_xb_r8) xtime_xd_r16)
                    (Z.shiftr xtime_x9 24)) 0x000000ff)
    (Z.land (Z.lxor (Z.lxor (Z.lxor xtime_x9_l8 xtime_xe) xtime_xb_r8)
                    xtime_xd_r16) 0x0000ff00))
    (Z.land (Z.lxor (Z.lxor (Z.lxor xtime_xd_l16 xtime_x9_l8) xtime_xe)
                    xtime_xb_r8) 0x00ff0000))
    (Z.land (Z.lxor (Z.lxor (Z.lxor (shl32 xtime_xb 24) xtime_xd_l16)
                    xtime_x9_l8) xtime_xe) 0xff000000).

(** ** The round sequences, written out *)

(** One full round: SubBytes, ShiftRows, MixColumns, AddRoundKey(round). *)
Definition full_round (rk : list Z) (state : state_t) (round : nat) : state_t :=
  AddRoundKey round (MixColumns (ShiftRows (SubBytes state))) rk.

(** AddRoundKey(0), the full rounds 1 .. Nr-1, and the final round without
    MixColumns. *)
Definition Cipher_sequence (ks : keysize) (state : state_t) (rk : list Z) : state_t :=
  let state := AddRoundKey 0 state rk in
  let state := fold_left (full_round rk) (seq 1 (Nr ks - 1)) state in
  AddRoundKey (Nr ks) (ShiftRows (SubBytes state)) rk.

(** The iteration of [InvCipher] for a round above 0: InvShiftRows,
    InvSubBytes, AddRoundKey(round), InvMixColumns. *)
Definition inv_full_round (rk : list Z) (state : state_t) (round : nat) : state_t :=
  InvMixColumns (AddRoundKey round (InvSubBytes (InvShiftRows state)) rk).

(** AddRoundKey(Nr), the iterations Nr-1 .. 1, and the last iteration,
    which leaves before InvMixColumns. *)
Definition InvCipher_sequence (ks : keysize) (state : state_t) (rk : list Z) : state_t :=
  let state := AddRoundKey (Nr ks) state rk in
  let state := fold_left (inv_full_round rk) (rev (seq 1 (Nr ks - 1))) state in
  AddRoundKey 0 (InvSubBytes (InvShiftRows state)) rk.

(** ** The modes as functions on blocks and streams *)

(** What one iteration of the CBC loops computes for a block, given the
    chaining value. *)
Definition enc_block (ks : keysize) (rk iv b : list Z) : list Z :=
  bytes_of_state (Cipher_sequence ks (state_of_bytes (XorWithIv b iv)) rk).

Definition dec_block (ks : keysize) (rk iv c : list Z) : list Z :=
  XorWithIv (bytes_of_state (InvCipher_sequence ks (state_of_bytes c) rk)) iv.

Fixpoint cbc_enc_blocks (ks : keysize) (rk iv : list Z) (blocks : list (list Z))
    : list (list Z) :=
  match blocks with
  | [] => []
  | b :: bs => let c := enc_block ks rk iv b in c :: cbc_enc_blocks ks rk c bs
  end.

Fixpoint cbc_dec_blocks (ks : keysize) (rk iv : list Z) (blocks : list (list Z))
    : list (list Z) :=
  match blocks with
  | [] => []
  | c :: cs => dec_block ks rk iv c :: cbc_dec_blocks ks rk c cs
  end.

(** The pointer [Iv] of [AES_CBC_encrypt_buffer] points at [ctx->Iv] or at
    a block that ends at or before offset [n]. *)
Definition iv_before (Ivp : iv_ptr) (n : nat) : Prop :=
  match Ivp with
  | IvCtx => True
  | IvBuf p => (p + AES_BLOCKLEN <= n)%nat
  end.

(** The keystream bytes of [count] iterations of the CTR loop and the
    counter they leave behind. *)
Fixpoint ctr_stream (ks : keysize) (rk : list Z) (count bi : nat)
    (iv buffer : list Z) : list Z * list Z :=
  match count with
  | O => ([], iv)
  | S count' =>
      let '(iv, buffer, bi) :=
        if (bi =? AES_BLOCKLEN)%nat
        then (CTR_increment AES_BLOCKLEN iv,
              bytes_of_state (Cipher_sequence ks (state_of_bytes iv) rk), 0%nat)
        else (iv, buffer, bi) in
      let '(s, iv') := ctr_stream ks rk count' (bi + 1) iv buffer in
      (nth bi buffer 0 :: s, iv')
  end.

Fixpoint xor_stream (mem s : list Z) : list Z :=
  match mem, s with
  | m :: mem', k :: s' => Z.lxor m k :: xor_stream mem' s'
  | _, _ => mem
  end.

(** [n] calls, one per block, each with [length = AES_BLOCKLEN], reusing
    the context; the outputs are concatenated. *)
Fixpoint stream (f : AES_ctx -> list Z -> nat -> result (AES_ctx * list Z))
    (ctx : AES_ctx) (blocks : list (list Z)) : result (AES_ctx * list Z) :=
  match blocks with
  | [] => Ok (ctx, [])
  | b :: bs =>
      '(ctx, out) <- f ctx b AES_BLOCKLEN ;;
      '(ctx, outs) <- stream f ctx bs ;;
      Ok (ctx, out ++ outs)
  end.

(** The value of a byte string read as a big-endian integer. *)
Definition be_value (l : list Z) : Z := fold_left (fun acc b => 256 * acc + b) l 0.

(** The smallest multiple of 16 that is not below [length]. *)
Definition round_up_16 (length : nat) : nat := (16 * ((length + 15) / 16))%nat.

(** ** The key schedule, word by word *)

(** The value of [temp] at the end of an iteration of [KeyExpansion], as a
    function of the iteration and of [RoundKey->i[i - 1]]. *)
Definition KeyExpansion_temp (ks : keysize) (i : nat) (temp : Z) : Z :=
  let temp :=
    if (i mod Nk ks =? 0)%nat then
      let temp := RotWord temp in
      let temp := sub_word getSBoxValue temp in
      helper_set_a temp 0 (Z.lxor (helper_a temp 0) (getRconValue (i / Nk ks)))
    else temp in
  match ks with
  | AES256 => if (i mod Nk ks =? 4)%nat then sub_word getSBoxValue temp else temp
  | _ => temp
  end.

(** The reference transformation [t] of the schedule on the four bytes of
    a word: rotation to the left by one byte, the S-box on each byte, and
    the round constant on the low byte. *)
Definition RotWord_ref (a : list Z) : list Z :=
  [nth 1 a 0; nth 2 a 0; nth 3 a 0; nth 0 a 0].

Definition SubWord_ref (a : list Z) : list Z := map getSBoxValue a.

Definition word_of_bytes (a : list Z) : Z :=
  le32 (nth 0 a 0) (nth 1 a 0) (nth 2 a 0) (nth 3 a 0).

Definition schedule_t (ks : keysize) (i : nat) (prev : Z) : Z :=
  if (i mod Nk ks =? 0)%nat then
    let a := SubWord_ref (RotWord_ref (bytes_of_word prev)) in
    word_of_bytes [Z.lxor (nth 0 a 0) (getRconValue (i / Nk ks));
                   nth 1 a 0; nth 2 a 0; nth 3 a 0]
  else if ((Nk ks =? 8) && (i mod Nk ks =? 4))%nat then
    word_of_bytes (SubWord_ref (bytes_of_word prev))
  else prev.

(** Word [j] of the key, low byte first. *)
Definition key_word (Key : list Z) (j : nat) : Z :=
  le32 (nth (4 * j) Key 0) (nth (4 * j + 1) Key 0)
       (nth (4 * j + 2) Key 0) (nth (4 * j + 3) Key 0).

(** ** Test data *)

(** The ECB-AES128 vector quoted in the header comment of [aes.c]. *)
Definition nist_key128 : list Z :=
  [0x2b; 0x7e; 0x15; 0x16; 0x28; 0xae; 0xd2; 0xa6;
   0xab; 0xf7; 0x15; 0x88; 0x09; 0xcf; 0x4f; 0x3c].

Definition nist_plain : list Z :=
  [0x6b; 0xc1; 0xbe; 0xe2; 0x2e; 0x40; 0x9f; 0x96;
   0xe9; 0x3d; 0x7e; 0x11; 0x73; 0x93; 0x17; 0x2a].

Definition nist_cipher : list Z :=
  [0x3a; 0xd7; 0x7b; 0xb4; 0x0d; 0x7a; 0x36; 0x60;
   0xa8; 0x9e; 0xca; 0xf3; 0x24; 0x66; 0xef; 0x97].

(** A context whose arrays have the sizes of the C type and hold zeros. *)
Definition zero_ctx (ks : keysize) : AES_ctx :=
  mkCtx (repeat 0 (Nb * (Nr ks + 1))) (repeat 0 AES_BLOCKLEN).

Definition nist_schedule : list Z :=
  Eval vm_compute in
    match KeyExpansion AES128 (RoundKey (zero_ctx AES128)) nist_key128 with
    | Ok w => w
    | _ => []
    end.

Definition counter_iv : list Z := map Z.of_nat (seq 0 16).

Definition nist_ctx : AES_ctx := mkCtx nist_schedule counter_iv.

Definition sample_state : state_t := mkState 0x03020100 0x07060504 0x0b0a0908 0x0f0e0d0c.

Definition bytesb (l : list Z) : bool :=
  forallb (fun b => (0 <=? b) && (b <? 256)) l.

(** ** Multiply *)

(** [~x] and [x - y] on [uint32_t]. *)
Definition not32 (x : Z) : Z := u32 (Z.lnot x).
Definition sub32 (x y : Z) : Z := u32 (x - y).

(** [Multiply], as compiled when [_MSC_VER] and [_M_AMD64] are not both
    defined (four terms). *)
Definition Multiply (x y : Z) : Z :=
  let xtimeX := xtime x in
  let xtimeXX := xtime xtimeX in
  let xtimeXXX := xtime xtimeXX in
  Z.lxor (Z.lxor (Z.lxor
    (Z.land (not32 (sub32 (Z.land y 1) 1)) x)
    (Z.land (not32 (sub32 (Z.land (Z.shiftr y 1) 1) 1)) xtimeX))
    (Z.land (not32 (sub32 (Z.land (Z.shiftr y 2) 1) 1)) xtimeXX))
    (Z.land (not32 (sub32 (Z.land (Z.shiftr y 3) 1) 1)) xtimeXXX).

(** The circulant matrix of InvMixColumns, first row {0e,0b,0d,09}. *)
Definition inv_mix_matrix : list (list Z) :=
  [[14; 11; 13; 9]; [9; 14; 11; 13]; [13; 9; 14; 11]; [11; 13; 9; 14]].

Definition inv_mix_column_ref (col : list Z) : list Z :=
  map (fun row => gf_dot row col) inv_mix_matrix.

Definition InvMixColumns_ref (b : list Z) : list Z :=
  inv_mix_column_ref (load b 0 4) ++ inv_mix_column_ref (load b 4 4) ++
  inv_mix_column_ref (load b 8 4) ++ inv_mix_column_ref (load b 12 4).

(** Byte [a[c][r]] of a state: row [r] of column [c]. *)
Definition state_a (s : state_t) (c r : nat) : Z := nth (4 * c + r) (bytes_of_state s) 0.

(** * Bytes and words *)

Lemma byte_forall (P : Z -> bool) :
  forallb P all_bytes = true -> forall b, byte b -> P b = true.
Proof.
  intros H b Hb. rewrite forallb_forall in H. apply H.
  unfold all_bytes. rewrite <- (Z2Nat.id b) by (unfold byte in Hb; lia).
  apply in_map. apply in_seq. unfold byte in Hb. lia.
Qed.

Lemma testbit_split k a r n :
  0 <= k -> 0 <= a < 2 ^ k -> 0 <= n ->
  Z.testbit (a + 2 ^ k * r) n =
  if n <? k then Z.testbit a n else Z.testbit r (n - k).
Proof.
  intros Hk Ha Hn. destruct (Z.ltb_spec n k) as [Hlt | Hge].
  - rewrite <- (Z.mod_pow2_bits_low (a + 2 ^ k * r) k n) by lia.
    replace (a + 2 ^ k * r) with (a + r * 2 ^ k) by lia.
    rewrite Z.mod_add by lia.
    rewrite Z.mod_small by lia. reflexivity.
  - replace n with ((n - k) + k) at 1 by lia.
    rewrite <- Z.div_pow2_bits by lia.
    replace (a + 2 ^ k * r) with (a + r * 2 ^ k) by lia.
    rewrite Z.div_add by lia.
    rewrite Z.div_small by lia. reflexivity.
Qed.

Section Bitwise_split.
Variable op : Z -> Z -> Z.
Variable opb : bool -> bool -> bool.
Hypothesis op_spec : forall a b n, Z.testbit (op a b) n = opb (Z.testbit a n) (Z.testbit b n).
Hypothesis op_range : forall k a b, 0 <= k -> 0 <= a < 2 ^ k -> 0 <= b < 2 ^ k -> 0 <= op a b < 2 ^ k.

Lemma op_split k a r c s :
  0 <= k -> 0 <= a < 2 ^ k -> 0 <= c < 2 ^ k ->
  op (a + 2 ^ k * r) (c + 2 ^ k * s) = op a c + 2 ^ k * op r s.
Proof.
  intros Hk Ha Hc. apply Z.bits_inj'. intros n Hn.
  rewrite op_spec, !testbit_split by auto.
  destruct (n <? k); rewrite op_spec; reflexivity.
Qed.

Lemma op_le32 a0 a1 a2 a3 c0 c1 c2 c3 :
  byte a0 -> byte a1 -> byte a2 -> byte c0 -> byte c1 -> byte c2 ->
  op (le32 a0 a1 a2 a3) (le32 c0 c1 c2 c3) =
  le32 (op a0 c0) (op a1 c1) (op a2 c2) (op a3 c3).
Proof.
  unfold byte, le32. intros.
  replace (a0 + 256 * a1 + 65536 * a2 + 16777216 * a3)
    with (a0 + 2 ^ 8 * (a1 + 2 ^ 8 * (a2 + 2 ^ 8 * a3))) by lia.
  replace (c0 + 256 * c1 + 65536 * c2 + 16777216 * c3)
    with (c0 + 2 ^ 8 * (c1 + 2 ^ 8 * (c2 + 2 ^ 8 * c3))) by lia.
  rewrite !op_split by lia. lia.
Qed.
End Bitwise_split.

Lemma range_land_ones k x : 0 <= k -> (0 <= x < 2 ^ k <-> Z.land x (Z.ones k) = x).
Proof.
  intros Hk. rewrite Z.land_ones by lia. split; intros H.
  - apply Z.mod_small; lia.
  - rewrite <- H. apply Z.mod_pos_bound. lia.
Qed.

Lemma land_range k a b : 0 <= k -> 0 <= a < 2 ^ k -> 0 <= b < 2 ^ k -> 0 <= Z.land a b < 2 ^ k.
Proof.
  intros Hk Ha Hb. apply range_land_ones in Ha, Hb; try lia. apply range_land_ones; try lia.
  rewrite <- Z.land_assoc, Hb. reflexivity.
Qed.

Lemma lor_range k a b : 0 <= k -> 0 <= a < 2 ^ k -> 0 <= b < 2 ^ k -> 0 <= Z.lor a b < 2 ^ k.
Proof.
  intros Hk Ha Hb. apply range_land_ones in Ha, Hb; try lia. apply range_land_ones; try lia.
  rewrite Z.land_lor_distr_l, Ha, Hb. reflexivity.
Qed.

Lemma land_lxor_distr a b m : Z.land (Z.lxor a b) m = Z.lxor (Z.land a m) (Z.land b m).
Proof.
  apply Z.bits_inj'. intros n _.
  rewrite Z.land_spec, !Z.lxor_spec, !Z.land_spec. btauto.
Qed.

Lemma lxor_range k a b : 0 <= k -> 0 <= a < 2 ^ k -> 0 <= b < 2 ^ k -> 0 <= Z.lxor a b < 2 ^ k.
Proof.
  intros Hk Ha Hb. apply range_land_ones in Ha, Hb; try lia. apply range_land_ones; try lia.
  rewrite land_lxor_distr, Ha, Hb. reflexivity.
Qed.

Lemma byte_land a b : byte a -> byte b -> byte (Z.land a b).
Proof. apply (land_range 8); lia. Qed.
Lemma byte_lor a b : byte a -> byte b -> byte (Z.lor a b).
Proof. apply (lor_range 8); lia. Qed.
Lemma byte_lxor a b : byte a -> byte b -> byte (Z.lxor a b).
Proof. apply (lxor_range 8); lia. Qed.
Lemma word_land a b : word a -> word b -> word (Z.land a b).
Proof. apply (land_range 32); lia. Qed.
Lemma word_lor a b : word a -> word b -> word (Z.lor a b).
Proof. apply (lor_range 32); lia. Qed.
Lemma word_lxor a b : word a -> word b -> word (Z.lxor a b).
Proof. apply (lxor_range 32); lia. Qed.
Lemma byte_0 : byte 0.
Proof. unfold byte; lia. Qed.
Lemma byte_255 : byte 255.
Proof. unfold byte; lia. Qed.
Lemma word_u32 x : word (u32 x).
Proof. unfold word, u32. apply Z.mod_pos_bound. lia. Qed.
Lemma word_le32 b0 b1 b2 b3 : byte b0 -> byte b1 -> byte b2 -> byte b3 -> word (le32 b0 b1 b2 b3).
Proof. unfold byte, word, le32. lia. Qed.

Create HintDb aes discriminated.
#[local] Hint Resolve byte_land byte_lor byte_lxor byte_0 byte_255
  word_land word_lor word_lxor word_u32 word_le32 : aes.

Lemma le32_land a0 a1 a2 a3 c0 c1 c2 c3 :
  byte a0 -> byte a1 -> byte a2 -> byte c0 -> byte c1 -> byte c2 ->
  Z.land (le32 a0 a1 a2 a3) (le32 c0 c1 c2 c3) =
  le32 (Z.land a0 c0) (Z.land a1 c1) (Z.land a2 c2) (Z.land a3 c3).
Proof. apply (op_le32 Z.land andb Z.land_spec land_range). Qed.

Lemma le32_lor a0 a1 a2 a3 c0 c1 c2 c3 :
  byte a0 -> byte a1 -> byte a2 -> byte c0 -> byte c1 -> byte c2 ->
  Z.lor (le32 a0 a1 a2 a3) (le32 c0 c1 c2 c3) =
  le32 (Z.lor a0 c0) (Z.lor a1 c1) (Z.lor a2 c2) (Z.lor a3 c3).
Proof. apply (op_le32 Z.lor orb Z.lor_spec lor_range). Qed.

Lemma le32_lxor a0 a1 a2 a3 c0 c1 c2 c3 :
  byte a0 -> byte a1 -> byte a2 -> byte c0 -> byte c1 -> byte c2 ->
  Z.lxor (le32 a0 a1 a2 a3) (le32 c0 c1 c2 c3) =
  le32 (Z.lxor a0 c0) (Z.lxor a1 c1) (Z.lxor a2 c2) (Z.lxor a3 c3).
Proof. apply (op_le32 Z.lxor xorb Z.lxor_spec lxor_range). Qed.

(** Every word is the little-endian value of its four bytes. *)
Lemma byte_helper_a w k : byte (helper_a w k).
Proof.
  unfold helper_a, byte. change 255 with (Z.ones 8). rewrite Z.land_ones by lia.
  apply Z.mod_pos_bound. lia.
Qed.
#[local] Hint Resolve byte_helper_a : aes.

Lemma helper_a_le32 b0 b1 b2 b3 :
  byte b0 -> byte b1 -> byte b2 -> byte b3 ->
  helper_a (le32 b0 b1 b2 b3) 0 = b0 /\ helper_a (le32 b0 b1 b2 b3) 1 = b1 /\
  helper_a (le32 b0 b1 b2 b3) 2 = b2 /\ helper_a (le32 b0 b1 b2 b3) 3 = b3.
Proof.
  unfold byte, helper_a, le32. intros. change 255 with (Z.ones 8).
  rewrite !Z.land_ones, !Z.shiftr_div_pow2 by lia. change (2 ^ (8 * Z.of_nat 0)) with 1. change (2 ^ (8 * Z.of_nat 1)) with 256.
  change (2 ^ (8 * Z.of_nat 2)) with 65536. change (2 ^ (8 * Z.of_nat 3)) with 16777216.
  change (2 ^ 8) with 256.
  repeat split; Z.to_euclidean_division_equations; lia.
Qed.

Lemma word_le32_bytes w :
  word w -> w = le32 (helper_a w 0) (helper_a w 1) (helper_a w 2) (helper_a w 3).
Proof.
  unfold word, helper_a, le32. intros. change 255 with (Z.ones 8).
  rewrite !Z.land_ones, !Z.shiftr_div_pow2 by lia. change (2 ^ (8 * Z.of_nat 0)) with 1. change (2 ^ (8 * Z.of_nat 1)) with 256.
  change (2 ^ (8 * Z.of_nat 2)) with 65536. change (2 ^ (8 * Z.of_nat 3)) with 16777216.
  change (2 ^ 8) with 256.
  Z.to_euclidean_division_equations; lia.
Qed.

Ltac pow2_norm :=
  change (2 ^ 1) with 2 in *; change (2 ^ 7) with 128 in *;
  change (2 ^ 8) with 256 in *; change (2 ^ 16) with 65536 in *;
  change (2 ^ 24) with 16777216 in *.

Ltac euclid := Z.to_euclidean_division_equations; lia.

Lemma shr_le32 b0 b1 b2 b3 :
  byte b0 -> byte b1 -> byte b2 -> byte b3 ->
  Z.shiftr (le32 b0 b1 b2 b3) 8 = le32 b1 b2 b3 0 /\
  Z.shiftr (le32 b0 b1 b2 b3) 16 = le32 b2 b3 0 0 /\
  Z.shiftr (le32 b0 b1 b2 b3) 24 = le32 b3 0 0 0.
Proof.
  unfold byte, le32. intros. rewrite !Z.shiftr_div_pow2 by lia. pow2_norm.
  repeat split; euclid.
Qed.

Lemma shl32_le32 b0 b1 b2 b3 :
  byte b0 -> byte b1 -> byte b2 -> byte b3 ->
  shl32 (le32 b0 b1 b2 b3) 8 = le32 0 b0 b1 b2 /\
  shl32 (le32 b0 b1 b2 b3) 16 = le32 0 0 b0 b1 /\
  shl32 (le32 b0 b1 b2 b3) 24 = le32 0 0 0 b0.
Proof.
  unfold byte, shl32, u32, le32. intros. rewrite !Z.shiftl_mul_pow2 by lia. pow2_norm.
  repeat split; symmetry.
  - apply (Z.mod_unique _ _ b3); lia.
  - apply (Z.mod_unique _ _ (b2 + 256 * b3)); lia.
  - apply (Z.mod_unique _ _ (b1 + 256 * b2 + 65536 * b3)); lia.
Qed.

Lemma shr8_le32 b0 b1 b2 b3 :
  byte b0 -> byte b1 -> byte b2 -> byte b3 ->
  Z.shiftr (le32 b0 b1 b2 b3) 8 = le32 b1 b2 b3 0.
Proof. intros. destruct (shr_le32 b0 b1 b2 b3) as (E & _ & _); auto. Qed.
Lemma shr16_le32 b0 b1 b2 b3 :
  byte b0 -> byte b1 -> byte b2 -> byte b3 ->
  Z.shiftr (le32 b0 b1 b2 b3) 16 = le32 b2 b3 0 0.
Proof. intros. destruct (shr_le32 b0 b1 b2 b3) as (_ & E & _); auto. Qed.
Lemma shr24_le32 b0 b1 b2 b3 :
  byte b0 -> byte b1 -> byte b2 -> byte b3 ->
  Z.shiftr (le32 b0 b1 b2 b3) 24 = le32 b3 0 0 0.
Proof. intros. destruct (shr_le32 b0 b1 b2 b3) as (_ & _ & E); auto. Qed.
Lemma shl8_le32 b0 b1 b2 b3 :
  byte b0 -> byte b1 -> byte b2 -> byte b3 ->
  shl32 (le32 b0 b1 b2 b3) 8 = le32 0 b0 b1 b2.
Proof. intros. destruct (shl32_le32 b0 b1 b2 b3) as (E & _ & _); auto. Qed.
Lemma shl16_le32 b0 b1 b2 b3 :
  byte b0 -> byte b1 -> byte b2 -> byte b3 ->
  shl32 (le32 b0 b1 b2 b3) 16 = le32 0 0 b0 b1.
Proof. intros. destruct (shl32_le32 b0 b1 b2 b3) as (_ & E & _); auto. Qed.
Lemma shl24_le32 b0 b1 b2 b3 :
  byte b0 -> byte b1 -> byte b2 -> byte b3 ->
  shl32 (le32 b0 b1 b2 b3) 24 = le32 0 0 0 b0.
Proof. intros. destruct (shl32_le32 b0 b1 b2 b3) as (_ & _ & E); auto. Qed.

Lemma land_255 b : byte b -> Z.land b 255 = b.
Proof.
  intros H. change 255 with (Z.ones 8). apply range_land_ones; [lia | exact H].
Qed.

Lemma land_255_l b : byte b -> Z.land 255 b = b.
Proof. intros H. rewrite Z.land_comm. apply land_255, H. Qed.

(** Rewriting a word expression over [le32] forms into one [le32] form. *)
Ltac le32_step :=
  match goal with
  | |- context [Z.land (le32 ?a0 ?a1 ?a2 ?a3) (le32 ?c0 ?c1 ?c2 ?c3)] =>
      rewrite (le32_land a0 a1 a2 a3 c0 c1 c2 c3) by auto 14 with aes
  | |- context [Z.lor (le32 ?a0 ?a1 ?a2 ?a3) (le32 ?c0 ?c1 ?c2 ?c3)] =>
      rewrite (le32_lor a0 a1 a2 a3 c0 c1 c2 c3) by auto 14 with aes
  | |- context [Z.lxor (le32 ?a0 ?a1 ?a2 ?a3) (le32 ?c0 ?c1 ?c2 ?c3)] =>
      rewrite (le32_lxor a0 a1 a2 a3 c0 c1 c2 c3) by auto 14 with aes
  | |- context [Z.shiftr (le32 ?a0 ?a1 ?a2 ?a3) 8] =>
      rewrite (shr8_le32 a0 a1 a2 a3) by auto 14 with aes
  | |- context [Z.shiftr (le32 ?a0 ?a1 ?a2 ?a3) 16] =>
      rewrite (shr16_le32 a0 a1 a2 a3) by auto 14 with aes
  | |- context [Z.shiftr (le32 ?a0 ?a1 ?a2 ?a3) 24] =>
      rewrite (shr24_le32 a0 a1 a2 a3) by auto 14 with aes
  | |- context [shl32 (le32 ?a0 ?a1 ?a2 ?a3) 8] =>
      rewrite (shl8_le32 a0 a1 a2 a3) by auto 14 with aes
  | |- context [shl32 (le32 ?a0 ?a1 ?a2 ?a3) 16] =>
      rewrite (shl16_le32 a0 a1 a2 a3) by auto 14 with aes
  | |- context [shl32 (le32 ?a0 ?a1 ?a2 ?a3) 24] =>
      rewrite (shl24_le32 a0 a1 a2 a3) by auto 14 with aes
  end.

Ltac byte_simpl :=
  rewrite ?Z.land_0_l, ?Z.land_0_r, ?Z.lor_0_l, ?Z.lor_0_r,
          ?Z.lxor_0_l, ?Z.lxor_0_r;
  rewrite ?land_255, ?land_255_l by auto 14 with aes.

Ltac le32_norm := repeat (le32_step; byte_simpl).

Ltac masks_norm :=
  change MASK32_BYTE0 with (le32 255 0 0 0);
  change MASK32_BYTE1 with (le32 0 255 0 0);
  change MASK32_BYTE2 with (le32 0 0 255 0);
  change MASK32_BYTE3 with (le32 0 0 0 255);
  change INVMASK32_BYTE0 with (le32 0 255 255 255);
  change INVMASK32_BYTE1 with (le32 255 0 255 255);
  change INVMASK32_BYTE2 with (le32 255 255 0 255);
  change INVMASK32_BYTE3 with (le32 255 255 255 0).

(** ** ShiftRows on bytes *)

Lemma ShiftRows_le32 a0 a1 a2 a3 b0 b1 b2 b3 c0 c1 c2 c3 d0 d1 d2 d3 :
  byte a0 -> byte a1 -> byte a2 -> byte a3 ->
  byte b0 -> byte b1 -> byte b2 -> byte b3 ->
  byte c0 -> byte c1 -> byte c2 -> byte c3 ->
  byte d0 -> byte d1 -> byte d2 -> byte d3 ->
  ShiftRows (mkState (le32 a0 a1 a2 a3) (le32 b0 b1 b2 b3)
                     (le32 c0 c1 c2 c3) (le32 d0 d1 d2 d3)) =
  mkState (le32 a0 b1 c2 d3) (le32 b0 c1 d2 a3)
          (le32 c0 d1 a2 b3) (le32 d0 a1 b2 c3).
Proof.
  intros. unfold ShiftRows. cbn [i0 i1 i2 i3]. cbv zeta. masks_norm.
  le32_norm. reflexivity.
Qed.

Lemma InvShiftRows_le32 a0 a1 a2 a3 b0 b1 b2 b3 c0 c1 c2 c3 d0 d1 d2 d3 :
  byte a0 -> byte a1 -> byte a2 -> byte a3 ->
  byte b0 -> byte b1 -> byte b2 -> byte b3 ->
  byte c0 -> byte c1 -> byte c2 -> byte c3 ->
  byte d0 -> byte d1 -> byte d2 -> byte d3 ->
  InvShiftRows (mkState (le32 a0 a1 a2 a3) (le32 b0 b1 b2 b3)
                        (le32 c0 c1 c2 c3) (le32 d0 d1 d2 d3)) =
  mkState (le32 a0 d1 c2 b3) (le32 b0 a1 d2 c3)
          (le32 c0 b1 a2 d3) (le32 d0 c1 b2 a3).
Proof.
  intros. unfold InvShiftRows. cbn [i0 i1 i2 i3]. cbv zeta. masks_norm.
  le32_norm. reflexivity.
Qed.

(** ** Substitution tables *)

Ltac by_bytes P :=
  let H := fresh in
  assert (H : forallb P all_bytes = true) by (vm_compute; reflexivity);
  let b := fresh "b" in let Hb := fresh "Hb" in
  intros b Hb; generalize (byte_forall P H b Hb); cbv beta.

Lemma byte_getSBoxValue : forall b, byte b -> byte (getSBoxValue b).
Proof.
  by_bytes (fun b => (0 <=? getSBoxValue b) && (getSBoxValue b <? 256)).
  unfold byte. rewrite andb_true_iff. lia.
Qed.

Lemma byte_getSBoxInvert : forall b, byte b -> byte (getSBoxInvert b).
Proof.
  by_bytes (fun b => (0 <=? getSBoxInvert b) && (getSBoxInvert b <? 256)).
  unfold byte. rewrite andb_true_iff. lia.
Qed.
#[local] Hint Resolve byte_getSBoxValue byte_getSBoxInvert : aes.

Lemma rsbox_sbox : forall b, byte b -> getSBoxInvert (getSBoxValue b) = b.
Proof. by_bytes (fun b => getSBoxInvert (getSBoxValue b) =? b). lia. Qed.

Lemma sbox_rsbox : forall b, byte b -> getSBoxValue (getSBoxInvert b) = b.
Proof. by_bytes (fun b => getSBoxValue (getSBoxInvert b) =? b). lia. Qed.

Lemma shl_ofs g :
  Z.shiftl g OFS32_BYTE0 = le32 g 0 0 0 /\ Z.shiftl g OFS32_BYTE1 = le32 0 g 0 0 /\
  Z.shiftl g OFS32_BYTE2 = le32 0 0 g 0 /\ Z.shiftl g OFS32_BYTE3 = le32 0 0 0 g.
Proof.
  unfold OFS32_BYTE0, OFS32_BYTE1, OFS32_BYTE2, OFS32_BYTE3, le32.
  rewrite !Z.shiftl_mul_pow2 by lia. pow2_norm. change (2 ^ 0) with 1. lia.
Qed.

Lemma u32_le32 b0 b1 b2 b3 :
  byte b0 -> byte b1 -> byte b2 -> byte b3 -> u32 (le32 b0 b1 b2 b3) = le32 b0 b1 b2 b3.
Proof. intros. apply Z.mod_small. apply word_le32; assumption. Qed.

Lemma sub_word_le32 (get : Z -> Z) b0 b1 b2 b3 :
  (forall b, byte b -> byte (get b)) ->
  byte b0 -> byte b1 -> byte b2 -> byte b3 ->
  sub_word get (le32 b0 b1 b2 b3) = le32 (get b0) (get b1) (get b2) (get b3).
Proof.
  intros Hget H0 H1 H2 H3. unfold sub_word.
  destruct (helper_a_le32 b0 b1 b2 b3 H0 H1 H2 H3) as (-> & -> & -> & ->).
  destruct (shl_ofs (get b0)) as (-> & _).
  destruct (shl_ofs (get b1)) as (_ & -> & _).
  destruct (shl_ofs (get b2)) as (_ & _ & -> & _).
  destruct (shl_ofs (get b3)) as (_ & _ & _ & ->).
  assert (byte (get b0)) by auto. assert (byte (get b1)) by auto.
  assert (byte (get b2)) by auto. assert (byte (get b3)) by auto.
  le32_norm. apply u32_le32; assumption.
Qed.

Lemma word_sub_word get w : word (sub_word get w).
Proof. unfold sub_word. apply word_u32. Qed.
#[local] Hint Resolve word_sub_word : aes.

(** ** xtime, lane by lane *)

Lemma byte_gf_xtime : forall b, byte b -> byte (gf_xtime b).
Proof.
  by_bytes (fun b => (0 <=? gf_xtime b) && (gf_xtime b <? 256)).
  unfold byte. rewrite andb_true_iff. lia.
Qed.
#[local] Hint Resolve byte_gf_xtime : aes.

Lemma lane_low : forall b, byte b -> 0 <= Z.land b 127 < 128.
Proof.
  by_bytes (fun b => (0 <=? Z.land b 127) && (Z.land b 127 <? 128)).
  rewrite andb_true_iff. lia.
Qed.

Lemma lane_high : forall b, byte b -> Z.land b 128 = 128 * (b / 128).
Proof. by_bytes (fun b => Z.land b 128 =? 128 * (b / 128)). lia. Qed.

Lemma lane_xtime : forall b, byte b ->
  Z.lxor (2 * Z.land b 127) (b / 128 * 27) = gf_xtime b.
Proof. by_bytes (fun b => Z.lxor (2 * Z.land b 127) (b / 128 * 27) =? gf_xtime b). lia. Qed.

Lemma xtime_le32 b0 b1 b2 b3 :
  byte b0 -> byte b1 -> byte b2 -> byte b3 ->
  xtime (le32 b0 b1 b2 b3) =
  le32 (gf_xtime b0) (gf_xtime b1) (gf_xtime b2) (gf_xtime b3).
Proof.
  intros H0 H1 H2 H3. unfold xtime.
  change 0x7f7f7f7f with (le32 127 127 127 127).
  change 0x80808080 with (le32 128 128 128 128).
  assert (byte 127) by (unfold byte; lia). assert (byte 128) by (unfold byte; lia).
  rewrite !le32_land by assumption.
  rewrite !lane_high by assumption.
  pose proof (lane_low b0 H0). pose proof (lane_low b1 H1).
  pose proof (lane_low b2 H2). pose proof (lane_low b3 H3).
  assert (Hq : forall b, byte b -> 0 <= b / 128 <= 1)
    by (unfold byte; intros; euclid).
  pose proof (Hq b0 H0). pose proof (Hq b1 H1). pose proof (Hq b2 H2). pose proof (Hq b3 H3).
  replace (shl32 (le32 (Z.land b0 127) (Z.land b1 127) (Z.land b2 127) (Z.land b3 127)) 1)
    with (le32 (2 * Z.land b0 127) (2 * Z.land b1 127) (2 * Z.land b2 127) (2 * Z.land b3 127)).
  2:{ unfold shl32, u32, le32. rewrite Z.shiftl_mul_pow2 by lia. pow2_norm.
      rewrite Z.mod_small; lia. }
  replace (Z.shiftr (le32 (128 * (b0 / 128)) (128 * (b1 / 128)) (128 * (b2 / 128)) (128 * (b3 / 128))) 7)
    with (le32 (b0 / 128) (b1 / 128) (b2 / 128) (b3 / 128)).
  2:{ rewrite Z.shiftr_div_pow2 by lia. pow2_norm.
      replace (le32 (128 * (b0 / 128)) (128 * (b1 / 128)) (128 * (b2 / 128)) (128 * (b3 / 128)))
        with (le32 (b0 / 128) (b1 / 128) (b2 / 128) (b3 / 128) * 128) by (unfold le32; lia).
      rewrite Z.div_mul; lia. }
  replace (mul32 (le32 (b0 / 128) (b1 / 128) (b2 / 128) (b3 / 128)) 27)
    with (le32 (b0 / 128 * 27) (b1 / 128 * 27) (b2 / 128 * 27) (b3 / 128 * 27)).
  2:{ unfold mul32, u32, le32. rewrite Z.mod_small; lia. }
  rewrite le32_lxor by (unfold byte; lia).
  rewrite !lane_xtime by assumption. reflexivity.
Qed.

Lemma gf_xtime_lxor a b :
  byte a -> byte b -> gf_xtime (Z.lxor a b) = Z.lxor (gf_xtime a) (gf_xtime b).
Proof.
  intros Ha Hb.
  assert (H : forallb (fun a => forallb (fun b =>
                gf_xtime (Z.lxor a b) =? Z.lxor (gf_xtime a) (gf_xtime b)) all_bytes)
              all_bytes = true) by (vm_compute; reflexivity).
  pose proof (byte_forall _ H a Ha) as H1. cbv beta in H1.
  pose proof (byte_forall _ H1 b Hb) as H2. cbv beta in H2. lia.
Qed.

(** ** MixColumns and InvMixColumns on bytes *)

Lemma mix_word_le32 b0 b1 b2 b3 :
  byte b0 -> byte b1 -> byte b2 -> byte b3 ->
  mix_word (le32 b0 b1 b2 b3) =
  le32 (Z.lxor (Z.lxor (Z.lxor (gf_xtime (Z.lxor b0 b1)) b3) b2) b1)
       (Z.lxor (Z.lxor (Z.lxor (gf_xtime (Z.lxor b1 b2)) b0) b3) b2)
       (Z.lxor (Z.lxor (Z.lxor (gf_xtime (Z.lxor b2 b3)) b1) b0) b3)
       (Z.lxor (Z.lxor (Z.lxor (gf_xtime (Z.lxor b3 b0)) b2) b1) b0).
Proof.
  intros. unfold mix_word. le32_norm.
  rewrite xtime_le32 by auto with aes. le32_norm. reflexivity.
Qed.

Lemma inv_mix_word_le32 b0 b1 b2 b3 :
  byte b0 -> byte b1 -> byte b2 -> byte b3 ->
  let T := gf_xtime in
  let x9 b := Z.lxor (T (T (T b))) b in
  let xb b := Z.lxor (Z.lxor (T (T (T b))) (T b)) b in
  let xd b := Z.lxor (Z.lxor (T (T (T b))) (T (T b))) b in
  let xe b := Z.lxor (Z.lxor (T (T (T b))) (T (T b))) (T b) in
  inv_mix_word (le32 b0 b1 b2 b3) =
  le32 (Z.lxor (Z.lxor (Z.lxor (xe b0) (xb b1)) (xd b2)) (x9 b3))
       (Z.lxor (Z.lxor (Z.lxor (x9 b0) (xe b1)) (xb b2)) (xd b3))
       (Z.lxor (Z.lxor (Z.lxor (xd b0) (x9 b1)) (xe b2)) (xb b3))
       (Z.lxor (Z.lxor (Z.lxor (xb b0) (xd b1)) (x9 b2)) (xe b3)).
Proof.
  intros H0 H1 H2 H3 T x9 xb xd xe. unfold inv_mix_word. cbv zeta.
  change 0x000000ff with (le32 255 0 0 0).
  change 0x0000ff00 with (le32 0 255 0 0).
  change 0x00ff0000 with (le32 0 0 255 0).
  change 0xff000000 with (le32 0 0 0 255).
  rewrite !xtime_le32 by auto 10 with aes.
  le32_norm. reflexivity.
Qed.

Ltac xor_bits :=
  apply Z.bits_inj'; intros ? _; rewrite !Z.lxor_spec; btauto.

Lemma inv_mix_word_mix_word b0 b1 b2 b3 :
  byte b0 -> byte b1 -> byte b2 -> byte b3 ->
  inv_mix_word (mix_word (le32 b0 b1 b2 b3)) = le32 b0 b1 b2 b3.
Proof.
  intros. rewrite mix_word_le32 by assumption.
  rewrite inv_mix_word_le32 by auto 10 with aes. cbv zeta.
  repeat rewrite gf_xtime_lxor by auto 12 with aes.
  f_equal; xor_bits.
Qed.

Lemma mix_word_inv_mix_word b0 b1 b2 b3 :
  byte b0 -> byte b1 -> byte b2 -> byte b3 ->
  mix_word (inv_mix_word (le32 b0 b1 b2 b3)) = le32 b0 b1 b2 b3.
Proof.
  intros. pose proof (inv_mix_word_le32 b0 b1 b2 b3) as E. cbv zeta in E.
  rewrite E by assumption. clear E.
  rewrite mix_word_le32 by auto 12 with aes.
  repeat rewrite gf_xtime_lxor by auto 12 with aes.
  f_equal; xor_bits.
Qed.

(** * The round transform on states *)

Lemma wf_state_bytes (P : state_t -> Prop) :
  (forall a0 a1 a2 a3 b0 b1 b2 b3 c0 c1 c2 c3 d0 d1 d2 d3,
     byte a0 -> byte a1 -> byte a2 -> byte a3 ->
     byte b0 -> byte b1 -> byte b2 -> byte b3 ->
     byte c0 -> byte c1 -> byte c2 -> byte c3 ->
     byte d0 -> byte d1 -> byte d2 -> byte d3 ->
     P (mkState (le32 a0 a1 a2 a3) (le32 b0 b1 b2 b3)
                (le32 c0 c1 c2 c3) (le32 d0 d1 d2 d3))) ->
  forall s, wf_state s -> P s.
Proof.
  intros HP [a b c d] (Ha & Hb & Hc & Hd). cbn [i0 i1 i2 i3] in *.
  rewrite (word_le32_bytes a Ha), (word_le32_bytes b Hb),
          (word_le32_bytes c Hc), (word_le32_bytes d Hd).
  apply HP; apply byte_helper_a.
Qed.

Lemma SubBytes_words s :
  SubBytes s = mkState (sub_word getSBoxValue (i0 s)) (sub_word getSBoxValue (i1 s))
                       (sub_word getSBoxValue (i2 s)) (sub_word getSBoxValue (i3 s)).
Proof. destruct s; reflexivity. Qed.

Lemma InvSubBytes_words s :
  InvSubBytes s = mkState (sub_word getSBoxInvert (i0 s)) (sub_word getSBoxInvert (i1 s))
                          (sub_word getSBoxInvert (i2 s)) (sub_word getSBoxInvert (i3 s)).
Proof. destruct s; reflexivity. Qed.

Lemma MixColumns_words s :
  MixColumns s = mkState (mix_word (i0 s)) (mix_word (i1 s))
                         (mix_word (i2 s)) (mix_word (i3 s)).
Proof.
  destruct s.
  cbv [MixColumns mix_word for_up state_i state_set_i i0 i1 i2 i3].
  reflexivity.
Qed.

Lemma InvMixColumns_words s :
  InvMixColumns s = mkState (inv_mix_word (i0 s)) (inv_mix_word (i1 s))
                            (inv_mix_word (i2 s)) (inv_mix_word (i3 s)).
Proof.
  destruct s.
  cbv [InvMixColumns inv_mix_word for_up state_i state_set_i i0 i1 i2 i3].
  reflexivity.
Qed.

Lemma AddRoundKey_words round s rk :
  AddRoundKey round s rk =
  mkState (Z.lxor (i0 s) (RoundKey_i rk (round * Nb + 0)))
          (Z.lxor (i1 s) (RoundKey_i rk (round * Nb + 1)))
          (Z.lxor (i2 s) (RoundKey_i rk (round * Nb + 2)))
          (Z.lxor (i3 s) (RoundKey_i rk (round * Nb + 3))).
Proof. destruct s; reflexivity. Qed.

Lemma lxor_cancel_r a k : Z.lxor (Z.lxor a k) k = a.
Proof. rewrite Z.lxor_assoc, Z.lxor_nilpotent, Z.lxor_0_r. reflexivity. Qed.

Lemma AddRoundKey_involutive round s rk :
  AddRoundKey round (AddRoundKey round s rk) rk = s.
Proof.
  rewrite !AddRoundKey_words. cbn [i0 i1 i2 i3]. rewrite !lxor_cancel_r.
  destruct s; reflexivity.
Qed.

Lemma word_RoundKey_i rk k : words rk -> word (RoundKey_i rk k).
Proof.
  intros H. unfold RoundKey_i, words in *. rewrite Forall_forall in H.
  destruct (Nat.lt_ge_cases k (length rk)).
  - apply H, nth_In; assumption.
  - rewrite nth_overflow by assumption. unfold word; lia.
Qed.

Lemma wf_AddRoundKey round s rk : wf_state s -> words rk -> wf_state (AddRoundKey round s rk).
Proof.
  intros (H0 & H1 & H2 & H3) Hrk. rewrite AddRoundKey_words.
  repeat split; cbn [i0 i1 i2 i3]; apply word_lxor; auto using word_RoundKey_i.
Qed.

Lemma wf_SubBytes s : wf_state (SubBytes s).
Proof. rewrite SubBytes_words. repeat split; apply word_sub_word. Qed.

Lemma wf_InvSubBytes s : wf_state (InvSubBytes s).
Proof. rewrite InvSubBytes_words. repeat split; apply word_sub_word. Qed.

Lemma wf_le32_state a0 a1 a2 a3 b0 b1 b2 b3 c0 c1 c2 c3 d0 d1 d2 d3 :
  byte a0 -> byte a1 -> byte a2 -> byte a3 ->
  byte b0 -> byte b1 -> byte b2 -> byte b3 ->
  byte c0 -> byte c1 -> byte c2 -> byte c3 ->
  byte d0 -> byte d1 -> byte d2 -> byte d3 ->
  wf_state (mkState (le32 a0 a1 a2 a3) (le32 b0 b1 b2 b3)
                    (le32 c0 c1 c2 c3) (le32 d0 d1 d2 d3)).
Proof. intros. repeat split; apply word_le32; assumption. Qed.

Lemma wf_ShiftRows s : wf_state s -> wf_state (ShiftRows s).
Proof.
  revert s. apply wf_state_bytes. intros.
  rewrite ShiftRows_le32 by assumption. apply wf_le32_state; assumption.
Qed.

Lemma wf_InvShiftRows s : wf_state s -> wf_state (InvShiftRows s).
Proof.
  revert s. apply wf_state_bytes. intros.
  rewrite InvShiftRows_le32 by assumption. apply wf_le32_state; assumption.
Qed.

Lemma word_mix_word w : word w -> word (mix_word w).
Proof.
  intros H. rewrite (word_le32_bytes w H).
  rewrite mix_word_le32 by apply byte_helper_a. auto 10 with aes.
Qed.

Lemma word_inv_mix_word w : word w -> word (inv_mix_word w).
Proof.
  intros H. rewrite (word_le32_bytes w H).
  pose proof (inv_mix_word_le32 (helper_a w 0) (helper_a w 1) (helper_a w 2) (helper_a w 3)) as E.
  cbv zeta in E. rewrite E by apply byte_helper_a. auto 12 with aes.
Qed.

Lemma wf_MixColumns s : wf_state s -> wf_state (MixColumns s).
Proof.
  intros (H0 & H1 & H2 & H3). rewrite MixColumns_words.
  repeat split; cbn [i0 i1 i2 i3]; apply word_mix_word; assumption.
Qed.

Lemma wf_InvMixColumns s : wf_state s -> wf_state (InvMixColumns s).
Proof.
  intros (H0 & H1 & H2 & H3). rewrite InvMixColumns_words.
  repeat split; cbn [i0 i1 i2 i3]; apply word_inv_mix_word; assumption.
Qed.

#[local] Hint Resolve wf_AddRoundKey wf_SubBytes wf_InvSubBytes wf_ShiftRows
  wf_InvShiftRows wf_MixColumns wf_InvMixColumns : aes.

Lemma InvSubBytes_SubBytes s : wf_state s -> InvSubBytes (SubBytes s) = s.
Proof.
  revert s. apply wf_state_bytes. intros.
  rewrite SubBytes_words, InvSubBytes_words. cbn [i0 i1 i2 i3].
  rewrite !(sub_word_le32 getSBoxValue) by auto with aes.
  rewrite !(sub_word_le32 getSBoxInvert) by auto with aes.
  rewrite !rsbox_sbox by assumption. reflexivity.
Qed.

Lemma SubBytes_InvSubBytes s : wf_state s -> SubBytes (InvSubBytes s) = s.
Proof.
  revert s. apply wf_state_bytes. intros.
  rewrite InvSubBytes_words, SubBytes_words. cbn [i0 i1 i2 i3].
  rewrite !(sub_word_le32 getSBoxInvert) by auto with aes.
  rewrite !(sub_word_le32 getSBoxValue) by auto with aes.
  rewrite !sbox_rsbox by assumption. reflexivity.
Qed.

Lemma InvShiftRows_ShiftRows s : wf_state s -> InvShiftRows (ShiftRows s) = s.
Proof.
  revert s. apply wf_state_bytes. intros.
  rewrite ShiftRows_le32, InvShiftRows_le32 by assumption. reflexivity.
Qed.

Lemma ShiftRows_InvShiftRows s : wf_state s -> ShiftRows (InvShiftRows s) = s.
Proof.
  revert s. apply wf_state_bytes. intros.
  rewrite InvShiftRows_le32, ShiftRows_le32 by assumption. reflexivity.
Qed.

Lemma InvMixColumns_MixColumns s : wf_state s -> InvMixColumns (MixColumns s) = s.
Proof.
  revert s. apply wf_state_bytes. intros.
  rewrite MixColumns_words, InvMixColumns_words. cbn [i0 i1 i2 i3].
  rewrite !inv_mix_word_mix_word by assumption. reflexivity.
Qed.

Lemma MixColumns_InvMixColumns s : wf_state s -> MixColumns (InvMixColumns s) = s.
Proof.
  revert s. apply wf_state_bytes. intros.
  rewrite InvMixColumns_words, MixColumns_words. cbn [i0 i1 i2 i3].
  rewrite !mix_word_inv_mix_word by assumption. reflexivity.
Qed.

(** * The block cipher *)

Lemma Nr_bounds ks : (1 <= Nr ks < 256)%nat.
Proof. destruct ks; cbn; lia. Qed.

Lemma full_round_eq rk s r :
  full_round rk s r = AddRoundKey r (MixColumns (ShiftRows (SubBytes s))) rk.
Proof. unfold full_round. reflexivity. Qed.

Lemma inv_full_round_eq rk s r :
  inv_full_round rk s r =
  InvMixColumns (AddRoundKey r (InvSubBytes (InvShiftRows s)) rk).
Proof. unfold inv_full_round. reflexivity. Qed.

Lemma fold_left_one {A B : Type} (f : A -> B -> A) (x : B) (a : A) :
  fold_left f [x] a = f a x.
Proof. reflexivity. Qed.

Lemma fold_left_cons {A B : Type} (f : A -> B -> A) (x : B) (l : list B) (a : A) :
  fold_left f (x :: l) a = fold_left f l (f a x).
Proof. reflexivity. Qed.

Lemma Cipher_loop_rounds ks rk n : forall fuel round state,
  (round + n = Nr ks)%nat -> (n < fuel)%nat ->
  Cipher_loop ks fuel round state rk =
  Ok (ShiftRows (SubBytes (fold_left (full_round rk) (seq round n) state))).
Proof.
  pose proof (Nr_bounds ks) as HNr.
  induction n as [| n IH]; intros fuel round state Hr Hf.
  - destruct fuel as [| fuel]; [lia |]. cbn [Cipher_loop seq fold_left].
    replace (round =? Nr ks)%nat with true by (symmetry; apply Nat.eqb_eq; lia).
    reflexivity.
  - destruct fuel as [| fuel]; [lia |]. cbn [Cipher_loop seq fold_left].
    replace (round =? Nr ks)%nat with false by (symmetry; apply Nat.eqb_neq; lia).
    rewrite Nat.mod_small by lia.
    rewrite IH by lia. replace (round + 1)%nat with (S round) by lia.
    rewrite full_round_eq. reflexivity.
Qed.

Lemma Cipher_eq ks state rk : Cipher ks state rk = Ok (Cipher_sequence ks state rk).
Proof.
  pose proof (Nr_bounds ks). unfold Cipher, Cipher_sequence.
  rewrite (Cipher_loop_rounds ks rk (Nr ks - 1)) by lia. reflexivity.
Qed.

(** One iteration of the loop of [InvCipher] above round 0.  The right-hand
    side is wrapped in [id] so that the two sides are compared by unfolding
    the left one, not argument by argument. *)
Lemma InvCipher_loop_S fuel r state rk :
  InvCipher_loop (S fuel) (S r) state rk =
  id (InvCipher_loop fuel ((S r + 255) mod 256)
        (InvMixColumns (AddRoundKey (S r) (InvSubBytes (InvShiftRows state)) rk)) rk).
Proof. cbn [InvCipher_loop Nat.eqb]. reflexivity. Qed.

Lemma InvCipher_loop_rounds rk round : forall fuel state,
  (round < fuel)%nat -> (round < 256)%nat ->
  InvCipher_loop fuel round state rk =
  Ok (AddRoundKey 0 (InvSubBytes (InvShiftRows
        (fold_left (inv_full_round rk) (rev (seq 1 round)) state))) rk).
Proof.
  induction round as [| r IH]; intros fuel state Hf Hr.
  - destruct fuel as [| fuel]; [lia |].
    cbn [InvCipher_loop Nat.eqb seq rev fold_left]. reflexivity.
  - destruct fuel as [| fuel]; [lia |]. rewrite InvCipher_loop_S. unfold id.
    replace ((S r + 255) mod 256)%nat with r.
    2:{ replace (S r + 255)%nat with (r + 1 * 256)%nat by lia.
        rewrite Nat.Div0.mod_add. symmetry. apply Nat.mod_small. lia. }
    rewrite IH by lia. rewrite seq_S, rev_app_distr.
    change (rev [(1 + r)%nat]) with [S r]. rewrite fold_left_app, fold_left_one.
    rewrite inv_full_round_eq. reflexivity.
Qed.

Lemma InvCipher_eq ks state rk : InvCipher ks state rk = Ok (InvCipher_sequence ks state rk).
Proof.
  pose proof (Nr_bounds ks). unfold InvCipher, InvCipher_sequence.
  rewrite InvCipher_loop_rounds by lia. reflexivity.
Qed.

Lemma wf_full_rounds rk l : forall s,
  words rk -> wf_state s -> wf_state (fold_left (full_round rk) l s).
Proof.
  induction l as [| r l IH]; intros s Hrk Hs; [assumption |].
  rewrite fold_left_cons. apply IH; [assumption |].
  rewrite full_round_eq. auto 6 with aes.
Qed.


Lemma Cipher_sequence_eq ks state rk :
  Cipher_sequence ks state rk =
  AddRoundKey (Nr ks)
    (ShiftRows (SubBytes
       (fold_left (full_round rk) (seq 1 (Nr ks - 1)) (AddRoundKey 0 state rk)))) rk.
Proof. unfold Cipher_sequence. reflexivity. Qed.

Lemma InvCipher_sequence_eq ks state rk :
  InvCipher_sequence ks state rk =
  AddRoundKey 0
    (InvSubBytes (InvShiftRows
       (fold_left (inv_full_round rk) (rev (seq 1 (Nr ks - 1)))
                  (AddRoundKey (Nr ks) state rk)))) rk.
Proof. unfold InvCipher_sequence. reflexivity. Qed.

Lemma wf_inv_full_rounds rk l : forall s,
  words rk -> wf_state s -> wf_state (fold_left (inv_full_round rk) l s).
Proof.
  induction l as [| r l IH]; intros s Hrk Hs; [assumption |].
  rewrite fold_left_cons. apply IH; [assumption |].
  rewrite inv_full_round_eq. auto 6 with aes.
Qed.

Lemma wf_Cipher_sequence ks s rk :
  words rk -> wf_state s -> wf_state (Cipher_sequence ks s rk).
Proof.
  intros. rewrite Cipher_sequence_eq. auto 6 using wf_full_rounds with aes.
Qed.

Lemma wf_InvCipher_sequence ks s rk :
  words rk -> wf_state s -> wf_state (InvCipher_sequence ks s rk).
Proof.
  intros. rewrite InvCipher_sequence_eq. auto 6 using wf_inv_full_rounds with aes.
Qed.

(** The final and the first steps undo each other, and so do the rounds in
    between, last round first. *)
Lemma inv_rounds_rounds rk l : forall s,
  words rk -> wf_state s ->
  InvSubBytes (InvShiftRows
    (fold_left (inv_full_round rk) (rev l)
       (ShiftRows (SubBytes (fold_left (full_round rk) l s))))) = s.
Proof.
  induction l as [| r l IH] using rev_ind; intros s Hrk Hs.
  - cbn [rev fold_left].
    rewrite InvShiftRows_ShiftRows by auto with aes.
    apply InvSubBytes_SubBytes; assumption.
  - rewrite rev_app_distr. change (rev [r]) with [r].
    rewrite !fold_left_app, !fold_left_one.
    assert (Hw : wf_state (fold_left (full_round rk) l s)) by (apply wf_full_rounds; assumption).
    rewrite (inv_full_round_eq rk (ShiftRows _)).
    rewrite InvShiftRows_ShiftRows by auto with aes.
    rewrite InvSubBytes_SubBytes by (rewrite full_round_eq; auto 6 with aes).
    rewrite full_round_eq, AddRoundKey_involutive.
    rewrite InvMixColumns_MixColumns by auto with aes.
    apply IH; assumption.
Qed.

Lemma InvCipher_sequence_Cipher_sequence ks s rk :
  words rk -> wf_state s ->
  InvCipher_sequence ks (Cipher_sequence ks s rk) rk = s.
Proof.
  intros Hrk Hs. rewrite InvCipher_sequence_eq, Cipher_sequence_eq.
  rewrite AddRoundKey_involutive.
  rewrite inv_rounds_rounds by auto with aes.
  apply AddRoundKey_involutive.
Qed.

(** * Bytes and states *)

Lemma bytes_of_state_le32 a0 a1 a2 a3 b0 b1 b2 b3 c0 c1 c2 c3 d0 d1 d2 d3 :
  byte a0 -> byte a1 -> byte a2 -> byte a3 ->
  byte b0 -> byte b1 -> byte b2 -> byte b3 ->
  byte c0 -> byte c1 -> byte c2 -> byte c3 ->
  byte d0 -> byte d1 -> byte d2 -> byte d3 ->
  bytes_of_state (mkState (le32 a0 a1 a2 a3) (le32 b0 b1 b2 b3)
                          (le32 c0 c1 c2 c3) (le32 d0 d1 d2 d3)) =
  [a0; a1; a2; a3; b0; b1; b2; b3; c0; c1; c2; c3; d0; d1; d2; d3].
Proof.
  intros. unfold bytes_of_state, bytes_of_word. cbn [i0 i1 i2 i3 app].
  destruct (helper_a_le32 a0 a1 a2 a3) as (-> & -> & -> & ->); try assumption.
  destruct (helper_a_le32 b0 b1 b2 b3) as (-> & -> & -> & ->); try assumption.
  destruct (helper_a_le32 c0 c1 c2 c3) as (-> & -> & -> & ->); try assumption.
  destruct (helper_a_le32 d0 d1 d2 d3) as (-> & -> & -> & ->); try assumption.
  reflexivity.
Qed.

Lemma state_of_bytes_of_state s : wf_state s -> state_of_bytes (bytes_of_state s) = s.
Proof.
  revert s. apply wf_state_bytes. intros.
  rewrite bytes_of_state_le32 by assumption. reflexivity.
Qed.

Lemma length_bytes_of_state s : length (bytes_of_state s) = 16%nat.
Proof. reflexivity. Qed.

Lemma bytes_bytes_of_state s : bytes (bytes_of_state s).
Proof.
  unfold bytes, bytes_of_state, bytes_of_word. cbn [app].
  repeat constructor; apply byte_helper_a.
Qed.

Lemma sixteen (l : list Z) :
  length l = 16%nat ->
  exists a0 a1 a2 a3 b0 b1 b2 b3 c0 c1 c2 c3 d0 d1 d2 d3,
    l = [a0; a1; a2; a3; b0; b1; b2; b3; c0; c1; c2; c3; d0; d1; d2; d3].
Proof.
  intros H.
  do 16 (destruct l as [| ? l]; [discriminate H |]).
  destruct l; [| discriminate H]. repeat eexists.
Qed.

Lemma wf_state_of_bytes b : bytes b -> length b = 16%nat -> wf_state (state_of_bytes b).
Proof.
  intros Hb Hl. destruct (sixteen b Hl) as (a0&a1&a2&a3&b0&b1&b2&b3&c0&c1&c2&c3&d0&d1&d2&d3&->).
  unfold bytes in Hb. repeat (apply Forall_cons_iff in Hb; destruct Hb as [? Hb]).
  unfold state_of_bytes. cbn [nth]. apply wf_le32_state; assumption.
Qed.

Lemma bytes_of_state_of_bytes b :
  bytes b -> length b = 16%nat -> bytes_of_state (state_of_bytes b) = b.
Proof.
  intros Hb Hl. destruct (sixteen b Hl) as (a0&a1&a2&a3&b0&b1&b2&b3&c0&c1&c2&c3&d0&d1&d2&d3&->).
  unfold bytes in Hb. repeat (apply Forall_cons_iff in Hb; destruct Hb as [? Hb]).
  unfold state_of_bytes. cbn [nth]. apply bytes_of_state_le32; assumption.
Qed.

(** * Buffers *)

Lemma in_bounds_app pre b rest n :
  length b = n -> in_bounds (pre ++ b ++ rest) (length pre) n = true.
Proof.
  intros <-. unfold in_bounds. apply Nat.leb_le. rewrite !length_app. lia.
Qed.

Lemma load_app pre b rest n :
  length b = n -> load (pre ++ b ++ rest) (length pre) n = b.
Proof.
  intros <-. unfold load. rewrite skipn_app, skipn_all, Nat.sub_diag. cbn [skipn app].
  rewrite firstn_app, firstn_all, Nat.sub_diag. cbn [firstn]. apply app_nil_r.
Qed.

Lemma store_app pre b rest b' :
  length b' = length b -> store (pre ++ b ++ rest) (length pre) b' = pre ++ b' ++ rest.
Proof.
  intros H. unfold store.
  rewrite firstn_app, firstn_all, Nat.sub_diag. cbn [firstn]. rewrite app_nil_r.
  rewrite skipn_app, skipn_all2 by lia.
  replace (length pre + length b' - length pre)%nat with (length b) by lia.
  rewrite skipn_app, skipn_all, Nat.sub_diag. reflexivity.
Qed.

Lemma load_before pre x p n :
  (p + n <= length pre)%nat -> load (pre ++ x) p n = load pre p n.
Proof.
  intros H. unfold load. rewrite skipn_app.
  replace (p - length pre)%nat with 0%nat by lia. cbn [skipn].
  rewrite firstn_app. rewrite length_skipn.
  replace (n - (length pre - p))%nat with 0%nat by lia. cbn [firstn].
  apply app_nil_r.
Qed.

Lemma length_store mem p bs :
  (p + length bs <= length mem)%nat -> length (store mem p bs) = length mem.
Proof.
  intros H. unfold store. rewrite !length_app, length_firstn, length_skipn. lia.
Qed.

Lemma length_upd l i v : length (upd l i v) = length l.
Proof.
  revert i. induction l as [| h t IH]; intros [| i]; cbn [upd length]; auto.
Qed.

Lemma for_up_length (body : nat -> list Z -> list Z) :
  (forall i l, length (body i l) = length l) ->
  forall count i l, length (for_up i count body l) = length l.
Proof.
  intros Hb. induction count as [| c IH]; intros i l; cbn [for_up]; [reflexivity |].
  rewrite IH. apply Hb.
Qed.

Lemma length_XorWithIv b iv : length (XorWithIv b iv) = length b.
Proof.
  unfold XorWithIv. apply for_up_length. intros. apply length_upd.
Qed.

Lemma XorWithIv_sixteen b iv :
  length b = 16%nat ->
  XorWithIv b iv = map (fun i => Z.lxor (nth i b 0) (nth i iv 0)) (seq 0 16).
Proof.
  intros H. destruct (sixteen b H) as (a0&a1&a2&a3&b0&b1&b2&b3&c0&c1&c2&c3&d0&d1&d2&d3&->).
  reflexivity.
Qed.

Lemma nth_byte l i : bytes l -> byte (nth i l 0).
Proof.
  intros H. unfold bytes in H. rewrite Forall_forall in H.
  destruct (Nat.lt_ge_cases i (length l)).
  - apply H, nth_In; assumption.
  - rewrite nth_overflow by assumption. apply byte_0.
Qed.

Lemma bytes_XorWithIv b iv :
  length b = 16%nat -> bytes b -> bytes iv -> bytes (XorWithIv b iv).
Proof.
  intros Hl Hb Hiv. rewrite XorWithIv_sixteen by assumption.
  unfold bytes. apply Forall_map, Forall_forall. intros i _.
  apply byte_lxor; apply nth_byte; assumption.
Qed.

Lemma XorWithIv_involutive b iv :
  length b = 16%nat -> XorWithIv (XorWithIv b iv) iv = b.
Proof.
  intros H. rewrite (XorWithIv_sixteen (XorWithIv b iv)) by (rewrite length_XorWithIv; exact H).
  rewrite XorWithIv_sixteen by assumption.
  destruct (sixteen b H) as (a0&a1&a2&a3&b0&b1&b2&b3&c0&c1&c2&c3&d0&d1&d2&d3&->).
  cbn [seq map nth]. rewrite !lxor_cancel_r. reflexivity.
Qed.

Lemma XorWithIv_at_app pre b rest iv :
  length b = 16%nat ->
  XorWithIv_at (pre ++ b ++ rest) (length pre) iv = Ok (pre ++ XorWithIv b iv ++ rest).
Proof.
  intros H. unfold XorWithIv_at, AES_BLOCKLEN.
  rewrite in_bounds_app, load_app by assumption.
  rewrite store_app by (rewrite length_XorWithIv; reflexivity). reflexivity.
Qed.

Lemma Cipher_at_app ks pre b rest rk :
  length b = 16%nat ->
  Cipher_at ks (pre ++ b ++ rest) (length pre) rk =
  Ok (pre ++ bytes_of_state (Cipher_sequence ks (state_of_bytes b) rk) ++ rest).
Proof.
  intros H. unfold Cipher_at, AES_BLOCKLEN.
  rewrite in_bounds_app, load_app by assumption.
  rewrite Cipher_eq. cbn [bind].
  rewrite store_app by (rewrite length_bytes_of_state; symmetry; exact H). reflexivity.
Qed.

Lemma InvCipher_at_app ks pre b rest rk :
  length b = 16%nat ->
  InvCipher_at ks (pre ++ b ++ rest) (length pre) rk =
  Ok (pre ++ bytes_of_state (InvCipher_sequence ks (state_of_bytes b) rk) ++ rest).
Proof.
  intros H. unfold InvCipher_at, AES_BLOCKLEN.
  rewrite in_bounds_app, load_app by assumption.
  rewrite InvCipher_eq. cbn [bind].
  rewrite store_app by (rewrite length_bytes_of_state; symmetry; exact H). reflexivity.
Qed.

(** * CBC *)

Lemma deref_iv_before ctx pre x Ivp :
  iv_before Ivp (length pre) -> deref_iv ctx (pre ++ x) Ivp = deref_iv ctx pre Ivp.
Proof.
  destruct Ivp as [| p]; cbn [iv_before deref_iv]; [reflexivity |].
  intros H. apply load_before. exact H.
Qed.

Lemma last_cons {A : Type} (l : list A) : forall x d, last (x :: l) d = last l x.
Proof.
  induction l as [| y l IH]; intros x d; [reflexivity |].
  change (last (x :: y :: l) d) with (last (y :: l) d). rewrite !IH. reflexivity.
Qed.

Lemma CBC_encrypt_loop_done ks fuel ctx i len mem buf Ivp :
  (len <= i)%nat -> CBC_encrypt_loop ks fuel ctx i len mem buf Ivp = Ok (mem, Ivp).
Proof.
  intros H. apply Nat.ltb_ge in H. destruct fuel; cbn [CBC_encrypt_loop]; rewrite H; reflexivity.
Qed.

Lemma CBC_encrypt_loop_step ks fuel ctx i len mem buf Ivp :
  (i < len)%nat ->
  CBC_encrypt_loop ks (S fuel) ctx i len mem buf Ivp =
  (mem <- XorWithIv_at mem buf (deref_iv ctx mem Ivp) ;;
   mem <- Cipher_at ks mem buf (RoundKey ctx) ;;
   CBC_encrypt_loop ks fuel ctx (i + AES_BLOCKLEN) len mem (buf + AES_BLOCKLEN) (IvBuf buf)).
Proof.
  intros H. apply Nat.ltb_lt in H. cbn [CBC_encrypt_loop]. rewrite H. reflexivity.
Qed.

Lemma length_enc_block ks rk iv b : length (enc_block ks rk iv b) = 16%nat.
Proof. unfold enc_block. apply length_bytes_of_state. Qed.

Lemma CBC_encrypt_loop_blocks ks ctx blocks : forall fuel i len pre rest Ivp,
  Forall (fun b => length b = 16%nat) blocks ->
  (len <= i + 16 * length blocks < len + 16)%nat ->
  (length blocks <= fuel)%nat ->
  iv_before Ivp (length pre) ->
  let cs := cbc_enc_blocks ks (RoundKey ctx) (deref_iv ctx pre Ivp) blocks in
  exists Ivp',
    CBC_encrypt_loop ks fuel ctx i len (pre ++ concat blocks ++ rest) (length pre) Ivp =
      Ok (pre ++ concat cs ++ rest, Ivp') /\
    deref_iv ctx (pre ++ concat cs ++ rest) Ivp' = last cs (deref_iv ctx pre Ivp).
Proof.
  induction blocks as [| b bs IH]; intros fuel i len pre rest Ivp Hlen Hi Hfuel Hiv; cbn zeta.
  - cbn [length] in Hi. cbn [cbc_enc_blocks concat last app].
    exists Ivp. split.
    + apply CBC_encrypt_loop_done. lia.
    + apply deref_iv_before. exact Hiv.
  - apply Forall_cons_iff in Hlen. destruct Hlen as [Hb Hbs].
    cbn [length] in Hi, Hfuel. destruct fuel as [| fuel]; [lia |].
    cbn [cbc_enc_blocks concat last].
    set (iv := deref_iv ctx pre Ivp).
    set (c := enc_block ks (RoundKey ctx) iv b).
    rewrite CBC_encrypt_loop_step by lia.
    rewrite <- !app_assoc.
    rewrite (deref_iv_before ctx pre _ Ivp Hiv). fold iv.
    rewrite XorWithIv_at_app by exact Hb. cbn [bind].
    rewrite Cipher_at_app by (rewrite length_XorWithIv; exact Hb). cbn [bind].
    fold (enc_block ks (RoundKey ctx) iv b). fold c.
    assert (Hc : length c = 16%nat) by apply length_enc_block.
    unfold AES_BLOCKLEN.
    replace (length pre + 16)%nat with (length (pre ++ c)) by (rewrite length_app; lia).
    rewrite (app_assoc pre c).
    destruct (IH fuel (i + 16)%nat len (pre ++ c) rest (IvBuf (length pre)))
      as (Ivp' & Hloop & Hderef); try assumption; try lia.
    { cbn [iv_before]. unfold AES_BLOCKLEN. rewrite length_app. lia. }
    assert (Hd : deref_iv ctx (pre ++ c) (IvBuf (length pre)) = c).
    { cbn [deref_iv]. unfold AES_BLOCKLEN.
      rewrite <- (app_nil_r c) at 1. apply load_app. exact Hc. }
    rewrite Hd in Hloop, Hderef.
    exists Ivp'. split.
    + rewrite Hloop. rewrite <- !app_assoc. reflexivity.
    + rewrite <- !app_assoc in *. rewrite Hderef. symmetry. apply last_cons.
Qed.

(** [AES_CBC_encrypt_buffer] on a buffer that starts with the blocks the
    loop visits. *)
Lemma AES_CBC_encrypt_buffer_blocks ks ctx blocks rest len :
  Forall (fun b => length b = 16%nat) blocks ->
  (len <= 16 * length blocks < len + 16)%nat ->
  let cs := cbc_enc_blocks ks (RoundKey ctx) (Iv ctx) blocks in
  AES_CBC_encrypt_buffer ks ctx (concat blocks ++ rest) len =
  Ok (mkCtx (RoundKey ctx) (last cs (Iv ctx)), concat cs ++ rest).
Proof.
  intros Hb Hlen cs. unfold AES_CBC_encrypt_buffer.
  destruct (CBC_encrypt_loop_blocks ks ctx blocks len 0%nat len [] rest IvCtx)
    as (Ivp' & Hloop & Hderef); try assumption; try lia; [exact I |].
  cbn [app length deref_iv] in Hloop, Hderef.
  rewrite Hloop. cbn [bind]. rewrite Hderef. reflexivity.
Qed.

Lemma CBC_decrypt_loop_done ks fuel ctx i len mem buf :
  (len <= i)%nat -> CBC_decrypt_loop ks fuel ctx i len mem buf = Ok (ctx, mem).
Proof.
  intros H. apply Nat.ltb_ge in H. destruct fuel; cbn [CBC_decrypt_loop]; rewrite H; reflexivity.
Qed.

Lemma CBC_decrypt_loop_step ks fuel ctx i len mem buf :
  (i < len)%nat ->
  CBC_decrypt_loop ks (S fuel) ctx i len mem buf =
  if in_bounds mem buf AES_BLOCKLEN then
    (mem' <- InvCipher_at ks mem buf (RoundKey ctx) ;;
     mem' <- XorWithIv_at mem' buf (Iv ctx) ;;
     CBC_decrypt_loop ks fuel (mkCtx (RoundKey ctx) (load mem buf AES_BLOCKLEN))
       (i + AES_BLOCKLEN) len mem' (buf + AES_BLOCKLEN))
  else OutOfBounds.
Proof.
  intros H. apply Nat.ltb_lt in H. cbn [CBC_decrypt_loop]. rewrite H. reflexivity.
Qed.

Lemma length_dec_block ks rk iv c : length (dec_block ks rk iv c) = 16%nat.
Proof. unfold dec_block. rewrite length_XorWithIv. apply length_bytes_of_state. Qed.

Lemma CBC_decrypt_loop_blocks ks blocks : forall fuel ctx i len pre rest,
  Forall (fun b => length b = 16%nat) blocks ->
  (len <= i + 16 * length blocks < len + 16)%nat ->
  (length blocks <= fuel)%nat ->
  CBC_decrypt_loop ks fuel ctx i len (pre ++ concat blocks ++ rest) (length pre) =
  Ok (mkCtx (RoundKey ctx) (last blocks (Iv ctx)),
      pre ++ concat (cbc_dec_blocks ks (RoundKey ctx) (Iv ctx) blocks) ++ rest).
Proof.
  induction blocks as [| b bs IH]; intros fuel ctx i len pre rest Hlen Hi Hfuel.
  - cbn [length] in Hi. cbn [cbc_dec_blocks concat last app].
    rewrite CBC_decrypt_loop_done by lia. destruct ctx; reflexivity.
  - apply Forall_cons_iff in Hlen. destruct Hlen as [Hb Hbs].
    cbn [length] in Hi, Hfuel. destruct fuel as [| fuel]; [lia |].
    cbn [cbc_dec_blocks concat].
    rewrite CBC_decrypt_loop_step by lia.
    rewrite <- !app_assoc. unfold AES_BLOCKLEN.
    rewrite in_bounds_app, load_app by exact Hb.
    rewrite InvCipher_at_app by exact Hb. cbn [bind].
    rewrite XorWithIv_at_app by apply length_bytes_of_state. cbn [bind].
    fold (dec_block ks (RoundKey ctx) (Iv ctx) b).
    set (d := dec_block ks (RoundKey ctx) (Iv ctx) b).
    assert (Hd : length d = 16%nat) by apply length_dec_block.
    replace (length pre + 16)%nat with (length (pre ++ d)) by (rewrite length_app; lia).
    rewrite (app_assoc pre d).
    rewrite IH by (try assumption; lia). cbn [RoundKey Iv].
    rewrite <- app_assoc, last_cons. reflexivity.
Qed.

Lemma AES_CBC_decrypt_buffer_blocks ks ctx blocks rest len :
  Forall (fun b => length b = 16%nat) blocks ->
  (len <= 16 * length blocks < len + 16)%nat ->
  AES_CBC_decrypt_buffer ks ctx (concat blocks ++ rest) len =
  Ok (mkCtx (RoundKey ctx) (last blocks (Iv ctx)),
      concat (cbc_dec_blocks ks (RoundKey ctx) (Iv ctx) blocks) ++ rest).
Proof.
  intros Hb Hlen. unfold AES_CBC_decrypt_buffer.
  apply (CBC_decrypt_loop_blocks ks blocks len ctx 0%nat len [] rest); try assumption; lia.
Qed.

(** * CTR *)

Lemma upd_app pre m t v : upd (pre ++ m :: t) (length pre) v = pre ++ v :: t.
Proof. induction pre as [| h pre IH]; cbn [app length upd]; [| rewrite IH]; reflexivity. Qed.

Lemma nth_app_here pre (m : Z) t : nth (length pre) (pre ++ m :: t) 0 = m.
Proof. induction pre as [| h pre IH]; cbn [app length nth]; auto. Qed.

Lemma xor_stream_nil_r mem : xor_stream mem [] = mem.
Proof. destruct mem; reflexivity. Qed.

Lemma xor_stream_app b : forall s1 m s2,
  length b = length s1 ->
  xor_stream (b ++ m) (s1 ++ s2) = xor_stream b s1 ++ xor_stream m s2.
Proof.
  induction b as [| x b IH]; intros [| k s1] m s2 H; try discriminate H.
  - reflexivity.
  - cbn [app xor_stream]. rewrite IH by (cbn [length] in H; lia). reflexivity.
Qed.

Lemma xor_stream_involutive mem : forall s, xor_stream (xor_stream mem s) s = mem.
Proof.
  induction mem as [| m mem IH]; intros [| k s]; try reflexivity.
  cbn [xor_stream]. rewrite lxor_cancel_r, IH. reflexivity.
Qed.

Lemma length_xor_stream mem : forall s, length (xor_stream mem s) = length mem.
Proof.
  induction mem as [| m mem IH]; intros [| k s]; try reflexivity.
  cbn [xor_stream length]. rewrite IH. reflexivity.
Qed.

(** The part of an iteration of the CTR loop that refills the keystream
    buffer, on the model's state and on the stream. *)
Lemma CTR_loop_S ks count i bi ctx buffer mem :
  CTR_loop ks (S count) i bi ctx buffer mem =
  ('(ctx, buffer, bi) <-
     (if (bi =? AES_BLOCKLEN)%nat then
        st <- Cipher ks (state_of_bytes (Iv ctx)) (RoundKey ctx) ;;
        Ok (mkCtx (RoundKey ctx) (CTR_increment AES_BLOCKLEN (Iv ctx)),
            bytes_of_state st, 0%nat)
      else Ok (ctx, buffer, bi)) ;;
   if in_bounds mem i 1 then
     CTR_loop ks count (i + 1) (bi + 1) ctx buffer
              (upd mem i (Z.lxor (nth i mem 0) (nth bi buffer 0)))
   else OutOfBounds).
Proof. reflexivity. Qed.

Lemma ctr_stream_S ks rk count bi iv buffer :
  ctr_stream ks rk (S count) bi iv buffer =
  if (bi =? AES_BLOCKLEN)%nat then
    let buffer := bytes_of_state (Cipher_sequence ks (state_of_bytes iv) rk) in
    let iv := CTR_increment AES_BLOCKLEN iv in
    (nth 0 buffer 0 :: fst (ctr_stream ks rk count 1 iv buffer),
     snd (ctr_stream ks rk count 1 iv buffer))
  else
    (nth bi buffer 0 :: fst (ctr_stream ks rk count (bi + 1) iv buffer),
     snd (ctr_stream ks rk count (bi + 1) iv buffer)).
Proof.
  cbn [ctr_stream]. destruct (bi =? AES_BLOCKLEN)%nat; cbv zeta; cbn [Nat.add].
  - destruct (ctr_stream ks rk count 1 _ _); reflexivity.
  - destruct (ctr_stream ks rk count (bi + 1) iv buffer); reflexivity.
Qed.

Lemma app_snoc {A : Type} (pre : list A) x t : pre ++ x :: t = (pre ++ [x]) ++ t.
Proof. rewrite <- app_assoc. reflexivity. Qed.

Lemma length_snoc {A : Type} (pre : list A) x : length (pre ++ [x]) = (length pre + 1)%nat.
Proof. rewrite length_app. reflexivity. Qed.

Ltac snoc_step pre t :=
  match goal with
  | |- context [pre ++ ?v :: t] =>
      rewrite (app_snoc pre v t), <- (length_snoc pre v)
  end.

Lemma CTR_loop_stream ks count : forall bi ctx buffer pre mem,
  (count <= length mem)%nat ->
  CTR_loop ks count (length pre) bi ctx buffer (pre ++ mem) =
  Ok (mkCtx (RoundKey ctx) (snd (ctr_stream ks (RoundKey ctx) count bi (Iv ctx) buffer)),
      pre ++ xor_stream mem (fst (ctr_stream ks (RoundKey ctx) count bi (Iv ctx) buffer))).
Proof.
  induction count as [| count IH]; intros bi ctx buffer pre mem Hlen.
  - cbn [CTR_loop ctr_stream fst snd]. rewrite xor_stream_nil_r. destruct ctx; reflexivity.
  - destruct mem as [| m mem]; [cbn [length] in Hlen; lia |]. cbn [length] in Hlen.
    rewrite CTR_loop_S, ctr_stream_S.
    assert (Hin : in_bounds (pre ++ m :: mem) (length pre) 1 = true).
    { unfold in_bounds. apply Nat.leb_le. rewrite length_app. cbn [length]. lia. }
    destruct (bi =? AES_BLOCKLEN)%nat.
    + rewrite Cipher_eq. cbn [bind]. rewrite Hin. cbv zeta. cbn [fst snd].
      rewrite upd_app, nth_app_here.
      snoc_step pre mem.
      rewrite (IH 1%nat) by lia. cbn [RoundKey Iv xor_stream].
      rewrite <- app_assoc. reflexivity.
    + cbn [bind]. rewrite Hin. cbn [fst snd].
      rewrite upd_app, nth_app_here.
      snoc_step pre mem.
      rewrite IH by lia. cbn [xor_stream].
      rewrite <- app_assoc. reflexivity.
Qed.

Lemma AES_CTR_xcrypt_buffer_stream ks ctx buf len :
  (len <= length buf)%nat ->
  AES_CTR_xcrypt_buffer ks ctx buf len =
  Ok (mkCtx (RoundKey ctx)
        (snd (ctr_stream ks (RoundKey ctx) len AES_BLOCKLEN (Iv ctx) (repeat 0 AES_BLOCKLEN))),
      xor_stream buf
        (fst (ctr_stream ks (RoundKey ctx) len AES_BLOCKLEN (Iv ctx) (repeat 0 AES_BLOCKLEN)))).
Proof.
  intros H. unfold AES_CTR_xcrypt_buffer.
  apply (CTR_loop_stream ks len AES_BLOCKLEN ctx _ [] buf H).
Qed.

Lemma skipn_nth_cons (l : list Z) : forall bi,
  (bi < length l)%nat -> skipn bi l = nth bi l 0 :: skipn (S bi) l.
Proof.
  induction l as [| h t IH]; intros bi H; cbn [length] in H; [lia |].
  destruct bi as [| bi]; [reflexivity |].
  cbn [skipn nth]. apply IH. lia.
Qed.

(** While the keystream buffer is not exhausted the loop hands out its
    bytes in order. *)
Lemma ctr_stream_run ks rk k : forall c bi iv buffer,
  (bi + k <= 16)%nat -> length buffer = 16%nat ->
  ctr_stream ks rk (k + c) bi iv buffer =
  (firstn k (skipn bi buffer) ++ fst (ctr_stream ks rk c (bi + k) iv buffer),
   snd (ctr_stream ks rk c (bi + k) iv buffer)).
Proof.
  induction k as [| k IH]; intros c bi iv buffer Hk Hl.
  - cbn [Nat.add firstn app]. rewrite Nat.add_0_r. apply surjective_pairing.
  - cbn [Nat.add]. rewrite ctr_stream_S.
    replace (bi =? AES_BLOCKLEN)%nat with false
      by (symmetry; apply Nat.eqb_neq; unfold AES_BLOCKLEN; lia).
    rewrite IH by lia. cbn [fst snd].
    replace (bi + 1 + k)%nat with (bi + S k)%nat by lia.
    rewrite (skipn_nth_cons buffer bi) by lia. cbn [firstn app].
    replace (bi + 1)%nat with (S bi) by lia. reflexivity.
Qed.

Lemma ctr_stream_refill ks rk c iv buffer :
  ctr_stream ks rk (S c) AES_BLOCKLEN iv buffer =
  ctr_stream ks rk (S c) 0 (CTR_increment AES_BLOCKLEN iv)
    (bytes_of_state (Cipher_sequence ks (state_of_bytes iv) rk)).
Proof.
  rewrite !ctr_stream_S. change (AES_BLOCKLEN =? AES_BLOCKLEN)%nat with true.
  change (0 =? AES_BLOCKLEN)%nat with false. cbv zeta. reflexivity.
Qed.

Lemma ctr_stream_buffer ks rk c iv buffer buffer' :
  ctr_stream ks rk c AES_BLOCKLEN iv buffer = ctr_stream ks rk c AES_BLOCKLEN iv buffer'.
Proof.
  destruct c as [| c]; [reflexivity |]. rewrite !ctr_stream_refill. reflexivity.
Qed.

(** A whole block of keystream is the encrypted counter, and the counter
    is incremented once. *)
Lemma ctr_stream_block ks rk c iv buffer :
  let E := bytes_of_state (Cipher_sequence ks (state_of_bytes iv) rk) in
  let iv' := CTR_increment AES_BLOCKLEN iv in
  ctr_stream ks rk (16 + c) AES_BLOCKLEN iv buffer =
  (E ++ fst (ctr_stream ks rk c AES_BLOCKLEN iv' buffer),
   snd (ctr_stream ks rk c AES_BLOCKLEN iv' buffer)).
Proof.
  intros E iv'. change (16 + c)%nat with (S (15 + c)).
  rewrite ctr_stream_refill. fold E. fold iv'.
  change (S (15 + c)) with (16 + c)%nat.
  rewrite (ctr_stream_run ks rk 16 c 0 iv' E) by (try apply length_bytes_of_state; lia).
  cbn [Nat.add skipn].
  rewrite firstn_all2 by (unfold E; rewrite length_bytes_of_state; lia).
  change (ctr_stream ks rk c 16 iv' E) with (ctr_stream ks rk c AES_BLOCKLEN iv' E).
  rewrite (ctr_stream_buffer ks rk c iv' E buffer). reflexivity.
Qed.

(** ** The counter *)

Lemma be_value_snoc l b : be_value (l ++ [b]) = 256 * be_value l + b.
Proof. unfold be_value. rewrite fold_left_app. reflexivity. Qed.

Lemma be_value_bound l : bytes l -> 0 <= be_value l < 256 ^ Z.of_nat (length l).
Proof.
  induction l as [| b l IH] using rev_ind; intros H.
  - cbn. lia.
  - unfold bytes in H. apply Forall_app in H. destruct H as [Hl Hb].
    apply Forall_cons_iff in Hb. destruct Hb as [Hb _]. unfold byte in Hb.
    specialize (IH Hl). rewrite be_value_snoc, length_app. cbn [length].
    replace (Z.of_nat (length l + 1)) with (Z.of_nat (length l) + 1) by lia.
    rewrite Z.pow_add_r by lia. change (256 ^ 1) with 256. lia.
Qed.

Lemma snoc_cases {A : Type} (l : list A) n :
  length l = S n -> exists l0 x, l = l0 ++ [x] /\ length l0 = n.
Proof.
  intros H. destruct (exists_last (l := l)) as (l0 & x & ->).
  - intros ->. discriminate H.
  - exists l0, x. split; [reflexivity |]. rewrite length_app in H. cbn [length] in H. lia.
Qed.

Lemma CTR_increment_prefix n : forall pre suf,
  length pre = n -> bytes pre ->
  exists pre',
    CTR_increment n (pre ++ suf) = pre' ++ suf /\ length pre' = n /\ bytes pre' /\
    be_value pre' = (be_value pre + 1) mod 256 ^ Z.of_nat n.
Proof.
  induction n as [| n IH]; intros pre suf Hlen Hb.
  - destruct pre; [| discriminate Hlen]. exists []. cbn [CTR_increment app].
    split; [reflexivity |]. split; [reflexivity |]. split; [constructor |]. reflexivity.
  - destruct (snoc_cases pre n Hlen) as (pre0 & b & -> & Hlen0).
    unfold bytes in Hb. apply Forall_app in Hb. destruct Hb as [Hb0 Hb].
    apply Forall_cons_iff in Hb. destruct Hb as [Hb _].
    pose proof (be_value_bound pre0 Hb0) as Hbound. subst n.
    cbn [CTR_increment]. rewrite <- app_assoc. cbn [app].
    rewrite !nth_app_here, !upd_app.
    replace (Z.of_nat (S (length pre0))) with (Z.of_nat (length pre0) + 1) by lia.
    rewrite Z.pow_add_r by lia. change (256 ^ 1) with 256.
    destruct (Z.eqb_spec b 255) as [-> | Hne].
    + destruct (IH pre0 (0 :: suf) eq_refl Hb0) as (pre' & Heq & Hl' & Hb' & Hv).
      rewrite Heq. exists (pre' ++ [0]).
      rewrite <- app_assoc. split; [reflexivity |].
      split; [rewrite length_app; cbn [length]; lia |].
      split; [apply Forall_app; split; [exact Hb' | repeat constructor; apply byte_0] |].
      rewrite !be_value_snoc, Hv.
      replace (256 * be_value pre0 + 255 + 1) with ((be_value pre0 + 1) * 256) by lia.
      rewrite Z.mul_mod_distr_r by lia. lia.
    + unfold byte in Hb. exists (pre0 ++ [u8 (b + 1)]).
      rewrite <- app_assoc. split; [reflexivity |].
      split; [rewrite length_app; cbn [length]; lia |].
      unfold u8. rewrite (Z.mod_small (b + 1)) by lia.
      split; [apply Forall_app; split; [exact Hb0 | repeat constructor; unfold byte; lia] |].
      rewrite !be_value_snoc. rewrite Z.mod_small; lia.
Qed.

Lemma CTR_increment_16 iv :
  length iv = 16%nat -> bytes iv ->
  length (CTR_increment AES_BLOCKLEN iv) = 16%nat /\
  bytes (CTR_increment AES_BLOCKLEN iv) /\
  be_value (CTR_increment AES_BLOCKLEN iv) = (be_value iv + 1) mod 2 ^ 128.
Proof.
  intros Hl Hb. destruct (CTR_increment_prefix 16 iv [] Hl Hb) as (iv' & Heq & Hl' & Hb' & Hv).
  rewrite !app_nil_r in Heq. unfold AES_BLOCKLEN. rewrite Heq.
  repeat split; assumption.
Qed.

(** * Key schedule *)

Lemma ldiff_range k a b : 0 <= k -> 0 <= a < 2 ^ k -> 0 <= b < 2 ^ k -> 0 <= Z.ldiff a b < 2 ^ k.
Proof.
  intros Hk Ha Hb. apply range_land_ones in Ha; try lia. apply range_land_ones; try lia.
  apply Z.bits_inj'. intros n Hn.
  rewrite Z.land_spec, Z.ldiff_spec. rewrite <- Ha at 2.
  rewrite Z.land_spec. btauto.
Qed.

Lemma le32_ldiff a0 a1 a2 a3 c0 c1 c2 c3 :
  byte a0 -> byte a1 -> byte a2 -> byte c0 -> byte c1 -> byte c2 ->
  Z.ldiff (le32 a0 a1 a2 a3) (le32 c0 c1 c2 c3) =
  le32 (Z.ldiff a0 c0) (Z.ldiff a1 c1) (Z.ldiff a2 c2) (Z.ldiff a3 c3).
Proof.
  apply (op_le32 Z.ldiff (fun x y => x && negb y) Z.ldiff_spec ldiff_range).
Qed.

Lemma ldiff_255 : forall b, byte b -> Z.ldiff b 255 = 0.
Proof. by_bytes (fun b => Z.ldiff b 255 =? 0). lia. Qed.

Lemma helper_set_a_le32 a0 a1 a2 a3 v :
  byte a0 -> byte a1 -> byte a2 -> byte a3 -> byte v ->
  helper_set_a (le32 a0 a1 a2 a3) 0 v = le32 v a1 a2 a3 /\
  helper_set_a (le32 a0 a1 a2 a3) 3 v = le32 a0 a1 a2 v.
Proof.
  intros H0 H1 H2 H3 Hv. unfold helper_set_a.
  change (Z.shiftl 255 (8 * Z.of_nat 0)) with (le32 255 0 0 0).
  change (Z.shiftl 255 (8 * Z.of_nat 3)) with (le32 0 0 0 255).
  change (8 * Z.of_nat 0) with OFS32_BYTE0. change (8 * Z.of_nat 3) with OFS32_BYTE3.
  destruct (shl_ofs v) as (-> & _ & _ & ->).
  rewrite !le32_ldiff by auto with aes.
  rewrite !ldiff_255, !Z.ldiff_0_r by assumption.
  rewrite !le32_lor by auto with aes.
  rewrite !Z.lor_0_l, !Z.lor_0_r. split; reflexivity.
Qed.

Lemma RotWord_le32 b0 b1 b2 b3 :
  byte b0 -> byte b1 -> byte b2 -> byte b3 ->
  RotWord (le32 b0 b1 b2 b3) = le32 b1 b2 b3 b0.
Proof.
  intros H0 H1 H2 H3. unfold RotWord. cbv zeta.
  destruct (helper_a_le32 b0 b1 b2 b3 H0 H1 H2 H3) as (-> & _).
  rewrite shr8_le32 by assumption.
  destruct (helper_set_a_le32 b1 b2 b3 0 b0) as (_ & ->); auto with aes.
Qed.

Lemma byte_getRconValue k : byte (getRconValue k).
Proof.
  unfold getRconValue. apply nth_byte. unfold bytes, Rcon.
  repeat constructor; unfold byte; lia.
Qed.
#[local] Hint Resolve byte_getRconValue : aes.

Lemma KeyExpansion_temp_schedule_t ks i prev :
  word prev -> KeyExpansion_temp ks i prev = schedule_t ks i prev.
Proof.
  intros Hw. rewrite (word_le32_bytes prev Hw).
  set (b0 := helper_a prev 0). set (b1 := helper_a prev 1).
  set (b2 := helper_a prev 2). set (b3 := helper_a prev 3).
  assert (H0 : byte b0) by apply byte_helper_a. assert (H1 : byte b1) by apply byte_helper_a.
  assert (H2 : byte b2) by apply byte_helper_a. assert (H3 : byte b3) by apply byte_helper_a.
  clearbody b0 b1 b2 b3.
  assert (Hrot : helper_set_a (sub_word getSBoxValue (RotWord (le32 b0 b1 b2 b3))) 0
                   (Z.lxor (helper_a (sub_word getSBoxValue (RotWord (le32 b0 b1 b2 b3))) 0)
                           (getRconValue (i / Nk ks))) =
                 le32 (Z.lxor (getSBoxValue b1) (getRconValue (i / Nk ks)))
                      (getSBoxValue b2) (getSBoxValue b3) (getSBoxValue b0)).
  { rewrite RotWord_le32 by assumption.
    rewrite sub_word_le32 by auto with aes.
    destruct (helper_a_le32 (getSBoxValue b1) (getSBoxValue b2) (getSBoxValue b3) (getSBoxValue b0))
      as (-> & _); auto with aes.
    destruct (helper_set_a_le32 (getSBoxValue b1) (getSBoxValue b2) (getSBoxValue b3) (getSBoxValue b0)
                (Z.lxor (getSBoxValue b1) (getRconValue (i / Nk ks)))) as (-> & _); auto with aes. }
  assert (Hbytes : bytes_of_word (le32 b0 b1 b2 b3) = [b0; b1; b2; b3]).
  { unfold bytes_of_word.
    destruct (helper_a_le32 b0 b1 b2 b3 H0 H1 H2 H3) as (-> & -> & -> & ->). reflexivity. }
  unfold KeyExpansion_temp, schedule_t. cbv zeta. rewrite Hbytes.
  cbn [RotWord_ref SubWord_ref map nth word_of_bytes].
  destruct (i mod Nk ks =? 0)%nat eqn:E0.
  - rewrite Hrot.
    assert (E4 : (i mod Nk ks =? 4)%nat = false).
    { apply Nat.eqb_eq in E0. apply Nat.eqb_neq. lia. }
    rewrite E4. destruct ks; reflexivity.
  - destruct ks; cbn [Nk Nat.eqb andb]; try reflexivity.
    destruct (i mod 8 =? 4)%nat; [| reflexivity].
    unfold word_of_bytes. cbn [nth]. apply sub_word_le32; auto with aes.
Qed.

Lemma word_schedule_t ks i prev : word prev -> word (schedule_t ks i prev).
Proof.
  intros H. unfold schedule_t, word_of_bytes, SubWord_ref, RotWord_ref, bytes_of_word.
  cbn [map nth].
  destruct (i mod Nk ks =? 0)%nat; [auto 8 with aes |].
  destruct ((Nk ks =? 8)%nat && (i mod Nk ks =? 4)%nat); auto 8 with aes.
Qed.

Lemma nth_upd_eq l : forall i v d, (i < length l)%nat -> nth i (upd l i v) d = v.
Proof.
  induction l as [| h t IH]; intros [| i] v d H; cbn [length] in H; try lia.
  - reflexivity.
  - cbn [upd nth]. apply IH. lia.
Qed.

Lemma nth_upd_neq l : forall i j v d, i <> j -> nth j (upd l i v) d = nth j l d.
Proof.
  induction l as [| h t IH]; intros [| i] [| j] v d H; cbn [upd nth]; try reflexivity; try lia.
  apply IH. lia.
Qed.

Lemma for_up_S_r {S : Type} (body : nat -> S -> S) n : forall i s,
  for_up i (Datatypes.S n) body s = body (i + n)%nat (for_up i n body s).
Proof.
  induction n as [| n IH]; intros i s.
  - cbn [for_up]. rewrite Nat.add_0_r. reflexivity.
  - change (for_up i (Datatypes.S (Datatypes.S n)) body s)
      with (for_up (Datatypes.S i) (Datatypes.S n) body (body i s)).
    rewrite IH. cbn [for_up]. replace (Datatypes.S i + n)%nat with (i + Datatypes.S n)%nat by lia.
    reflexivity.
Qed.

Lemma KeyExpansion_body_eq ks i rk :
  KeyExpansion_body ks i rk =
  upd rk i (Z.lxor (RoundKey_i rk (i - Nk ks))
                   (KeyExpansion_temp ks i (RoundKey_i rk (i - 1)))).
Proof. unfold KeyExpansion_body, KeyExpansion_temp. destruct ks; reflexivity. Qed.

Lemma memcpy_key_spec ks Key : forall rk,
  (Nk ks <= length rk)%nat ->
  length (memcpy_key ks rk Key) = length rk /\
  forall j, (j < Nk ks)%nat -> nth j (memcpy_key ks rk Key) 0 = key_word Key j.
Proof.
  intros rk. unfold memcpy_key. fold (key_word Key).
  generalize (Nk ks). intros n. induction n as [| n IH]; intros Hn.
  - split; [reflexivity | intros j Hj; lia].
  - rewrite for_up_S_r. cbn [Nat.add]. destruct IH as [IHl IHn]; [lia |].
    split; [rewrite length_upd; exact IHl |].
    intros j Hj. destruct (Nat.eq_dec n j) as [-> | Hne].
    + rewrite nth_upd_eq by lia. reflexivity.
    + rewrite nth_upd_neq by exact Hne. apply IHn. lia.
Qed.

Lemma Nk_bounds ks : (4 <= Nk ks <= Nb * (Nr ks + 1))%nat.
Proof. destruct ks; cbn; lia. Qed.

Lemma word_key_word Key j : bytes Key -> word (key_word Key j).
Proof. intros H. unfold key_word. apply word_le32; apply nth_byte; exact H. Qed.

(** The state of the schedule after [n] iterations of the loop of
    [KeyExpansion]. *)
Lemma KeyExpansion_loop_inv ks Key rk0 : forall n,
  bytes Key -> (Nk ks + n <= length rk0)%nat ->
  let rk := for_up (Nk ks) n (KeyExpansion_body ks) (memcpy_key ks rk0 Key) in
  length rk = length rk0 /\
  (forall j, (j < Nk ks)%nat -> nth j rk 0 = key_word Key j) /\
  (forall j, (Nk ks <= j < Nk ks + n)%nat ->
     nth j rk 0 = Z.lxor (nth (j - Nk ks) rk 0) (schedule_t ks j (nth (j - 1) rk 0))) /\
  (forall j, (j < Nk ks + n)%nat -> word (nth j rk 0)).
Proof.
  pose proof (Nk_bounds ks) as HNk.
  intros n HKey. induction n as [| n IH]; intros Hn; cbv zeta.
  - cbn [for_up]. destruct (memcpy_key_spec ks Key rk0) as [Hl Hk]; [lia |].
    split; [exact Hl |]. split; [exact Hk |]. split; [intros j Hj; lia |].
    intros j Hj. rewrite Hk by lia. apply word_key_word, HKey.
  - rewrite for_up_S_r. destruct IH as (Hl & Hk & Hrec & Hw); [lia |].
    set (rk := for_up (Nk ks) n (KeyExpansion_body ks) (memcpy_key ks rk0 Key)) in *.
    rewrite KeyExpansion_body_eq. unfold RoundKey_i.
    replace (Nk ks + n - Nk ks)%nat with n by lia.
    set (v := Z.lxor (nth n rk 0) (KeyExpansion_temp ks (Nk ks + n) (nth (Nk ks + n - 1) rk 0))).
    assert (Hv : v = Z.lxor (nth n rk 0) (schedule_t ks (Nk ks + n) (nth (Nk ks + n - 1) rk 0))).
    { unfold v. rewrite KeyExpansion_temp_schedule_t by (apply Hw; lia). reflexivity. }
    split; [rewrite length_upd; exact Hl |].
    split; [intros j Hj; rewrite nth_upd_neq by lia; apply Hk; exact Hj |].
    split.
    + intros j Hj. destruct (Nat.eq_dec j (Nk ks + n)) as [-> | Hne].
      * rewrite nth_upd_eq by lia. rewrite !nth_upd_neq by lia.
        replace (Nk ks + n - Nk ks)%nat with n by lia. exact Hv.
      * rewrite !nth_upd_neq by lia. apply Hrec. lia.
    + intros j Hj. destruct (Nat.eq_dec j (Nk ks + n)) as [-> | Hne].
      * rewrite nth_upd_eq by lia. rewrite Hv.
        apply word_lxor; [apply Hw; lia | apply word_schedule_t, Hw; lia].
      * rewrite nth_upd_neq by lia. apply Hw. lia.
Qed.

Lemma Forall_nth_lt (P : Z -> Prop) l :
  (forall j, (j < length l)%nat -> P (nth j l 0)) -> Forall P l.
Proof.
  intros H. apply Forall_forall. intros x Hx.
  destruct (In_nth l x 0 Hx) as (j & Hj & <-). apply H, Hj.
Qed.

Lemma KeyExpansion_spec ks rk0 Key :
  length rk0 = (Nb * (Nr ks + 1))%nat ->
  length Key = (4 * Nk ks)%nat -> bytes Key ->
  exists w,
    KeyExpansion ks rk0 Key = Ok w /\
    length w = (Nb * (Nr ks + 1))%nat /\
    words w /\
    (forall j, (j < Nk ks)%nat -> nth j w 0 = key_word Key j) /\
    (forall i, (Nk ks <= i < Nb * (Nr ks + 1))%nat ->
       nth i w 0 = Z.lxor (nth (i - Nk ks) w 0) (schedule_t ks i (nth (i - 1) w 0))).
Proof.
  intros Hrk HKl HKb. pose proof (Nk_bounds ks) as HNk.
  unfold KeyExpansion.
  replace (4 * Nk ks <=? length Key)%nat with true by (symmetry; apply Nat.leb_le; lia).
  destruct (KeyExpansion_loop_inv ks Key rk0 (Nb * (Nr ks + 1) - Nk ks) HKb)
    as (Hl & Hk & Hrec & Hw); [lia |].
  eexists. split; [reflexivity |].
  replace (Nk ks + (Nb * (Nr ks + 1) - Nk ks))%nat with (Nb * (Nr ks + 1))%nat in * by lia.
  split; [rewrite Hl; exact Hrk |].
  split; [apply Forall_nth_lt; intros j Hj; apply Hw; rewrite Hl, Hrk in Hj; exact Hj |].
  split; assumption.
Qed.

(** The schedule does not depend on what the array held before. *)
Lemma KeyExpansion_fresh ks rk0 rk0' Key :
  length rk0 = (Nb * (Nr ks + 1))%nat -> length rk0' = (Nb * (Nr ks + 1))%nat ->
  length Key = (4 * Nk ks)%nat -> bytes Key ->
  KeyExpansion ks rk0 Key = KeyExpansion ks rk0' Key.
Proof.
  intros H0 H0' HKl HKb. pose proof (Nk_bounds ks) as HNk.
  destruct (KeyExpansion_spec ks rk0 Key H0 HKl HKb) as (w & -> & Hl & _ & Hk & Hrec).
  destruct (KeyExpansion_spec ks rk0' Key H0' HKl HKb) as (w' & -> & Hl' & _ & Hk' & Hrec').
  f_equal. apply (nth_ext w w' 0 0); [congruence |].
  intros n. induction n as [n IH] using lt_wf_ind. intros Hn.
  destruct (Nat.lt_ge_cases n (Nk ks)) as [Hlt | Hge].
  - rewrite Hk, Hk' by exact Hlt. reflexivity.
  - rewrite Hrec, Hrec' by lia. rewrite !IH by lia. reflexivity.
Qed.

(** ** Buffers as sequences of blocks *)

Lemma blocks_of (n : nat) : forall buf : list Z,
  length buf = (16 * n)%nat ->
  exists blocks, buf = concat blocks /\ length blocks = n /\
                 Forall (fun b => length b = 16%nat) blocks.
Proof.
  induction n as [| n IH]; intros buf H.
  - exists []. destruct buf; [| discriminate H]. repeat split. constructor.
  - destruct (IH (skipn 16 buf)) as (bs & Hbs & Hn & Hall).
    { rewrite length_skipn. lia. }
    exists (firstn 16 buf :: bs). cbn [concat length]. rewrite <- Hbs, firstn_skipn.
    split; [reflexivity |]. split; [lia |].
    constructor; [| exact Hall]. rewrite length_firstn. lia.
Qed.

Lemma bytes_concat blocks : bytes (concat blocks) <-> Forall bytes blocks.
Proof.
  unfold bytes. induction blocks as [| b bs IH]; cbn [concat].
  - split; constructor.
  - rewrite Forall_app, Forall_cons_iff, IH. reflexivity.
Qed.

Lemma length_concat_16 (blocks : list (list Z)) :
  Forall (fun b => length b = 16%nat) blocks ->
  length (concat blocks) = (16 * length blocks)%nat.
Proof.
  induction 1 as [| b bs Hb _ IH]; [reflexivity |].
  cbn [concat length]. rewrite length_app, IH, Hb. lia.
Qed.

Lemma length_cbc_enc_blocks ks rk blocks : forall iv,
  length (cbc_enc_blocks ks rk iv blocks) = length blocks /\
  Forall (fun b => length b = 16%nat) (cbc_enc_blocks ks rk iv blocks).
Proof.
  induction blocks as [| b bs IH]; intros iv; cbn [cbc_enc_blocks length].
  - split; [reflexivity | constructor].
  - destruct (IH (enc_block ks rk iv b)) as [Hl Ha]. split; [lia |].
    constructor; [apply length_enc_block | exact Ha].
Qed.

Lemma length_cbc_dec_blocks ks rk blocks : forall iv,
  length (cbc_dec_blocks ks rk iv blocks) = length blocks /\
  Forall (fun b => length b = 16%nat) (cbc_dec_blocks ks rk iv blocks).
Proof.
  induction blocks as [| b bs IH]; intros iv; cbn [cbc_dec_blocks length].
  - split; [reflexivity | constructor].
  - destruct (IH b) as [Hl Ha]. split; [lia |].
    constructor; [apply length_dec_block | exact Ha].
Qed.

Lemma bytes_enc_block ks rk iv b : bytes (enc_block ks rk iv b).
Proof. unfold enc_block. apply bytes_bytes_of_state. Qed.

Lemma dec_block_enc_block ks rk iv b :
  words rk -> bytes iv -> bytes b -> length b = 16%nat ->
  dec_block ks rk iv (enc_block ks rk iv b) = b.
Proof.
  intros Hrk Hiv Hb Hl. unfold dec_block, enc_block.
  assert (Hx : bytes (XorWithIv b iv)) by (apply bytes_XorWithIv; assumption).
  assert (Hxl : length (XorWithIv b iv) = 16%nat) by (rewrite length_XorWithIv; exact Hl).
  assert (Hwf : wf_state (state_of_bytes (XorWithIv b iv))) by (apply wf_state_of_bytes; assumption).
  rewrite state_of_bytes_of_state by (apply wf_Cipher_sequence; assumption).
  rewrite InvCipher_sequence_Cipher_sequence by assumption.
  rewrite bytes_of_state_of_bytes by assumption.
  apply XorWithIv_involutive. exact Hl.
Qed.

Lemma cbc_dec_enc_blocks ks rk blocks : forall iv,
  words rk -> bytes iv -> Forall bytes blocks ->
  Forall (fun b => length b = 16%nat) blocks ->
  cbc_dec_blocks ks rk iv (cbc_enc_blocks ks rk iv blocks) = blocks.
Proof.
  induction blocks as [| b bs IH]; intros iv Hrk Hiv Hb Hl; [reflexivity |].
  apply Forall_cons_iff in Hb, Hl. destruct Hb as [Hb Hbs]. destruct Hl as [Hl Hls].
  cbn [cbc_enc_blocks cbc_dec_blocks].
  rewrite dec_block_enc_block by assumption.
  rewrite IH by (try assumption; apply bytes_enc_block). reflexivity.
Qed.

(** ** Multiplication by the entries of the MixColumns matrix *)

Lemma gf_mul_1 b : gf_mul 1 b = b.
Proof.
  unfold gf_mul. cbn [gf_mul_bits].
  change (Z.odd 1) with true. change (Z.shiftr 1 1) with 0.
  change (Z.shiftr 0 1) with 0. change (Z.odd 0) with false.
  rewrite !Z.lxor_0_r. reflexivity.
Qed.

Lemma gf_mul_2 b : gf_mul 2 b = gf_xtime b.
Proof.
  unfold gf_mul. cbn [gf_mul_bits].
  change (Z.odd 2) with false. change (Z.shiftr 2 1) with 1.
  change (Z.odd 1) with true. change (Z.shiftr 1 1) with 0.
  change (Z.shiftr 0 1) with 0. change (Z.odd 0) with false.
  rewrite !Z.lxor_0_r, Z.lxor_0_l. reflexivity.
Qed.

Lemma gf_mul_3 b : gf_mul 3 b = Z.lxor b (gf_xtime b).
Proof.
  unfold gf_mul. cbn [gf_mul_bits].
  change (Z.odd 3) with true. change (Z.shiftr 3 1) with 1.
  change (Z.odd 1) with true. change (Z.shiftr 1 1) with 0.
  change (Z.shiftr 0 1) with 0. change (Z.odd 0) with false.
  rewrite !Z.lxor_0_r. reflexivity.
Qed.

Lemma mix_column_ref_bytes b0 b1 b2 b3 :
  byte b0 -> byte b1 -> byte b2 -> byte b3 ->
  mix_column_ref [b0; b1; b2; b3] =
  [Z.lxor (Z.lxor (Z.lxor (gf_xtime (Z.lxor b0 b1)) b3) b2) b1;
   Z.lxor (Z.lxor (Z.lxor (gf_xtime (Z.lxor b1 b2)) b0) b3) b2;
   Z.lxor (Z.lxor (Z.lxor (gf_xtime (Z.lxor b2 b3)) b1) b0) b3;
   Z.lxor (Z.lxor (Z.lxor (gf_xtime (Z.lxor b3 b0)) b2) b1) b0].
Proof.
  intros. unfold mix_column_ref, mix_matrix, gf_dot.
  cbn [map combine fold_right fst snd].
  rewrite !gf_mul_1, !gf_mul_2, !gf_mul_3, !Z.lxor_0_r.
  rewrite !gf_xtime_lxor by assumption.
  f_equal; [xor_bits |]. f_equal; [xor_bits |]. f_equal; [xor_bits |].
  f_equal. xor_bits.
Qed.

Lemma MixColumns_MixColumns_ref s :
  wf_state s -> MixColumns s = state_of_bytes (MixColumns_ref (bytes_of_state s)).
Proof.
  revert s. apply wf_state_bytes. intros.
  rewrite bytes_of_state_le32 by assumption.
  unfold MixColumns_ref, load. cbn [skipn firstn].
  rewrite !mix_column_ref_bytes by assumption.
  rewrite MixColumns_words. cbn [i0 i1 i2 i3].
  rewrite !mix_word_le32 by assumption. reflexivity.
Qed.

Lemma xtime_lanes w :
  word w -> xtime w = word_of_bytes (map gf_xtime (bytes_of_word w)).
Proof.
  intros H. rewrite (word_le32_bytes w H) at 1.
  rewrite xtime_le32 by apply byte_helper_a. reflexivity.
Qed.

(** * Lengths that are not a multiple of the block length *)

Lemma round_up_16_bounds len :
  (len <= 16 * ((len + 15) / 16) < len + 16)%nat.
Proof.
  pose proof (Nat.div_mod_eq (len + 15) 16) as H.
  pose proof (Nat.mod_upper_bound (len + 15) 16) as H'. lia.
Qed.

(** The CBC loops only look at [length] to decide whether to go on: two
    lengths that give the same number of iterations give the same run. *)
Lemma CBC_encrypt_loop_iterations ks ctx n : forall fuel1 fuel2 i len1 len2 mem p Ivp,
  (len1 <= i + 16 * n < len1 + 16)%nat -> (len2 <= i + 16 * n < len2 + 16)%nat ->
  (n <= fuel1)%nat -> (n <= fuel2)%nat ->
  CBC_encrypt_loop ks fuel1 ctx i len1 mem p Ivp =
  CBC_encrypt_loop ks fuel2 ctx i len2 mem p Ivp.
Proof.
  induction n as [| n IH]; intros fuel1 fuel2 i len1 len2 mem p Ivp H1 H2 Hf1 Hf2.
  - rewrite !CBC_encrypt_loop_done by lia. reflexivity.
  - destruct fuel1 as [| fuel1]; [lia |]. destruct fuel2 as [| fuel2]; [lia |].
    rewrite !CBC_encrypt_loop_step by lia.
    destruct (XorWithIv_at mem p (deref_iv ctx mem Ivp)) as [mem1 | |]; cbn [bind]; try reflexivity.
    destruct (Cipher_at ks mem1 p (RoundKey ctx)) as [mem2 | |]; cbn [bind]; try reflexivity.
    apply IH; unfold AES_BLOCKLEN; lia.
Qed.

Lemma CBC_decrypt_loop_iterations ks n : forall fuel1 fuel2 ctx i len1 len2 mem p,
  (len1 <= i + 16 * n < len1 + 16)%nat -> (len2 <= i + 16 * n < len2 + 16)%nat ->
  (n <= fuel1)%nat -> (n <= fuel2)%nat ->
  CBC_decrypt_loop ks fuel1 ctx i len1 mem p = CBC_decrypt_loop ks fuel2 ctx i len2 mem p.
Proof.
  induction n as [| n IH]; intros fuel1 fuel2 ctx i len1 len2 mem p H1 H2 Hf1 Hf2.
  - rewrite !CBC_decrypt_loop_done by lia. reflexivity.
  - destruct fuel1 as [| fuel1]; [lia |]. destruct fuel2 as [| fuel2]; [lia |].
    rewrite !CBC_decrypt_loop_step by lia.
    destruct (in_bounds mem p AES_BLOCKLEN); [| reflexivity].
    destruct (InvCipher_at ks mem p (RoundKey ctx)) as [mem1 | |]; cbn [bind]; try reflexivity.
    destruct (XorWithIv_at mem1 p (Iv ctx)) as [mem2 | |]; cbn [bind]; try reflexivity.
    apply IH; unfold AES_BLOCKLEN; lia.
Qed.

Lemma AES_CBC_encrypt_buffer_round_up ks ctx buf len :
  AES_CBC_encrypt_buffer ks ctx buf len =
  AES_CBC_encrypt_buffer ks ctx buf (round_up_16 len).
Proof.
  pose proof (round_up_16_bounds len) as H. unfold AES_CBC_encrypt_buffer, round_up_16.
  rewrite (CBC_encrypt_loop_iterations ks ctx ((len + 15) / 16) len
             (16 * ((len + 15) / 16)) 0 len (16 * ((len + 15) / 16))) by lia.
  reflexivity.
Qed.

Lemma AES_CBC_decrypt_buffer_round_up ks ctx buf len :
  AES_CBC_decrypt_buffer ks ctx buf len =
  AES_CBC_decrypt_buffer ks ctx buf (round_up_16 len).
Proof.
  pose proof (round_up_16_bounds len) as H. unfold AES_CBC_decrypt_buffer, round_up_16.
  apply (CBC_decrypt_loop_iterations ks ((len + 15) / 16)); lia.
Qed.

Lemma in_bounds_true mem p n : in_bounds mem p n = true -> (p + n <= length mem)%nat.
Proof. unfold in_bounds. apply Nat.leb_le. Qed.

Lemma XorWithIv_at_cases mem p iv :
  (exists mem', XorWithIv_at mem p iv = Ok mem' /\ length mem' = length mem /\
                (p + 16 <= length mem)%nat) \/
  (XorWithIv_at mem p iv = OutOfBounds /\ (length mem < p + 16)%nat).
Proof.
  unfold XorWithIv_at, AES_BLOCKLEN. destruct (in_bounds mem p 16) eqn:E.
  - left. apply in_bounds_true in E. eexists. split; [reflexivity |].
    split; [| exact E]. apply length_store. rewrite length_XorWithIv.
    unfold load. rewrite length_firstn, length_skipn. lia.
  - right. split; [reflexivity |]. unfold in_bounds in E. apply Nat.leb_gt in E. exact E.
Qed.

Lemma Cipher_at_cases ks mem p rk :
  (exists mem', Cipher_at ks mem p rk = Ok mem' /\ length mem' = length mem /\
                (p + 16 <= length mem)%nat) \/
  (Cipher_at ks mem p rk = OutOfBounds /\ (length mem < p + 16)%nat).
Proof.
  unfold Cipher_at, AES_BLOCKLEN. destruct (in_bounds mem p 16) eqn:E.
  - left. apply in_bounds_true in E. rewrite Cipher_eq. cbn [bind].
    eexists. split; [reflexivity |]. split; [| exact E].
    apply length_store. rewrite length_bytes_of_state. exact E.
  - right. split; [reflexivity |]. unfold in_bounds in E. apply Nat.leb_gt in E. exact E.
Qed.

Lemma InvCipher_at_cases ks mem p rk :
  (exists mem', InvCipher_at ks mem p rk = Ok mem' /\ length mem' = length mem /\
                (p + 16 <= length mem)%nat) \/
  (InvCipher_at ks mem p rk = OutOfBounds /\ (length mem < p + 16)%nat).
Proof.
  unfold InvCipher_at, AES_BLOCKLEN. destruct (in_bounds mem p 16) eqn:E.
  - left. apply in_bounds_true in E. rewrite InvCipher_eq. cbn [bind].
    eexists. split; [reflexivity |]. split; [| exact E].
    apply length_store. rewrite length_bytes_of_state. exact E.
  - right. split; [reflexivity |]. unfold in_bounds in E. apply Nat.leb_gt in E. exact E.
Qed.

(** A run of [n] iterations over a buffer that ends before the last block
    visited leaves the buffer. *)
Lemma CBC_encrypt_loop_overrun ks ctx n : forall fuel i len mem p Ivp,
  (len <= i + 16 * n < len + 16)%nat -> (n <= fuel)%nat ->
  (p <= length mem < p + 16 * n)%nat ->
  CBC_encrypt_loop ks fuel ctx i len mem p Ivp = OutOfBounds.
Proof.
  induction n as [| n IH]; intros fuel i len mem p Ivp Hi Hf Hm; [lia |].
  destruct fuel as [| fuel]; [lia |]. rewrite CBC_encrypt_loop_step by lia.
  destruct (XorWithIv_at_cases mem p (deref_iv ctx mem Ivp))
    as [(mem1 & -> & Hl1 & Hb1) | (-> & _)]; [| reflexivity].
  cbn [bind].
  destruct (Cipher_at_cases ks mem1 p (RoundKey ctx))
    as [(mem2 & -> & Hl2 & Hb2) | (-> & _)]; [| reflexivity].
  cbn [bind]. apply IH; unfold AES_BLOCKLEN; lia.
Qed.

Lemma CBC_decrypt_loop_overrun ks n : forall fuel ctx i len mem p,
  (len <= i + 16 * n < len + 16)%nat -> (n <= fuel)%nat ->
  (p <= length mem < p + 16 * n)%nat ->
  CBC_decrypt_loop ks fuel ctx i len mem p = OutOfBounds.
Proof.
  induction n as [| n IH]; intros fuel ctx i len mem p Hi Hf Hm; [lia |].
  destruct fuel as [| fuel]; [lia |]. rewrite CBC_decrypt_loop_step by lia.
  destruct (in_bounds mem p AES_BLOCKLEN) eqn:E; [| reflexivity].
  apply in_bounds_true in E. unfold AES_BLOCKLEN in E.
  destruct (InvCipher_at_cases ks mem p (RoundKey ctx))
    as [(mem1 & -> & Hl1 & Hb1) | (-> & _)]; [| reflexivity].
  cbn [bind].
  destruct (XorWithIv_at_cases mem1 p (Iv ctx))
    as [(mem2 & -> & Hl2 & Hb2) | (-> & _)]; [| reflexivity].
  cbn [bind]. apply IH; unfold AES_BLOCKLEN; lia.
Qed.

Lemma misaligned_overrun len :
  (len mod 16 <> 0)%nat -> (len < 16 * ((len + 15) / 16))%nat.
Proof.
  intros H. pose proof (round_up_16_bounds len) as Hb.
  destruct (Nat.eq_dec len (16 * ((len + 15) / 16))) as [E | E]; [| lia].
  exfalso. apply H. rewrite E. rewrite Nat.mul_comm. apply Nat.Div0.mod_mul.
Qed.

(** * One call and block-by-block calls *)

Lemma stream_one_call (f : AES_ctx -> list Z -> nat -> result (AES_ctx * list Z)) :
  (forall ctx, f ctx [] 0%nat = Ok (ctx, [])) ->
  (forall ctx b bs,
     length b = 16%nat -> Forall (fun b => length b = 16%nat) bs ->
     f ctx (b ++ concat bs) (16 * S (length bs))%nat =
     ('(ctx1, out) <- f ctx b AES_BLOCKLEN ;;
      '(ctx2, outs) <- f ctx1 (concat bs) (16 * length bs)%nat ;;
      Ok (ctx2, out ++ outs))) ->
  forall blocks ctx,
    Forall (fun b => length b = 16%nat) blocks ->
    f ctx (concat blocks) (16 * length blocks)%nat = stream f ctx blocks.
Proof.
  intros Hnil Hcons. induction blocks as [| b bs IH]; intros ctx Hall.
  - cbn [concat length stream]. apply Hnil.
  - apply Forall_cons_iff in Hall. destruct Hall as [Hb Hbs].
    cbn [concat length stream]. rewrite Hcons by assumption.
    destruct (f ctx b AES_BLOCKLEN) as [[ctx1 out] | |]; cbn [bind]; try reflexivity.
    rewrite IH by assumption. reflexivity.
Qed.

Lemma AES_CBC_encrypt_buffer_concat ks ctx blocks :
  Forall (fun b => length b = 16%nat) blocks ->
  AES_CBC_encrypt_buffer ks ctx (concat blocks) (16 * length blocks) =
  Ok (mkCtx (RoundKey ctx) (last (cbc_enc_blocks ks (RoundKey ctx) (Iv ctx) blocks) (Iv ctx)),
      concat (cbc_enc_blocks ks (RoundKey ctx) (Iv ctx) blocks)).
Proof.
  intros H. pose proof (AES_CBC_encrypt_buffer_blocks ks ctx blocks [] (16 * length blocks) H) as E.
  cbv zeta in E. rewrite !app_nil_r in E. apply E. lia.
Qed.

Lemma AES_CBC_decrypt_buffer_concat ks ctx blocks :
  Forall (fun b => length b = 16%nat) blocks ->
  AES_CBC_decrypt_buffer ks ctx (concat blocks) (16 * length blocks) =
  Ok (mkCtx (RoundKey ctx) (last blocks (Iv ctx)),
      concat (cbc_dec_blocks ks (RoundKey ctx) (Iv ctx) blocks)).
Proof.
  intros H. pose proof (AES_CBC_decrypt_buffer_blocks ks ctx blocks [] (16 * length blocks) H) as E.
  rewrite !app_nil_r in E. apply E. lia.
Qed.

Lemma concat_one {A : Type} (b : list A) : concat [b] = b.
Proof. cbn [concat]. apply app_nil_r. Qed.

Lemma AES_CBC_encrypt_buffer_stream ks ctx blocks :
  Forall (fun b => length b = 16%nat) blocks ->
  AES_CBC_encrypt_buffer ks ctx (concat blocks) (16 * length blocks) =
  stream (AES_CBC_encrypt_buffer ks) ctx blocks.
Proof.
  revert blocks ctx. apply stream_one_call.
  - intros ctx. destruct ctx; reflexivity.
  - intros ctx b bs Hb Hbs.
    pose proof (AES_CBC_encrypt_buffer_concat ks ctx (b :: bs)) as E.
    cbn [concat length cbc_enc_blocks] in E. rewrite E by (constructor; assumption).
    pose proof (AES_CBC_encrypt_buffer_concat ks ctx [b]) as E1.
    cbn [length cbc_enc_blocks last] in E1. rewrite !concat_one in E1.
    change (16 * 1)%nat with AES_BLOCKLEN in E1.
    rewrite E1 by (repeat constructor; assumption). cbn [bind].
    rewrite AES_CBC_encrypt_buffer_concat by assumption. cbn [bind RoundKey Iv].
    rewrite last_cons. reflexivity.
Qed.

Lemma AES_CBC_decrypt_buffer_stream ks ctx blocks :
  Forall (fun b => length b = 16%nat) blocks ->
  AES_CBC_decrypt_buffer ks ctx (concat blocks) (16 * length blocks) =
  stream (AES_CBC_decrypt_buffer ks) ctx blocks.
Proof.
  revert blocks ctx. apply stream_one_call.
  - intros ctx. reflexivity.
  - intros ctx b bs Hb Hbs.
    pose proof (AES_CBC_decrypt_buffer_concat ks ctx (b :: bs)) as E.
    cbn [concat length cbc_dec_blocks] in E. rewrite E by (constructor; assumption).
    pose proof (AES_CBC_decrypt_buffer_concat ks ctx [b]) as E1.
    cbn [length cbc_dec_blocks last] in E1. rewrite !concat_one in E1.
    change (16 * 1)%nat with AES_BLOCKLEN in E1.
    rewrite E1 by (repeat constructor; assumption). cbn [bind].
    rewrite AES_CBC_decrypt_buffer_concat by assumption. cbn [bind RoundKey Iv].
    rewrite last_cons. reflexivity.
Qed.

Lemma AES_CTR_xcrypt_buffer_block ks ctx b rest c :
  length b = 16%nat -> (c <= length rest)%nat ->
  AES_CTR_xcrypt_buffer ks ctx (b ++ rest) (16 + c) =
  ('(ctx1, out) <- AES_CTR_xcrypt_buffer ks ctx b AES_BLOCKLEN ;;
   '(ctx2, outs) <- AES_CTR_xcrypt_buffer ks ctx1 rest c ;;
   Ok (ctx2, out ++ outs)).
Proof.
  intros Hb Hc.
  rewrite AES_CTR_xcrypt_buffer_stream by (rewrite length_app; lia).
  pose proof (ctr_stream_block ks (RoundKey ctx) c (Iv ctx) (repeat 0 AES_BLOCKLEN)) as E.
  cbv zeta in E. rewrite E. cbn [fst snd].
  rewrite (AES_CTR_xcrypt_buffer_stream ks ctx b AES_BLOCKLEN) by (unfold AES_BLOCKLEN; lia).
  pose proof (ctr_stream_block ks (RoundKey ctx) 0 (Iv ctx) (repeat 0 AES_BLOCKLEN)) as E0.
  cbv zeta in E0. change (16 + 0)%nat with AES_BLOCKLEN in E0. rewrite E0.
  cbn [ctr_stream fst snd bind]. rewrite app_nil_r.
  rewrite AES_CTR_xcrypt_buffer_stream by exact Hc. cbn [bind RoundKey Iv].
  rewrite xor_stream_app by (rewrite length_bytes_of_state; exact Hb).
  reflexivity.
Qed.

Lemma AES_CTR_xcrypt_buffer_blocks_stream ks ctx blocks :
  Forall (fun b => length b = 16%nat) blocks ->
  AES_CTR_xcrypt_buffer ks ctx (concat blocks) (16 * length blocks) =
  stream (AES_CTR_xcrypt_buffer ks) ctx blocks.
Proof.
  revert blocks ctx. apply stream_one_call.
  - intros ctx. reflexivity.
  - intros ctx b bs Hb Hbs.
    replace (16 * S (length bs))%nat with (16 + 16 * length bs)%nat by lia.
    apply AES_CTR_xcrypt_buffer_block; [exact Hb |].
    rewrite length_concat_16 by exact Hbs. lia.
Qed.

(** * The specification, claim by claim *)

Lemma bytesb_bytes l : bytesb l = true -> bytes l.
Proof.
  unfold bytesb, bytes. rewrite forallb_forall, Forall_forall.
  intros H x Hx. specialize (H x Hx). unfold byte. lia.
Qed.

Lemma Cipher_at_whole ks b rk :
  length b = 16%nat ->
  Cipher_at ks b 0 rk = Ok (bytes_of_state (Cipher_sequence ks (state_of_bytes b) rk)).
Proof.
  intros H. pose proof (Cipher_at_app ks [] b [] rk H) as E.
  cbn [app length] in E. rewrite !app_nil_r in E. exact E.
Qed.

Lemma InvCipher_at_whole ks b rk :
  length b = 16%nat ->
  InvCipher_at ks b 0 rk = Ok (bytes_of_state (InvCipher_sequence ks (state_of_bytes b) rk)).
Proof.
  intros H. pose proof (InvCipher_at_app ks [] b [] rk H) as E.
  cbn [app length] in E. rewrite !app_nil_r in E. exact E.
Qed.

Lemma AES_ECB_roundtrip ks ctx block :
  words (RoundKey ctx) -> length block = 16%nat -> bytes block ->
  exists c, AES_ECB_encrypt ks ctx block = Ok c /\ AES_ECB_decrypt ks ctx c = Ok block.
Proof.
  intros Hrk Hl Hb. unfold AES_ECB_encrypt, AES_ECB_decrypt.
  rewrite Cipher_at_whole by exact Hl. eexists. split; [reflexivity |].
  rewrite InvCipher_at_whole by apply length_bytes_of_state.
  assert (Hwf : wf_state (state_of_bytes block)) by (apply wf_state_of_bytes; assumption).
  rewrite state_of_bytes_of_state by (apply wf_Cipher_sequence; assumption).
  rewrite InvCipher_sequence_Cipher_sequence by assumption.
  rewrite bytes_of_state_of_bytes by assumption. reflexivity.
Qed.

Lemma AES_CBC_roundtrip ks ctx buf :
  words (RoundKey ctx) -> bytes (Iv ctx) ->
  (length buf mod 16 = 0)%nat -> bytes buf ->
  exists ctx1 c ctx2,
    AES_CBC_encrypt_buffer ks ctx buf (length buf) = Ok (ctx1, c) /\
    AES_CBC_decrypt_buffer ks ctx c (length c) = Ok (ctx2, buf).
Proof.
  intros Hrk Hiv Hmod Hb.
  destruct (blocks_of (length buf / 16) buf) as (blocks & -> & Hn & Hall).
  { pose proof (Nat.div_mod_eq (length buf) 16). lia. }
  apply bytes_concat in Hb.
  rewrite (length_concat_16 blocks Hall).
  rewrite AES_CBC_encrypt_buffer_concat by exact Hall.
  destruct (length_cbc_enc_blocks ks (RoundKey ctx) blocks (Iv ctx)) as [Hl' Hall'].
  do 3 eexists. split; [reflexivity |].
  rewrite (length_concat_16 _ Hall').
  rewrite AES_CBC_decrypt_buffer_concat by exact Hall'.
  rewrite cbc_dec_enc_blocks by assumption. reflexivity.
Qed.

Lemma AES_CTR_roundtrip ks ctx buf :
  exists ctx1 c ctx2,
    AES_CTR_xcrypt_buffer ks ctx buf (length buf) = Ok (ctx1, c) /\
    AES_CTR_xcrypt_buffer ks ctx c (length c) = Ok (ctx2, buf).
Proof.
  rewrite AES_CTR_xcrypt_buffer_stream by lia.
  do 3 eexists. split; [reflexivity |].
  rewrite length_xor_stream.
  rewrite AES_CTR_xcrypt_buffer_stream by (rewrite length_xor_stream; lia).
  rewrite xor_stream_involutive. reflexivity.
Qed.

Lemma AES_init_ctx_iv_ok ks ctx0 key iv :
  length (RoundKey ctx0) = (Nb * (Nr ks + 1))%nat ->
  length key = (4 * Nk ks)%nat -> bytes key -> length iv = 16%nat ->
  exists rk,
    KeyExpansion ks (RoundKey ctx0) key = Ok rk /\ words rk /\
    length rk = (Nb * (Nr ks + 1))%nat /\
    AES_init_ctx ks ctx0 key = Ok (mkCtx rk (Iv ctx0)) /\
    AES_init_ctx_iv ks ctx0 key iv = Ok (mkCtx rk iv).
Proof.
  intros H0 Hkl Hkb Hil.
  destruct (KeyExpansion_spec ks (RoundKey ctx0) key H0 Hkl Hkb) as (rk & E & Hl & Hw & _).
  exists rk. unfold AES_init_ctx, AES_init_ctx_iv, AES_ctx_set_iv. rewrite E. cbn [bind RoundKey].
  repeat split; try assumption.
  unfold in_bounds, load, AES_BLOCKLEN. rewrite Hil. cbn [Nat.add Nat.leb skipn].
  rewrite firstn_all2 by lia. reflexivity.
Qed.

(** C1: encrypting the block 6bc1bee22e409f96e93d7e117393172a in ECB mode
    under the 128-bit key 2b7e151628aed2a6abf7158809cf4f3c gives exactly
    3ad77bb40d7a3660a89ecaf32466ef97, whatever the context held before
    [AES_init_ctx]. *)
Theorem ecb_aes128_known_answer ctx0 :
  length (RoundKey ctx0) = (Nb * (Nr AES128 + 1))%nat ->
  exists ctx,
    AES_init_ctx AES128 ctx0 nist_key128 = Ok ctx /\
    AES_ECB_encrypt AES128 ctx nist_plain = Ok nist_cipher.
Proof.
  intros H. exists (mkCtx nist_schedule (Iv ctx0)). split.
  - unfold AES_init_ctx.
    rewrite (KeyExpansion_fresh AES128 (RoundKey ctx0) (RoundKey (zero_ctx AES128)) nist_key128);
      [| exact H | reflexivity | reflexivity | apply bytesb_bytes; reflexivity].
    replace (KeyExpansion AES128 (RoundKey (zero_ctx AES128)) nist_key128)
      with (Ok nist_schedule) by (vm_compute; reflexivity).
    reflexivity.
  - unfold AES_ECB_encrypt. cbn [RoundKey]. vm_compute. reflexivity.
Qed.

Lemma ecb_aes128_known_answer_witness :
  exists ctx,
    AES_init_ctx AES128 (zero_ctx AES128) nist_key128 = Ok ctx /\
    AES_ECB_encrypt AES128 ctx nist_plain = Ok nist_cipher.
Proof. apply (ecb_aes128_known_answer (zero_ctx AES128)). reflexivity. Defined.

(** C2: for every key size, key, initial IV/counter and mode, decrypting
    the encryption of a plaintext with the same key and initial chaining
    value returns the plaintext: one block for ECB, any whole number of
    blocks for CBC, any number of bytes for CTR. *)
Theorem decrypt_encrypt_roundtrip ks ctx0 key iv block cbc_buf ctr_buf :
  length (RoundKey ctx0) = (Nb * (Nr ks + 1))%nat ->
  length key = (4 * Nk ks)%nat -> bytes key ->
  length iv = 16%nat -> bytes iv ->
  length block = 16%nat -> bytes block ->
  (length cbc_buf mod 16 = 0)%nat -> bytes cbc_buf ->
  exists ecb_ctx ctx,
    AES_init_ctx ks ctx0 key = Ok ecb_ctx /\
    AES_init_ctx_iv ks ctx0 key iv = Ok ctx /\
    (exists c, AES_ECB_encrypt ks ecb_ctx block = Ok c /\
               AES_ECB_decrypt ks ecb_ctx c = Ok block) /\
    (exists ctx1 c ctx2,
       AES_CBC_encrypt_buffer ks ctx cbc_buf (length cbc_buf) = Ok (ctx1, c) /\
       AES_CBC_decrypt_buffer ks ctx c (length c) = Ok (ctx2, cbc_buf)) /\
    (exists ctx1 c ctx2,
       AES_CTR_xcrypt_buffer ks ctx ctr_buf (length ctr_buf) = Ok (ctx1, c) /\
       AES_CTR_xcrypt_buffer ks ctx c (length c) = Ok (ctx2, ctr_buf)).
Proof.
  intros H0 Hkl Hkb Hil Hib Hbl Hbb Hcl Hcb.
  destruct (AES_init_ctx_iv_ok ks ctx0 key iv H0 Hkl Hkb Hil) as (rk & _ & Hw & _ & E1 & E2).
  exists (mkCtx rk (Iv ctx0)), (mkCtx rk iv).
  split; [exact E1 |]. split; [exact E2 |].
  split; [apply AES_ECB_roundtrip; assumption |].
  split; [apply AES_CBC_roundtrip; assumption |].
  apply AES_CTR_roundtrip.
Qed.

Lemma decrypt_encrypt_roundtrip_witness :
  exists ecb_ctx ctx,
    AES_init_ctx AES128 (zero_ctx AES128) nist_key128 = Ok ecb_ctx /\
    AES_init_ctx_iv AES128 (zero_ctx AES128) nist_key128 counter_iv = Ok ctx /\
    (exists c, AES_ECB_encrypt AES128 ecb_ctx nist_plain = Ok c /\
               AES_ECB_decrypt AES128 ecb_ctx c = Ok nist_plain) /\
    (exists ctx1 c ctx2,
       AES_CBC_encrypt_buffer AES128 ctx (nist_plain ++ nist_cipher)
         (length (nist_plain ++ nist_cipher)) = Ok (ctx1, c) /\
       AES_CBC_decrypt_buffer AES128 ctx c (length c) = Ok (ctx2, nist_plain ++ nist_cipher)) /\
    (exists ctx1 c ctx2,
       AES_CTR_xcrypt_buffer AES128 ctx [1; 2; 3] (length [1; 2; 3]) = Ok (ctx1, c) /\
       AES_CTR_xcrypt_buffer AES128 ctx c (length c) = Ok (ctx2, [1; 2; 3])).
Proof.
  apply (decrypt_encrypt_roundtrip AES128 (zero_ctx AES128) nist_key128 counter_iv
           nist_plain (nist_plain ++ nist_cipher) [1; 2; 3]);
    try reflexivity; apply bytesb_bytes; reflexivity.
Defined.

(** C3: for a key of [4 * Nk] bytes, [KeyExpansion] yields a schedule whose
    first [Nk] words are the key and whose later words are
    [w[i] = w[i - Nk] xor t(w[i - 1])], [t] being rotation, S-box and round
    constant when [i mod Nk = 0], the S-box alone when [Nk = 8] and
    [i mod Nk = 4], and the identity otherwise. *)
Theorem KeyExpansion_schedule ks rk0 Key :
  length rk0 = (Nb * (Nr ks + 1))%nat ->
  length Key = (4 * Nk ks)%nat -> bytes Key ->
  exists w,
    KeyExpansion ks rk0 Key = Ok w /\
    length w = (Nb * (Nr ks + 1))%nat /\
    (forall j, (j < Nk ks)%nat -> nth j w 0 = key_word Key j) /\
    (forall i, (Nk ks <= i < Nb * (Nr ks + 1))%nat ->
       nth i w 0 = Z.lxor (nth (i - Nk ks) w 0) (schedule_t ks i (nth (i - 1) w 0))).
Proof.
  intros H0 Hkl Hkb.
  destruct (KeyExpansion_spec ks rk0 Key H0 Hkl Hkb) as (w & E & Hl & _ & Hk & Hrec).
  exists w. repeat split; assumption.
Qed.

Lemma KeyExpansion_schedule_witness :
  exists w,
    KeyExpansion AES128 (RoundKey (zero_ctx AES128)) nist_key128 = Ok w /\
    length w = (Nb * (Nr AES128 + 1))%nat /\
    (forall j, (j < Nk AES128)%nat -> nth j w 0 = key_word nist_key128 j) /\
    (forall i, (Nk AES128 <= i < Nb * (Nr AES128 + 1))%nat ->
       nth i w 0 = Z.lxor (nth (i - Nk AES128) w 0) (schedule_t AES128 i (nth (i - 1) w 0))).
Proof.
  apply (KeyExpansion_schedule AES128 (RoundKey (zero_ctx AES128)) nist_key128);
    try reflexivity; apply bytesb_bytes; reflexivity.
Defined.

Lemma wordb_word w : (0 <=? w) && (w <? 4294967296) = true -> word w.
Proof. unfold word. lia. Qed.

(** C4: on every state, the word-rotation implementation of MixColumns is
    the reference definition, the product of each column with the circulant
    matrix {02,03,01,01} over GF(2^8); and [xtime] multiplies the four byte
    lanes of a word by {02}, each lane on its own. *)
Theorem MixColumns_refines_reference s w :
  wf_state s -> word w ->
  MixColumns s = state_of_bytes (MixColumns_ref (bytes_of_state s)) /\
  xtime w = word_of_bytes (map gf_xtime (bytes_of_word w)).
Proof.
  intros Hs Hw. split; [apply MixColumns_MixColumns_ref, Hs | apply xtime_lanes, Hw].
Qed.

Lemma MixColumns_refines_reference_witness :
  MixColumns sample_state = state_of_bytes (MixColumns_ref (bytes_of_state sample_state)) /\
  xtime 0x80fe017f = word_of_bytes (map gf_xtime (bytes_of_word 0x80fe017f)).
Proof.
  apply (MixColumns_refines_reference sample_state 0x80fe017f);
    [repeat split; apply wordb_word; reflexivity | apply wordb_word; reflexivity].
Defined.

(** C5: for every schedule and state, [Cipher] returns, and what it returns
    is AddRoundKey(0), then SubBytes, ShiftRows, MixColumns,
    AddRoundKey(round) for round 1 to Nr-1, then SubBytes, ShiftRows and
    AddRoundKey(Nr). *)
Theorem Cipher_round_sequence ks state rk :
  Cipher ks state rk = Ok (Cipher_sequence ks state rk).
Proof. apply Cipher_eq. Qed.

Lemma ctr_stream_counter ks rk k iv buffer :
  (k < 16)%nat ->
  snd (ctr_stream ks rk (S k) AES_BLOCKLEN iv buffer) = CTR_increment AES_BLOCKLEN iv.
Proof.
  intros Hk. rewrite ctr_stream_refill.
  replace (S k) with (S k + 0)%nat by lia.
  rewrite ctr_stream_run by (try apply length_bytes_of_state; lia).
  reflexivity.
Qed.

(** C6: a counter-increment step of [AES_CTR_xcrypt_buffer] (one happens in
    a call on 1 to 16 bytes) replaces the counter by its successor as a
    big-endian 128-bit integer modulo 2^128, still sixteen bytes; sixteen
    bytes 0xFF become sixteen zero bytes. *)
Theorem CTR_counter_increment ks ctx buf :
  length (Iv ctx) = 16%nat -> bytes (Iv ctx) ->
  (1 <= length buf <= 16)%nat ->
  (exists out,
     AES_CTR_xcrypt_buffer ks ctx buf (length buf) =
     Ok (mkCtx (RoundKey ctx) (CTR_increment AES_BLOCKLEN (Iv ctx)), out)) /\
  length (CTR_increment AES_BLOCKLEN (Iv ctx)) = 16%nat /\
  bytes (CTR_increment AES_BLOCKLEN (Iv ctx)) /\
  be_value (CTR_increment AES_BLOCKLEN (Iv ctx)) = (be_value (Iv ctx) + 1) mod 2 ^ 128 /\
  CTR_increment AES_BLOCKLEN (repeat 255 16) = repeat 0 16.
Proof.
  intros Hl Hb Hbuf. split.
  - rewrite AES_CTR_xcrypt_buffer_stream by lia.
    destruct (length buf) as [| k] eqn:E; [lia |].
    rewrite ctr_stream_counter by lia. eexists. reflexivity.
  - destruct (CTR_increment_16 (Iv ctx) Hl Hb) as (H1 & H2 & H3).
    repeat split; try assumption.
Qed.

Lemma CTR_counter_increment_witness :
  (exists out,
     AES_CTR_xcrypt_buffer AES128 nist_ctx [1; 2; 3] (length [1; 2; 3]) =
     Ok (mkCtx (RoundKey nist_ctx) (CTR_increment AES_BLOCKLEN (Iv nist_ctx)), out)) /\
  length (CTR_increment AES_BLOCKLEN (Iv nist_ctx)) = 16%nat /\
  bytes (CTR_increment AES_BLOCKLEN (Iv nist_ctx)) /\
  be_value (CTR_increment AES_BLOCKLEN (Iv nist_ctx)) = (be_value (Iv nist_ctx) + 1) mod 2 ^ 128 /\
  CTR_increment AES_BLOCKLEN (repeat 255 16) = repeat 0 16.
Proof.
  apply (CTR_counter_increment AES128 nist_ctx [1; 2; 3]);
    [reflexivity | apply bytesb_bytes; reflexivity | cbn; lia].
Defined.

(** C7: on a buffer of n whole blocks, one CBC-encrypt, CBC-decrypt or CTR
    call succeeds, and n calls on the blocks one after the other, reusing
    the context, give the same output bytes and the same final context. *)
Theorem streaming_equivalence ks ctx blocks :
  Forall (fun b => length b = 16%nat) blocks ->
  (exists ctx' out,
     AES_CBC_encrypt_buffer ks ctx (concat blocks) (16 * length blocks) = Ok (ctx', out) /\
     stream (AES_CBC_encrypt_buffer ks) ctx blocks = Ok (ctx', out)) /\
  (exists ctx' out,
     AES_CBC_decrypt_buffer ks ctx (concat blocks) (16 * length blocks) = Ok (ctx', out) /\
     stream (AES_CBC_decrypt_buffer ks) ctx blocks = Ok (ctx', out)) /\
  (exists ctx' out,
     AES_CTR_xcrypt_buffer ks ctx (concat blocks) (16 * length blocks) = Ok (ctx', out) /\
     stream (AES_CTR_xcrypt_buffer ks) ctx blocks = Ok (ctx', out)).
Proof.
  intros H. split; [| split].
  - rewrite <- AES_CBC_encrypt_buffer_stream by exact H.
    rewrite AES_CBC_encrypt_buffer_concat by exact H. do 2 eexists. split; reflexivity.
  - rewrite <- AES_CBC_decrypt_buffer_stream by exact H.
    rewrite AES_CBC_decrypt_buffer_concat by exact H. do 2 eexists. split; reflexivity.
  - rewrite <- AES_CTR_xcrypt_buffer_blocks_stream by exact H.
    rewrite AES_CTR_xcrypt_buffer_stream by (rewrite length_concat_16 by exact H; lia).
    do 2 eexists. split; reflexivity.
Qed.

Lemma streaming_equivalence_witness :
  (exists ctx' out,
     AES_CBC_encrypt_buffer AES128 nist_ctx (concat [nist_plain; nist_cipher])
       (16 * length [nist_plain; nist_cipher]) = Ok (ctx', out) /\
     stream (AES_CBC_encrypt_buffer AES128) nist_ctx [nist_plain; nist_cipher] = Ok (ctx', out)) /\
  (exists ctx' out,
     AES_CBC_decrypt_buffer AES128 nist_ctx (concat [nist_plain; nist_cipher])
       (16 * length [nist_plain; nist_cipher]) = Ok (ctx', out) /\
     stream (AES_CBC_decrypt_buffer AES128) nist_ctx [nist_plain; nist_cipher] = Ok (ctx', out)) /\
  (exists ctx' out,
     AES_CTR_xcrypt_buffer AES128 nist_ctx (concat [nist_plain; nist_cipher])
       (16 * length [nist_plain; nist_cipher]) = Ok (ctx', out) /\
     stream (AES_CTR_xcrypt_buffer AES128) nist_ctx [nist_plain; nist_cipher] = Ok (ctx', out)).
Proof.
  apply (streaming_equivalence AES128 nist_ctx [nist_plain; nist_cipher]).
  repeat constructor.
Defined.

(** C8, as the source has it: the CBC loops do not stop short on a length
    that is not a multiple of 16.  They run once per started block, so the
    call behaves as with the length rounded up to the next multiple of 16,
    and on a buffer of exactly [length] bytes the last iteration reads and
    writes behind the buffer. *)
Theorem CBC_misaligned_length_overruns ks ctx buf len :
  length buf = len -> (len mod 16 <> 0)%nat ->
  AES_CBC_encrypt_buffer ks ctx buf len = OutOfBounds /\
  AES_CBC_decrypt_buffer ks ctx buf len = OutOfBounds /\
  (forall mem,
     AES_CBC_encrypt_buffer ks ctx mem len =
     AES_CBC_encrypt_buffer ks ctx mem (round_up_16 len) /\
     AES_CBC_decrypt_buffer ks ctx mem len =
     AES_CBC_decrypt_buffer ks ctx mem (round_up_16 len)).
Proof.
  intros Hl Hm. pose proof (round_up_16_bounds len) as Hb.
  pose proof (misaligned_overrun len Hm) as Ho.
  split; [| split].
  - unfold AES_CBC_encrypt_buffer.
    rewrite (CBC_encrypt_loop_overrun ks ctx ((len + 15) / 16)) by lia. reflexivity.
  - unfold AES_CBC_decrypt_buffer.
    apply (CBC_decrypt_loop_overrun ks ((len + 15) / 16)); lia.
  - intros mem. split.
    + apply AES_CBC_encrypt_buffer_round_up.
    + apply AES_CBC_decrypt_buffer_round_up.
Qed.

Lemma CBC_misaligned_length_overruns_witness :
  AES_CBC_encrypt_buffer AES128 nist_ctx (nist_plain ++ [1; 2; 3; 4]) 20 = OutOfBounds /\
  AES_CBC_decrypt_buffer AES128 nist_ctx (nist_plain ++ [1; 2; 3; 4]) 20 = OutOfBounds /\
  (forall mem,
     AES_CBC_encrypt_buffer AES128 nist_ctx mem 20 =
     AES_CBC_encrypt_buffer AES128 nist_ctx mem (round_up_16 20) /\
     AES_CBC_decrypt_buffer AES128 nist_ctx mem 20 =
     AES_CBC_decrypt_buffer AES128 nist_ctx mem (round_up_16 20)).
Proof.
  apply (CBC_misaligned_length_overruns AES128 nist_ctx (nist_plain ++ [1; 2; 3; 4]) 20);
    [reflexivity | cbn; discriminate].
Defined.

(** C8, as the claim states it, fails on a buffer of 20 bytes: the call
    does not return with bytes 16..19 untouched, it leaves the buffer; and
    when 12 more bytes lie behind the 20, bytes 16..19 are rewritten. *)
Lemma CBC_stops_short_counterexample :
  ~ (exists ctx' out,
       AES_CBC_encrypt_buffer AES128 nist_ctx (nist_plain ++ [1; 2; 3; 4]) 20 = Ok (ctx', out) /\
       skipn 16 out = [1; 2; 3; 4]) /\
  ~ (exists ctx' out,
       AES_CBC_decrypt_buffer AES128 nist_ctx (nist_plain ++ [1; 2; 3; 4]) 20 = Ok (ctx', out) /\
       skipn 16 out = [1; 2; 3; 4]) /\
  ~ (exists ctx' out,
       AES_CBC_encrypt_buffer AES128 nist_ctx (nist_plain ++ [1; 2; 3; 4] ++ repeat 0 12) 20
         = Ok (ctx', out) /\
       firstn 4 (skipn 16 out) = [1; 2; 3; 4]).
Proof.
  split; [| split].
  - intros (ctx' & out & H & _). vm_compute in H. discriminate H.
  - intros (ctx' & out & H & _). vm_compute in H. discriminate H.
  - intros (ctx' & out & H & Hout). vm_compute in H.
    injection H as _ <-. vm_compute in Hout. discriminate Hout.
Qed.

(** C9: the two substitution tables are inverse to each other on every
    byte, and [InvSubBytes] after [SubBytes] gives back every state. *)
Theorem sbox_rsbox_inverse x s :
  byte x -> wf_state s ->
  getSBoxInvert (getSBoxValue x) = x /\
  getSBoxValue (getSBoxInvert x) = x /\
  InvSubBytes (SubBytes s) = s.
Proof.
  intros Hx Hs. split; [apply rsbox_sbox, Hx |].
  split; [apply sbox_rsbox, Hx | apply InvSubBytes_SubBytes, Hs].
Qed.

Lemma sbox_rsbox_inverse_witness :
  getSBoxInvert (getSBoxValue 0x53) = 0x53 /\
  getSBoxValue (getSBoxInvert 0x53) = 0x53 /\
  InvSubBytes (SubBytes sample_state) = sample_state.
Proof.
  apply (sbox_rsbox_inverse 0x53 sample_state);
    [unfold byte; lia | repeat split; apply wordb_word; reflexivity].
Defined.

(** C10: [AES_CTR_xcrypt_buffer] with length 0 returns the buffer, the
    counter and the schedule as they were. *)
Theorem CTR_length_zero_noop ks ctx buf :
  AES_CTR_xcrypt_buffer ks ctx buf 0 = Ok (ctx, buf).
Proof. reflexivity. Qed.

(** * Further properties of the round transform *)

Lemma odd_shiftr_mod16 y k :
  0 <= k -> Z.odd (Z.shiftr (y mod 16) k) = if k <? 4 then Z.testbit y k else false.
Proof.
  intros Hk. rewrite <- Z.testbit_odd. change 16 with (2 ^ 4).
  destruct (Z.ltb_spec k 4).
  - apply Z.mod_pow2_bits_low. lia.
  - apply Z.mod_pow2_bits_high. lia.
Qed.

(** Multiplication by a value below 16 only uses three doublings. *)
Lemma gf_mul_nibble y b :
  gf_mul (y mod 16) b =
  Z.lxor (Z.lxor (Z.lxor
    (if Z.testbit y 0 then b else 0)
    (if Z.testbit y 1 then gf_xtime b else 0))
    (if Z.testbit y 2 then gf_xtime (gf_xtime b) else 0))
    (if Z.testbit y 3 then gf_xtime (gf_xtime (gf_xtime b)) else 0).
Proof.
  unfold gf_mul. cbn [gf_mul_bits]. rewrite !Z.shiftr_shiftr by lia.
  rewrite <- (Z.shiftr_0_r (y mod 16)) at 1.
  rewrite !odd_shiftr_mod16 by lia. cbn [Z.add Pos.add Pos.succ Z.ltb Z.compare Pos.compare Pos.compare_cont].
  rewrite !Z.lxor_0_r. rewrite !Z.lxor_assoc. reflexivity.
Qed.

Lemma gf_mul_9 b : gf_mul 9 b = Z.lxor (gf_xtime (gf_xtime (gf_xtime b))) b.
Proof.
  change 9 with (9 mod 16). rewrite gf_mul_nibble.
  change (Z.testbit 9 0) with true. change (Z.testbit 9 1) with false.
  change (Z.testbit 9 2) with false. change (Z.testbit 9 3) with true.
  rewrite !Z.lxor_0_r. apply Z.lxor_comm.
Qed.

Lemma gf_mul_11 b :
  gf_mul 11 b = Z.lxor (Z.lxor (gf_xtime (gf_xtime (gf_xtime b))) (gf_xtime b)) b.
Proof.
  change 11 with (11 mod 16). rewrite gf_mul_nibble.
  change (Z.testbit 11 0) with true. change (Z.testbit 11 1) with true.
  change (Z.testbit 11 2) with false. change (Z.testbit 11 3) with true.
  rewrite !Z.lxor_0_r. xor_bits.
Qed.

Lemma gf_mul_13 b :
  gf_mul 13 b = Z.lxor (Z.lxor (gf_xtime (gf_xtime (gf_xtime b))) (gf_xtime (gf_xtime b))) b.
Proof.
  change 13 with (13 mod 16). rewrite gf_mul_nibble.
  change (Z.testbit 13 0) with true. change (Z.testbit 13 1) with false.
  change (Z.testbit 13 2) with true. change (Z.testbit 13 3) with true.
  rewrite !Z.lxor_0_r. xor_bits.
Qed.

Lemma gf_mul_14 b :
  gf_mul 14 b =
  Z.lxor (Z.lxor (gf_xtime (gf_xtime (gf_xtime b))) (gf_xtime (gf_xtime b))) (gf_xtime b).
Proof.
  change 14 with (14 mod 16). rewrite gf_mul_nibble.
  change (Z.testbit 14 0) with false. change (Z.testbit 14 1) with true.
  change (Z.testbit 14 2) with true. change (Z.testbit 14 3) with true.
  rewrite !Z.lxor_0_l. xor_bits.
Qed.

Lemma inv_mix_column_ref_bytes b0 b1 b2 b3 :
  let T := gf_xtime in
  let x9 b := Z.lxor (T (T (T b))) b in
  let xb b := Z.lxor (Z.lxor (T (T (T b))) (T b)) b in
  let xd b := Z.lxor (Z.lxor (T (T (T b))) (T (T b))) b in
  let xe b := Z.lxor (Z.lxor (T (T (T b))) (T (T b))) (T b) in
  inv_mix_column_ref [b0; b1; b2; b3] =
  [Z.lxor (Z.lxor (Z.lxor (xe b0) (xb b1)) (xd b2)) (x9 b3);
   Z.lxor (Z.lxor (Z.lxor (x9 b0) (xe b1)) (xb b2)) (xd b3);
   Z.lxor (Z.lxor (Z.lxor (xd b0) (x9 b1)) (xe b2)) (xb b3);
   Z.lxor (Z.lxor (Z.lxor (xb b0) (xd b1)) (x9 b2)) (xe b3)].
Proof.
  cbv zeta. unfold inv_mix_column_ref, inv_mix_matrix, gf_dot.
  cbn [map combine fold_right fst snd].
  rewrite !gf_mul_9, !gf_mul_11, !gf_mul_13, !gf_mul_14, !Z.lxor_0_r.
  rewrite !Z.lxor_assoc. reflexivity.
Qed.

Lemma InvMixColumns_InvMixColumns_ref s :
  wf_state s -> InvMixColumns s = state_of_bytes (InvMixColumns_ref (bytes_of_state s)).
Proof.
  revert s. apply wf_state_bytes. intros.
  rewrite bytes_of_state_le32 by assumption.
  unfold InvMixColumns_ref, load. cbn [skipn firstn].
  pose proof inv_mix_column_ref_bytes as E. cbv zeta in E. rewrite !E. clear E.
  rewrite InvMixColumns_words. cbn [i0 i1 i2 i3].
  pose proof inv_mix_word_le32 as E. cbv zeta in E. rewrite !E by assumption.
  reflexivity.
Qed.

(** ** Multiply *)

Lemma land_1_b2z y k : 0 <= k -> Z.land (Z.shiftr y k) 1 = Z.b2z (Z.testbit y k).
Proof.
  intros Hk. change 1 with (Z.ones 1). rewrite Z.land_ones by lia.
  change (2 ^ 1) with 2. rewrite <- Z.bit0_mod, Z.shiftr_spec by lia.
  rewrite Z.add_0_l. reflexivity.
Qed.

Lemma mask_select (t : bool) x :
  word x -> Z.land (not32 (sub32 (Z.b2z t) 1)) x = if t then x else 0.
Proof.
  intros Hx. destruct t.
  - change (not32 (sub32 (Z.b2z true) 1)) with (Z.ones 32).
    rewrite Z.land_comm, Z.land_ones by lia. apply Z.mod_small. exact Hx.
  - change (not32 (sub32 (Z.b2z false) 1)) with 0. apply Z.land_0_l.
Qed.

Lemma word_xtime w : word w -> word (xtime w).
Proof.
  intros H. rewrite (word_le32_bytes w H), xtime_le32 by apply byte_helper_a.
  auto with aes.
Qed.
#[local] Hint Resolve word_xtime : aes.

Lemma select_le32 (t : bool) b0 b1 b2 b3 :
  (if t then le32 b0 b1 b2 b3 else 0) =
  le32 (if t then b0 else 0) (if t then b1 else 0) (if t then b2 else 0) (if t then b3 else 0).
Proof. destruct t; reflexivity. Qed.

Lemma byte_select (t : bool) b : byte b -> byte (if t then b else 0).
Proof. destruct t; auto with aes. Qed.
#[local] Hint Resolve byte_select : aes.

Lemma Multiply_lanes x y :
  word x ->
  Multiply x y = word_of_bytes (map (gf_mul (y mod 16)) (bytes_of_word x)).
Proof.
  intros Hx. unfold Multiply. cbv zeta.
  rewrite <- (Z.shiftr_0_r y) at 1. rewrite !land_1_b2z by lia.
  rewrite !mask_select by auto with aes.
  rewrite (word_le32_bytes x Hx).
  set (b0 := helper_a x 0). set (b1 := helper_a x 1).
  set (b2 := helper_a x 2). set (b3 := helper_a x 3).
  assert (H0 : byte b0) by apply byte_helper_a. assert (H1 : byte b1) by apply byte_helper_a.
  assert (H2 : byte b2) by apply byte_helper_a. assert (H3 : byte b3) by apply byte_helper_a.
  clearbody b0 b1 b2 b3.
  rewrite !xtime_le32 by auto with aes.
  rewrite !select_le32. le32_norm.
  unfold bytes_of_word.
  destruct (helper_a_le32 b0 b1 b2 b3 H0 H1 H2 H3) as (-> & -> & -> & ->).
  unfold word_of_bytes. cbn [map nth]. rewrite !gf_mul_nibble. reflexivity.
Qed.

Lemma rounds_inv_rounds rk l : forall t,
  words rk -> wf_state t ->
  ShiftRows (SubBytes
    (fold_left (full_round rk) l
       (InvSubBytes (InvShiftRows (fold_left (inv_full_round rk) (rev l) t))))) = t.
Proof.
  induction l as [| r l IH]; intros t Hrk Ht.
  - cbn [rev fold_left].
    rewrite SubBytes_InvSubBytes by auto with aes.
    apply ShiftRows_InvShiftRows; assumption.
  - cbn [rev]. rewrite fold_left_app, fold_left_one, fold_left_cons.
    assert (Hw : wf_state (fold_left (inv_full_round rk) (rev l) t))
      by (apply wf_inv_full_rounds; assumption).
    rewrite inv_full_round_eq, full_round_eq.
    rewrite SubBytes_InvSubBytes by auto 8 with aes.
    rewrite ShiftRows_InvShiftRows by auto 8 with aes.
    rewrite MixColumns_InvMixColumns by auto 8 with aes.
    rewrite AddRoundKey_involutive.
    apply IH; assumption.
Qed.

Lemma Cipher_sequence_InvCipher_sequence ks s rk :
  words rk -> wf_state s ->
  Cipher_sequence ks (InvCipher_sequence ks s rk) rk = s.
Proof.
  intros Hrk Hs. rewrite Cipher_sequence_eq, InvCipher_sequence_eq.
  rewrite AddRoundKey_involutive.
  rewrite rounds_inv_rounds by auto with aes.
  apply AddRoundKey_involutive.
Qed.

Lemma state_a_le32 a0 a1 a2 a3 b0 b1 b2 b3 c0 c1 c2 c3 d0 d1 d2 d3 c r :
  byte a0 -> byte a1 -> byte a2 -> byte a3 ->
  byte b0 -> byte b1 -> byte b2 -> byte b3 ->
  byte c0 -> byte c1 -> byte c2 -> byte c3 ->
  byte d0 -> byte d1 -> byte d2 -> byte d3 ->
  state_a (mkState (le32 a0 a1 a2 a3) (le32 b0 b1 b2 b3)
                   (le32 c0 c1 c2 c3) (le32 d0 d1 d2 d3)) c r =
  nth (4 * c + r) [a0; a1; a2; a3; b0; b1; b2; b3; c0; c1; c2; c3; d0; d1; d2; d3] 0.
Proof. intros. unfold state_a. rewrite bytes_of_state_le32 by assumption. reflexivity. Qed.

Ltac four c :=
  destruct c as [| [| [| [| c]]]]; [| | | | exfalso; lia].

Lemma ShiftRows_rows s c r :
  wf_state s -> (c < 4)%nat -> (r < 4)%nat ->
  state_a (ShiftRows s) c r = state_a s ((c + r) mod 4) r /\
  state_a (InvShiftRows s) c r = state_a s ((c + 4 - r) mod 4) r.
Proof.
  revert s. apply (wf_state_bytes (fun s => (c < 4)%nat -> (r < 4)%nat -> _)).
  intros. rewrite ShiftRows_le32, InvShiftRows_le32 by assumption.
  rewrite !state_a_le32 by assumption.
  four c; four r; split; reflexivity.
Qed.

Lemma SubBytes_bytes s :
  wf_state s ->
  bytes_of_state (SubBytes s) = map getSBoxValue (bytes_of_state s) /\
  bytes_of_state (InvSubBytes s) = map getSBoxInvert (bytes_of_state s).
Proof.
  revert s. apply wf_state_bytes. intros.
  rewrite SubBytes_words, InvSubBytes_words. cbn [i0 i1 i2 i3].
  rewrite !(sub_word_le32 getSBoxValue), !(sub_word_le32 getSBoxInvert) by auto with aes.
  rewrite !bytes_of_state_le32 by auto with aes. split; reflexivity.
Qed.

(** X1: [InvCipher] returns, and what it returns is AddRoundKey(Nr), then
    InvShiftRows, InvSubBytes, AddRoundKey(round), InvMixColumns for round
    Nr-1 down to 1, then InvShiftRows, InvSubBytes and AddRoundKey(0). *)
Theorem InvCipher_round_sequence ks state rk :
  InvCipher ks state rk = Ok (InvCipher_sequence ks state rk).
Proof. apply InvCipher_eq. Qed.

(** X2: on every state, under every schedule of 32-bit words, [Cipher] and
    [InvCipher] are inverse to each other, in both orders. *)
Theorem Cipher_InvCipher_inverse ks s rk :
  words rk -> wf_state s ->
  (exists c, Cipher ks s rk = Ok c /\ InvCipher ks c rk = Ok s) /\
  (exists p, InvCipher ks s rk = Ok p /\ Cipher ks p rk = Ok s).
Proof.
  intros Hrk Hs. split.
  - rewrite Cipher_eq. eexists. split; [reflexivity |].
    rewrite InvCipher_eq, InvCipher_sequence_Cipher_sequence by assumption. reflexivity.
  - rewrite InvCipher_eq. eexists. split; [reflexivity |].
    rewrite Cipher_eq, Cipher_sequence_InvCipher_sequence by assumption. reflexivity.
Qed.

Lemma wordsb_words l : forallb (fun w => (0 <=? w) && (w <? 4294967296)) l = true -> words l.
Proof.
  unfold words. rewrite forallb_forall, Forall_forall.
  intros H x Hx. specialize (H x Hx). unfold word. lia.
Qed.

Lemma Cipher_InvCipher_inverse_witness :
  (exists c, Cipher AES128 sample_state nist_schedule = Ok c /\
             InvCipher AES128 c nist_schedule = Ok sample_state) /\
  (exists p, InvCipher AES128 sample_state nist_schedule = Ok p /\
             Cipher AES128 p nist_schedule = Ok sample_state).
Proof.
  apply (Cipher_InvCipher_inverse AES128 sample_state nist_schedule);
    [apply wordsb_words; reflexivity | repeat split; apply wordb_word; reflexivity].
Defined.

(** X3: on the byte matrix [a[c][r]] of a state, [ShiftRows] moves row [r]
    to the left by [r] columns and [InvShiftRows] moves it to the right by
    [r] columns (row 0 stays), and each undoes the other. *)
Theorem ShiftRows_rotates_rows s c r :
  wf_state s -> (c < 4)%nat -> (r < 4)%nat ->
  state_a (ShiftRows s) c r = state_a s ((c + r) mod 4) r /\
  state_a (InvShiftRows s) c r = state_a s ((c + 4 - r) mod 4) r /\
  InvShiftRows (ShiftRows s) = s /\ ShiftRows (InvShiftRows s) = s.
Proof.
  intros Hs Hc Hr. destruct (ShiftRows_rows s c r Hs Hc Hr) as [H1 H2].
  split; [exact H1 |]. split; [exact H2 |].
  split; [apply InvShiftRows_ShiftRows | apply ShiftRows_InvShiftRows]; exact Hs.
Qed.

Lemma ShiftRows_rotates_rows_witness :
  state_a (ShiftRows sample_state) 3 2 = state_a sample_state ((3 + 2) mod 4) 2 /\
  state_a (InvShiftRows sample_state) 3 2 = state_a sample_state ((3 + 4 - 2) mod 4) 2 /\
  InvShiftRows (ShiftRows sample_state) = sample_state /\
  ShiftRows (InvShiftRows sample_state) = sample_state.
Proof.
  apply (ShiftRows_rotates_rows sample_state 3 2);
    [repeat split; apply wordb_word; reflexivity | lia | lia].
Defined.

(** X4: [SubBytes] and [InvSubBytes] replace each of the sixteen bytes of a
    state by its table entry, and each undoes the other. *)
Theorem SubBytes_bytewise s :
  wf_state s ->
  bytes_of_state (SubBytes s) = map getSBoxValue (bytes_of_state s) /\
  bytes_of_state (InvSubBytes s) = map getSBoxInvert (bytes_of_state s) /\
  SubBytes (InvSubBytes s) = s.
Proof.
  intros Hs. destruct (SubBytes_bytes s Hs) as [H1 H2].
  split; [exact H1 |]. split; [exact H2 |]. apply SubBytes_InvSubBytes, Hs.
Qed.

Lemma SubBytes_bytewise_witness :
  bytes_of_state (SubBytes sample_state) = map getSBoxValue (bytes_of_state sample_state) /\
  bytes_of_state (InvSubBytes sample_state) = map getSBoxInvert (bytes_of_state sample_state) /\
  SubBytes (InvSubBytes sample_state) = sample_state.
Proof.
  apply (SubBytes_bytewise sample_state). repeat split; apply wordb_word; reflexivity.
Defined.

(** X5: on every state [InvMixColumns] is the product of each column with
    the circulant matrix {0e,0b,0d,09} over GF(2^8), and [MixColumns] and
    [InvMixColumns] undo each other in both orders. *)
Theorem InvMixColumns_refines_reference s :
  wf_state s ->
  InvMixColumns s = state_of_bytes (InvMixColumns_ref (bytes_of_state s)) /\
  InvMixColumns (MixColumns s) = s /\ MixColumns (InvMixColumns s) = s.
Proof.
  intros Hs. split; [apply InvMixColumns_InvMixColumns_ref, Hs |].
  split; [apply InvMixColumns_MixColumns | apply MixColumns_InvMixColumns]; exact Hs.
Qed.

Lemma InvMixColumns_refines_reference_witness :
  InvMixColumns sample_state = state_of_bytes (InvMixColumns_ref (bytes_of_state sample_state)) /\
  InvMixColumns (MixColumns sample_state) = sample_state /\
  MixColumns (InvMixColumns sample_state) = sample_state.
Proof.
  apply (InvMixColumns_refines_reference sample_state).
  repeat split; apply wordb_word; reflexivity.
Defined.

(** X6: [Multiply(x, y)] multiplies each of the four byte lanes of [x] by
    the low four bits of [y] in GF(2^8); higher bits of [y] are ignored. *)
Theorem Multiply_low_nibble x y :
  word x ->
  Multiply x y = word_of_bytes (map (gf_mul (y mod 16)) (bytes_of_word x)).
Proof. apply Multiply_lanes. Qed.

Lemma Multiply_low_nibble_witness :
  Multiply 0x80fe0157 0x13 =
  word_of_bytes (map (gf_mul (0x13 mod 16)) (bytes_of_word 0x80fe0157)).
Proof. apply (Multiply_low_nibble 0x80fe0157 0x13). apply wordb_word. reflexivity. Defined.

(** X7: [AES_init_ctx] overwrites the whole schedule: the result does not
    depend on what the context held before, every word of it is a 32-bit
    value, and [ctx->Iv] is left as it was. *)
Theorem AES_init_ctx_fresh ks ctx0 ctx0' key :
  length (RoundKey ctx0) = (Nb * (Nr ks + 1))%nat ->
  length (RoundKey ctx0') = (Nb * (Nr ks + 1))%nat ->
  length key = (4 * Nk ks)%nat -> bytes key ->
  exists rk,
    AES_init_ctx ks ctx0 key = Ok (mkCtx rk (Iv ctx0)) /\
    AES_init_ctx ks ctx0' key = Ok (mkCtx rk (Iv ctx0')) /\
    words rk /\ length rk = (Nb * (Nr ks + 1))%nat.
Proof.
  intros H0 H0' Hkl Hkb.
  destruct (KeyExpansion_spec ks (RoundKey ctx0) key H0 Hkl Hkb) as (rk & E & Hl & Hw & _).
  exists rk. unfold AES_init_ctx.
  rewrite <- (KeyExpansion_fresh ks (RoundKey ctx0) (RoundKey ctx0') key) by assumption.
  rewrite E. cbn [bind]. repeat split; assumption.
Qed.

Lemma AES_init_ctx_fresh_witness :
  exists rk,
    AES_init_ctx AES256 (zero_ctx AES256) (nist_key128 ++ nist_plain)
      = Ok (mkCtx rk (Iv (zero_ctx AES256))) /\
    AES_init_ctx AES256 (mkCtx (repeat 7 60) nist_plain) (nist_key128 ++ nist_plain)
      = Ok (mkCtx rk (Iv (mkCtx (repeat 7 60) nist_plain))) /\
    words rk /\ length rk = (Nb * (Nr AES256 + 1))%nat.
Proof.
  apply (AES_init_ctx_fresh AES256 (zero_ctx AES256) (mkCtx (repeat 7 60) nist_plain)
           (nist_key128 ++ nist_plain));
    try reflexivity; apply bytesb_bytes; reflexivity.
Defined.

(** * Further properties of the modes *)

Lemma split_blocks (buf : list Z) n :
  (16 * n <= length buf)%nat ->
  exists blocks rest,
    buf = concat blocks ++ rest /\ length blocks = n /\
    Forall (fun b => length b = 16%nat) blocks /\ rest = skipn (16 * n) buf.
Proof.
  intros H. destruct (blocks_of n (firstn (16 * n) buf)) as (blocks & E & Hn & Hall).
  { rewrite length_firstn. lia. }
  exists blocks, (skipn (16 * n) buf). rewrite <- E, firstn_skipn. repeat split; assumption.
Qed.

Lemma skipn_app_exact {A : Type} (d rest : list A) n :
  length d = n -> skipn n (d ++ rest) = rest.
Proof. intros <-. rewrite skipn_app, skipn_all, Nat.sub_diag. reflexivity. Qed.

Lemma firstn_app_exact {A : Type} (d rest : list A) n :
  length d = n -> firstn n (d ++ rest) = d.
Proof. intros <-. rewrite firstn_app, firstn_all, Nat.sub_diag. apply app_nil_r. Qed.

Lemma skipn_concat_16 (cs : list (list Z)) rest :
  Forall (fun b => length b = 16%nat) cs ->
  skipn (16 * length cs) (concat cs ++ rest) = rest.
Proof.
  intros H. rewrite <- (length_concat_16 cs H).
  rewrite skipn_app, skipn_all, Nat.sub_diag. reflexivity.
Qed.

(** X8: the CBC calls succeed exactly when the buffer holds the length
    rounded up to a multiple of 16; then the output has the length of the
    buffer, the bytes behind the rounded length are untouched and the
    schedule in the context is unchanged.  Otherwise an access leaves the
    buffer. *)
Theorem CBC_bounds_and_frame ks ctx buf len :
  ((length buf < round_up_16 len)%nat /\
   AES_CBC_encrypt_buffer ks ctx buf len = OutOfBounds /\
   AES_CBC_decrypt_buffer ks ctx buf len = OutOfBounds) \/
  ((round_up_16 len <= length buf)%nat /\
   (exists ctx' out,
      AES_CBC_encrypt_buffer ks ctx buf len = Ok (ctx', out) /\
      RoundKey ctx' = RoundKey ctx /\ length out = length buf /\
      skipn (round_up_16 len) out = skipn (round_up_16 len) buf) /\
   (exists ctx' out,
      AES_CBC_decrypt_buffer ks ctx buf len = Ok (ctx', out) /\
      RoundKey ctx' = RoundKey ctx /\ length out = length buf /\
      skipn (round_up_16 len) out = skipn (round_up_16 len) buf)).
Proof.
  pose proof (round_up_16_bounds len) as Hb. unfold round_up_16.
  set (n := ((len + 15) / 16)%nat) in *.
  destruct (Nat.lt_ge_cases (length buf) (16 * n)) as [Hlt | Hge].
  - left. split; [exact Hlt |]. split.
    + unfold AES_CBC_encrypt_buffer.
      rewrite (CBC_encrypt_loop_overrun ks ctx n) by lia. reflexivity.
    + unfold AES_CBC_decrypt_buffer. apply (CBC_decrypt_loop_overrun ks n); lia.
  - right. split; [exact Hge |].
    destruct (split_blocks buf n Hge) as (blocks & rest & -> & Hn & Hall & Hrest).
    rewrite <- Hn in *. split.
    + pose proof (AES_CBC_encrypt_buffer_blocks ks ctx blocks rest len Hall) as E.
      cbv zeta in E. rewrite E by lia.
      destruct (length_cbc_enc_blocks ks (RoundKey ctx) blocks (Iv ctx)) as [Hl' Hall'].
      do 2 eexists. split; [reflexivity |]. split; [reflexivity |].
      split.
      * rewrite !length_app, !length_concat_16 by assumption. lia.
      * rewrite <- Hl' at 1. rewrite !skipn_concat_16 by assumption. reflexivity.
    + rewrite AES_CBC_decrypt_buffer_blocks by (try assumption; lia).
      destruct (length_cbc_dec_blocks ks (RoundKey ctx) blocks (Iv ctx)) as [Hl' Hall'].
      do 2 eexists. split; [reflexivity |]. split; [reflexivity |].
      split.
      * rewrite !length_app, !length_concat_16 by assumption. lia.
      * rewrite <- Hl' at 1. rewrite !skipn_concat_16 by assumption. reflexivity.
Qed.

Lemma cbc_enc_blocks_snoc ks rk blocks : forall iv b,
  cbc_enc_blocks ks rk iv (blocks ++ [b]) =
  cbc_enc_blocks ks rk iv blocks ++
  [enc_block ks rk (last (cbc_enc_blocks ks rk iv blocks) iv) b].
Proof.
  induction blocks as [| x bs IH]; intros iv b; [reflexivity |].
  cbn [app cbc_enc_blocks]. rewrite IH, last_cons. reflexivity.
Qed.

(** X9: after a CBC call on at least one block the chaining value in the
    context is the last ciphertext block: the last sixteen bytes written by
    [AES_CBC_encrypt_buffer], the last sixteen bytes read by
    [AES_CBC_decrypt_buffer]. *)
Theorem CBC_chaining_value ks ctx blocks b :
  Forall (fun x => length x = 16%nat) blocks -> length b = 16%nat ->
  (exists ctx' out,
     AES_CBC_encrypt_buffer ks ctx (concat (blocks ++ [b])) (16 * length (blocks ++ [b]))
       = Ok (ctx', out) /\
     Iv ctx' = skipn (16 * length blocks) out /\ length (Iv ctx') = 16%nat) /\
  (exists ctx' out,
     AES_CBC_decrypt_buffer ks ctx (concat (blocks ++ [b])) (16 * length (blocks ++ [b]))
       = Ok (ctx', out) /\
     Iv ctx' = b).
Proof.
  intros Hall Hb.
  assert (Hall' : Forall (fun x => length x = 16%nat) (blocks ++ [b])).
  { apply Forall_app. split; [exact Hall | repeat constructor; exact Hb]. }
  split.
  - rewrite AES_CBC_encrypt_buffer_concat by exact Hall'.
    do 2 eexists. split; [reflexivity |]. cbn [Iv].
    rewrite cbc_enc_blocks_snoc, last_last, concat_app, concat_one.
    destruct (length_cbc_enc_blocks ks (RoundKey ctx) blocks (Iv ctx)) as [Hl Ha].
    rewrite <- Hl, skipn_concat_16 by exact Ha.
    split; [reflexivity | apply length_enc_block].
  - rewrite AES_CBC_decrypt_buffer_concat by exact Hall'.
    do 2 eexists. split; [reflexivity |]. cbn [Iv]. apply last_last.
Qed.

Lemma CBC_chaining_value_witness :
  (exists ctx' out,
     AES_CBC_encrypt_buffer AES128 nist_ctx (concat ([nist_plain] ++ [nist_cipher]))
       (16 * length ([nist_plain] ++ [nist_cipher])) = Ok (ctx', out) /\
     Iv ctx' = skipn (16 * length [nist_plain]) out /\ length (Iv ctx') = 16%nat) /\
  (exists ctx' out,
     AES_CBC_decrypt_buffer AES128 nist_ctx (concat ([nist_plain] ++ [nist_cipher]))
       (16 * length ([nist_plain] ++ [nist_cipher])) = Ok (ctx', out) /\
     Iv ctx' = nist_cipher).
Proof.
  apply (CBC_chaining_value AES128 nist_ctx [nist_plain] nist_cipher);
    [repeat constructor | reflexivity].
Defined.

Lemma XorWithIv_xor_stream b iv :
  length b = 16%nat -> length iv = 16%nat -> XorWithIv b iv = xor_stream b iv.
Proof.
  intros Hb Hiv.
  destruct (sixteen b Hb) as (a0&a1&a2&a3&b0&b1&b2&b3&c0&c1&c2&c3&d0&d1&d2&d3&->).
  destruct (sixteen iv Hiv) as (e0&e1&e2&e3&f0&f1&f2&f3&g0&g1&g2&g3&h0&h1&h2&h3&->).
  reflexivity.
Qed.

Lemma xor_stream_same_key m1 : forall m2 s,
  length m1 = length m2 ->
  xor_stream (xor_stream m1 s) (xor_stream m2 s) = xor_stream m1 m2.
Proof.
  induction m1 as [| a m1 IH]; intros [| b m2] s H; try discriminate H.
  - destruct s; reflexivity.
  - destruct s as [| k s]; [reflexivity |]. cbn [xor_stream].
    rewrite IH by (cbn [length] in H; lia). f_equal. xor_bits.
Qed.

Lemma xor_stream_same_data d : forall s1 s2,
  length d = length s1 -> length s1 = length s2 ->
  xor_stream (xor_stream d s1) (xor_stream d s2) = xor_stream s1 s2.
Proof.
  induction d as [| a d IH]; intros [| k1 s1] [| k2 s2] H1 H2;
    try discriminate H1; try discriminate H2.
  - reflexivity.
  - cbn [xor_stream]. cbn [length] in H1, H2. rewrite IH by lia. f_equal. xor_bits.
Qed.

(** X10: CBC decryption of at least one block under a wrong IV: every
    plaintext block but the first is still recovered, the first differs
    from the right one by the XOR of the two IVs, and the context ends in
    the same state. *)
Theorem CBC_decrypt_wrong_iv ks rk iv iv' c cs :
  length iv = 16%nat -> length iv' = 16%nat ->
  length c = 16%nat -> Forall (fun x => length x = 16%nat) cs ->
  exists ctx1 out out',
    AES_CBC_decrypt_buffer ks (mkCtx rk iv) (concat (c :: cs)) (16 * length (c :: cs))
      = Ok (ctx1, out) /\
    AES_CBC_decrypt_buffer ks (mkCtx rk iv') (concat (c :: cs)) (16 * length (c :: cs))
      = Ok (ctx1, out') /\
    skipn 16 out = skipn 16 out' /\
    xor_stream (firstn 16 out) (firstn 16 out') = xor_stream iv iv'.
Proof.
  intros Hiv Hiv' Hc Hcs.
  assert (Hall : Forall (fun x => length x = 16%nat) (c :: cs)) by (constructor; assumption).
  rewrite !AES_CBC_decrypt_buffer_concat by exact Hall.
  cbn [RoundKey Iv cbc_dec_blocks concat]. rewrite !last_cons.
  do 3 eexists. split; [reflexivity |]. split; [reflexivity |].
  rewrite !skipn_app_exact, !firstn_app_exact by apply length_dec_block.
  split; [reflexivity |].
  unfold dec_block.
  rewrite !XorWithIv_xor_stream by (try apply length_bytes_of_state; assumption).
  apply xor_stream_same_data; [rewrite length_bytes_of_state |]; congruence.
Qed.

Lemma CBC_decrypt_wrong_iv_witness :
  exists ctx1 out out',
    AES_CBC_decrypt_buffer AES128 (mkCtx nist_schedule counter_iv)
      (concat (nist_cipher :: [nist_plain])) (16 * length (nist_cipher :: [nist_plain]))
      = Ok (ctx1, out) /\
    AES_CBC_decrypt_buffer AES128 (mkCtx nist_schedule nist_key128)
      (concat (nist_cipher :: [nist_plain])) (16 * length (nist_cipher :: [nist_plain]))
      = Ok (ctx1, out') /\
    skipn 16 out = skipn 16 out' /\
    xor_stream (firstn 16 out) (firstn 16 out') = xor_stream counter_iv nist_key128.
Proof.
  apply (CBC_decrypt_wrong_iv AES128 nist_schedule counter_iv nist_key128 nist_cipher [nist_plain]);
    try reflexivity. repeat constructor.
Defined.

Lemma xor_stream_cancel b : forall iv iv',
  length iv = length b -> length iv' = length b ->
  xor_stream b iv = xor_stream b iv' -> iv = iv'.
Proof.
  induction b as [| x b IH]; intros [| k iv] [| k' iv'] H H' E;
    try discriminate H; try discriminate H'; [reflexivity |].
  cbn [xor_stream] in E. injection E as E1 E2.
  cbn [length] in H, H'. f_equal; [| apply IH; [lia | lia | exact E2]].
  assert (Hk : forall y, y = Z.lxor x (Z.lxor x y))
    by (intros y; rewrite <- Z.lxor_assoc, Z.lxor_nilpotent, Z.lxor_0_l; reflexivity).
  rewrite (Hk k), E1, <- Hk. reflexivity.
Qed.

Lemma enc_block_injective ks rk iv iv' b :
  words rk -> length b = 16%nat -> bytes b ->
  length iv = 16%nat -> bytes iv -> length iv' = 16%nat -> bytes iv' ->
  enc_block ks rk iv b = enc_block ks rk iv' b -> iv = iv'.
Proof.
  intros Hrk Hbl Hb Hl Hiv Hl' Hiv' E.
  assert (E' : dec_block ks rk iv' (enc_block ks rk iv b) = b)
    by (rewrite E; apply dec_block_enc_block; assumption).
  pose proof (dec_block_enc_block ks rk iv b Hrk Hiv Hb Hbl) as E0.
  unfold dec_block in E0, E'.
  set (d := bytes_of_state (InvCipher_sequence ks (state_of_bytes (enc_block ks rk iv b)) rk)) in *.
  assert (Hd : length d = 16%nat) by apply length_bytes_of_state.
  rewrite XorWithIv_xor_stream in E0, E' by assumption.
  apply (xor_stream_cancel d); congruence.
Qed.

(** X11: under one schedule, encrypting the same first block in CBC mode
    from two contexts gives the same ciphertext block only when the two IVs
    are the same. *)
Theorem CBC_distinct_iv_distinct_ciphertext ks rk iv iv' b ctx1 ctx2 out :
  words rk -> length b = 16%nat -> bytes b ->
  length iv = 16%nat -> bytes iv -> length iv' = 16%nat -> bytes iv' ->
  AES_CBC_encrypt_buffer ks (mkCtx rk iv) b 16 = Ok (ctx1, out) ->
  AES_CBC_encrypt_buffer ks (mkCtx rk iv') b 16 = Ok (ctx2, out) ->
  iv = iv'.
Proof.
  intros Hrk Hbl Hb Hl Hiv Hl' Hiv' E1 E2.
  pose proof (AES_CBC_encrypt_buffer_concat ks (mkCtx rk iv) [b]) as F1.
  pose proof (AES_CBC_encrypt_buffer_concat ks (mkCtx rk iv') [b]) as F2.
  cbn [length cbc_enc_blocks last RoundKey Iv] in F1, F2. rewrite !concat_one in F1, F2.
  change (16 * 1)%nat with 16%nat in F1, F2.
  rewrite F1 in E1 by (repeat constructor; exact Hbl).
  rewrite F2 in E2 by (repeat constructor; exact Hbl).
  injection E1 as _ E1. injection E2 as _ E2.
  apply (enc_block_injective ks rk iv iv' b); try assumption. congruence.
Qed.

Lemma CBC_distinct_iv_distinct_ciphertext_witness : counter_iv = counter_iv.
Proof.
  apply (CBC_distinct_iv_distinct_ciphertext AES128 nist_schedule counter_iv counter_iv nist_plain
           (mkCtx nist_schedule (enc_block AES128 nist_schedule counter_iv nist_plain))
           (mkCtx nist_schedule (enc_block AES128 nist_schedule counter_iv nist_plain))
           (enc_block AES128 nist_schedule counter_iv nist_plain)).
  - apply wordsb_words. reflexivity.
  - reflexivity.
  - apply bytesb_bytes. reflexivity.
  - reflexivity.
  - apply bytesb_bytes. reflexivity.
  - reflexivity.
  - apply bytesb_bytes. reflexivity.
  - vm_compute. reflexivity.
  - vm_compute. reflexivity.
Defined.

(** ** CTR *)

Lemma length_ctr_stream ks rk count : forall bi iv buffer,
  length (fst (ctr_stream ks rk count bi iv buffer)) = count.
Proof.
  induction count as [| count IH]; intros bi iv buffer; [reflexivity |].
  rewrite ctr_stream_S. destruct (bi =? AES_BLOCKLEN)%nat; cbv zeta; cbn [fst length];
    rewrite IH; reflexivity.
Qed.

Lemma skipn_xor_stream mem : forall s,
  skipn (length s) (xor_stream mem s) = skipn (length s) mem.
Proof.
  induction mem as [| m mem IH]; intros [| k s]; try reflexivity.
  cbn [length xor_stream skipn]. apply IH.
Qed.

Lemma CTR_loop_overrun ks count : forall i bi ctx buffer mem,
  (i <= length mem < i + count)%nat ->
  CTR_loop ks count i bi ctx buffer mem = OutOfBounds.
Proof.
  induction count as [| count IH]; intros i bi ctx buffer mem H; [lia |].
  rewrite CTR_loop_S.
  assert (Hstep : forall ctx' buffer' bi',
            (if in_bounds mem i 1
             then CTR_loop ks count (i + 1) (bi' + 1) ctx' buffer'
                    (upd mem i (Z.lxor (nth i mem 0) (nth bi' buffer' 0)))
             else OutOfBounds) = OutOfBounds).
  { intros ctx' buffer' bi'. unfold in_bounds.
    destruct (Nat.leb_spec (i + 1) (length mem)); [| reflexivity].
    apply IH. rewrite length_upd. lia. }
  destruct (bi =? AES_BLOCKLEN)%nat.
  - rewrite Cipher_eq. cbn [bind]. apply Hstep.
  - cbn [bind]. apply Hstep.
Qed.

(** X12: [AES_CTR_xcrypt_buffer] succeeds exactly when the buffer holds
    [length] bytes; then it changes the first [length] bytes only, keeps
    the length of the buffer and keeps the schedule.  Otherwise an access
    leaves the buffer. *)
Theorem CTR_bounds_and_frame ks ctx buf len :
  ((length buf < len)%nat /\ AES_CTR_xcrypt_buffer ks ctx buf len = OutOfBounds) \/
  ((len <= length buf)%nat /\
   exists ctx' out,
     AES_CTR_xcrypt_buffer ks ctx buf len = Ok (ctx', out) /\
     RoundKey ctx' = RoundKey ctx /\ length out = length buf /\
     skipn len out = skipn len buf).
Proof.
  destruct (Nat.lt_ge_cases (length buf) len) as [Hlt | Hge].
  - left. split; [exact Hlt |]. unfold AES_CTR_xcrypt_buffer.
    apply CTR_loop_overrun. lia.
  - right. split; [exact Hge |]. rewrite AES_CTR_xcrypt_buffer_stream by exact Hge.
    do 2 eexists. split; [reflexivity |]. split; [reflexivity |].
    split; [apply length_xor_stream |].
    rewrite <- (length_ctr_stream ks (RoundKey ctx) len AES_BLOCKLEN (Iv ctx)
                  (repeat 0 AES_BLOCKLEN)) at 1 3.
    apply skipn_xor_stream.
Qed.

Lemma ctr_stream_counter_iter ks rk buffer : forall len iv,
  snd (ctr_stream ks rk len AES_BLOCKLEN iv buffer) =
  Nat.iter ((len + 15) / 16) (CTR_increment AES_BLOCKLEN) iv.
Proof.
  intros len. induction len as [len IH] using lt_wf_ind. intros iv.
  destruct len as [| k]; [reflexivity |].
  destruct (Nat.lt_ge_cases k 16) as [Hlt | Hge].
  - rewrite ctr_stream_counter by exact Hlt.
    replace ((S k + 15) / 16)%nat with 1%nat; [reflexivity |].
    apply (Nat.div_unique (S k + 15) 16 1 k); lia.
  - replace (S k) with (16 + (S k - 16))%nat at 1 by lia.
    pose proof (ctr_stream_block ks rk (S k - 16) iv buffer) as E. cbv zeta in E.
    rewrite E. cbn [snd]. rewrite IH by lia.
    replace ((S k + 15) / 16)%nat with (S ((S k - 16 + 15) / 16)).
    + rewrite Nat.iter_succ_r. reflexivity.
    + replace (S k + 15)%nat with ((S k - 16 + 15) + 1 * 16)%nat by lia.
      rewrite Nat.div_add by lia. lia.
Qed.

Lemma be_value_iter_increment n : forall iv,
  length iv = 16%nat -> bytes iv ->
  length (Nat.iter n (CTR_increment AES_BLOCKLEN) iv) = 16%nat /\
  bytes (Nat.iter n (CTR_increment AES_BLOCKLEN) iv) /\
  be_value (Nat.iter n (CTR_increment AES_BLOCKLEN) iv) = (be_value iv + Z.of_nat n) mod 2 ^ 128.
Proof.
  induction n as [| n IH]; intros iv Hl Hb.
  - cbn [Nat.iter nat_rect]. split; [exact Hl |]. split; [exact Hb |].
    pose proof (be_value_bound iv Hb) as Hv. rewrite Hl in Hv.
    change (256 ^ Z.of_nat 16) with (2 ^ 128) in Hv.
    rewrite Z.add_0_r, Z.mod_small by exact Hv. reflexivity.
  - destruct (IH iv Hl Hb) as (Hl' & Hb' & Hv').
    rewrite Nat.iter_succ.
    destruct (CTR_increment_16 _ Hl' Hb') as (H1 & H2 & H3).
    split; [exact H1 |]. split; [exact H2 |].
    rewrite H3, Hv'. rewrite Z.add_mod_idemp_l by lia.
    f_equal. lia.
Qed.

(** X13: a call of [AES_CTR_xcrypt_buffer] on [length] bytes advances the
    counter by the number of started blocks, ceil(length / 16), as a
    big-endian integer modulo 2^128; a partial block uses up a whole
    counter value. *)
Theorem CTR_counter_advance ks ctx buf len :
  length (Iv ctx) = 16%nat -> bytes (Iv ctx) -> (len <= length buf)%nat ->
  exists ctx' out,
    AES_CTR_xcrypt_buffer ks ctx buf len = Ok (ctx', out) /\
    length (Iv ctx') = 16%nat /\ bytes (Iv ctx') /\
    be_value (Iv ctx') = (be_value (Iv ctx) + Z.of_nat ((len + 15) / 16)) mod 2 ^ 128.
Proof.
  intros Hl Hb Hlen. rewrite AES_CTR_xcrypt_buffer_stream by exact Hlen.
  do 2 eexists. split; [reflexivity |]. cbn [Iv].
  rewrite ctr_stream_counter_iter. apply be_value_iter_increment; assumption.
Qed.

Lemma CTR_counter_advance_witness :
  exists ctx' out,
    AES_CTR_xcrypt_buffer AES128 nist_ctx (nist_plain ++ [1; 2; 3]) 17 = Ok (ctx', out) /\
    length (Iv ctx') = 16%nat /\ bytes (Iv ctx') /\
    be_value (Iv ctx') = (be_value (Iv nist_ctx) + Z.of_nat ((17 + 15) / 16)) mod 2 ^ 128.
Proof.
  apply (CTR_counter_advance AES128 nist_ctx (nist_plain ++ [1; 2; 3]) 17);
    [reflexivity | apply bytesb_bytes; reflexivity | cbn; lia].
Defined.

(** X14: two buffers of the same length processed by
    [AES_CTR_xcrypt_buffer] from the same context are XORed with the same
    keystream: the XOR of the two outputs is the XOR of the two inputs, and
    both calls leave the same context. *)
Theorem CTR_keystream_reuse ks ctx buf1 buf2 :
  length buf1 = length buf2 ->
  exists ctx' out1 out2,
    AES_CTR_xcrypt_buffer ks ctx buf1 (length buf1) = Ok (ctx', out1) /\
    AES_CTR_xcrypt_buffer ks ctx buf2 (length buf2) = Ok (ctx', out2) /\
    xor_stream out1 out2 = xor_stream buf1 buf2.
Proof.
  intros H. rewrite !AES_CTR_xcrypt_buffer_stream by lia. rewrite <- H.
  do 3 eexists. split; [reflexivity |]. split; [reflexivity |].
  apply xor_stream_same_key. exact H.
Qed.

Lemma CTR_keystream_reuse_witness :
  exists ctx' out1 out2,
    AES_CTR_xcrypt_buffer AES128 nist_ctx nist_plain (length nist_plain) = Ok (ctx', out1) /\
    AES_CTR_xcrypt_buffer AES128 nist_ctx nist_cipher (length nist_cipher) = Ok (ctx', out2) /\
    xor_stream out1 out2 = xor_stream nist_plain nist_cipher.
Proof. apply (CTR_keystream_reuse AES128 nist_ctx nist_plain nist_cipher). reflexivity. Defined.

(** ** ECB *)

(** X15: [AES_ECB_encrypt] and [AES_ECB_decrypt] fail exactly on a buffer
    of fewer than 16 bytes; otherwise they rewrite the first 16 bytes and
    nothing else. *)
Theorem ECB_bounds_and_frame ks ctx buf :
  ((length buf < 16)%nat /\
   AES_ECB_encrypt ks ctx buf = OutOfBounds /\ AES_ECB_decrypt ks ctx buf = OutOfBounds) \/
  ((16 <= length buf)%nat /\
   (exists out, AES_ECB_encrypt ks ctx buf = Ok out /\
                length out = length buf /\ skipn 16 out = skipn 16 buf) /\
   (exists out, AES_ECB_decrypt ks ctx buf = Ok out /\
                length out = length buf /\ skipn 16 out = skipn 16 buf)).
Proof.
  unfold AES_ECB_encrypt, AES_ECB_decrypt.
  destruct (Nat.lt_ge_cases (length buf) 16) as [Hlt | Hge].
  - left. split; [exact Hlt |].
    destruct (Cipher_at_cases ks buf 0 (RoundKey ctx)) as [(m & _ & _ & Hb) | (E & _)]; [lia |].
    destruct (InvCipher_at_cases ks buf 0 (RoundKey ctx)) as [(m & _ & _ & Hb) | (E' & _)]; [lia |].
    split; assumption.
  - right. split; [exact Hge |].
    rewrite <- (firstn_skipn 16 buf).
    assert (Hf : length (firstn 16 buf) = 16%nat) by (rewrite length_firstn; lia).
    pose proof (Cipher_at_app ks [] (firstn 16 buf) (skipn 16 buf) (RoundKey ctx) Hf) as E1.
    pose proof (InvCipher_at_app ks [] (firstn 16 buf) (skipn 16 buf) (RoundKey ctx) Hf) as E2.
    cbn [app length] in E1, E2. rewrite E1, E2.
    split; eexists; (split; [reflexivity |]);
      (split; [rewrite !length_app, length_bytes_of_state, Hf; reflexivity |]);
      rewrite !skipn_app_exact by (try apply length_bytes_of_state; exact Hf); reflexivity.
Qed.

(** X16: in ECB mode encryption also undoes decryption: decrypting a block
    and encrypting the result gives the block back. *)
Theorem ECB_encrypt_decrypt ks ctx block :
  words (RoundKey ctx) -> length block = 16%nat -> bytes block ->
  exists p, AES_ECB_decrypt ks ctx block = Ok p /\ AES_ECB_encrypt ks ctx p = Ok block.
Proof.
  intros Hrk Hl Hb. unfold AES_ECB_encrypt, AES_ECB_decrypt.
  rewrite InvCipher_at_whole by exact Hl. eexists. split; [reflexivity |].
  rewrite Cipher_at_whole by apply length_bytes_of_state.
  assert (Hwf : wf_state (state_of_bytes block)) by (apply wf_state_of_bytes; assumption).
  rewrite state_of_bytes_of_state by (apply wf_InvCipher_sequence; assumption).
  rewrite Cipher_sequence_InvCipher_sequence by assumption.
  rewrite bytes_of_state_of_bytes by assumption. reflexivity.
Qed.

Lemma ECB_encrypt_decrypt_witness :
  exists p, AES_ECB_decrypt AES128 nist_ctx nist_cipher = Ok p /\
            AES_ECB_encrypt AES128 nist_ctx p = Ok nist_cipher.
Proof.
  apply (ECB_encrypt_decrypt AES128 nist_ctx nist_cipher);
    [apply wordsb_words; reflexivity | reflexivity | apply bytesb_bytes; reflexivity].
Defined.

Lemma enc_block_dec_block ks rk iv c :
  words rk -> length c = 16%nat -> bytes c ->
  enc_block ks rk iv (dec_block ks rk iv c) = c.
Proof.
  intros Hrk Hl Hc. unfold enc_block, dec_block.
  rewrite XorWithIv_involutive by apply length_bytes_of_state.
  assert (Hwf : wf_state (state_of_bytes c)) by (apply wf_state_of_bytes; assumption).
  rewrite state_of_bytes_of_state by (apply wf_InvCipher_sequence; assumption).
  rewrite Cipher_sequence_InvCipher_sequence by assumption.
  apply bytes_of_state_of_bytes; assumption.
Qed.

Lemma cbc_enc_dec_blocks ks rk cs : forall iv,
  words rk -> Forall bytes cs -> Forall (fun b => length b = 16%nat) cs ->
  cbc_enc_blocks ks rk iv (cbc_dec_blocks ks rk iv cs) = cs.
Proof.
  induction cs as [| c cs IH]; intros iv Hrk Hb Hl; [reflexivity |].
  apply Forall_cons_iff in Hb, Hl. destruct Hb as [Hb Hbs]. destruct Hl as [Hl Hls].
  cbn [cbc_dec_blocks cbc_enc_blocks].
  rewrite enc_block_dec_block by assumption. rewrite IH by assumption. reflexivity.
Qed.

(** X17: in CBC mode encryption also undoes decryption: on a whole number
    of blocks, decrypting and then encrypting from the same context gives
    the buffer back. *)
Theorem CBC_encrypt_decrypt ks ctx buf :
  words (RoundKey ctx) -> (length buf mod 16 = 0)%nat -> bytes buf ->
  exists ctx1 p ctx2,
    AES_CBC_decrypt_buffer ks ctx buf (length buf) = Ok (ctx1, p) /\
    AES_CBC_encrypt_buffer ks ctx p (length p) = Ok (ctx2, buf).
Proof.
  intros Hrk Hmod Hb.
  destruct (blocks_of (length buf / 16) buf) as (blocks & -> & Hn & Hall).
  { pose proof (Nat.div_mod_eq (length buf) 16). lia. }
  apply bytes_concat in Hb.
  rewrite (length_concat_16 blocks Hall).
  rewrite AES_CBC_decrypt_buffer_concat by exact Hall.
  destruct (length_cbc_dec_blocks ks (RoundKey ctx) blocks (Iv ctx)) as [Hl' Hall'].
  do 3 eexists. split; [reflexivity |].
  rewrite (length_concat_16 _ Hall').
  rewrite AES_CBC_encrypt_buffer_concat by exact Hall'.
  rewrite cbc_enc_dec_blocks by assumption. reflexivity.
Qed.

Lemma CBC_encrypt_decrypt_witness :
  exists ctx1 p ctx2,
    AES_CBC_decrypt_buffer AES128 nist_ctx (nist_cipher ++ nist_plain)
      (length (nist_cipher ++ nist_plain)) = Ok (ctx1, p) /\
    AES_CBC_encrypt_buffer AES128 nist_ctx p (length p) = Ok (ctx2, nist_cipher ++ nist_plain).
Proof.
  apply (CBC_encrypt_decrypt AES128 nist_ctx (nist_cipher ++ nist_plain));
    [apply wordsb_words; reflexivity | reflexivity | apply bytesb_bytes; reflexivity].
Defined.




